(** * RandomDrawRoom: the roulette wheel's spin state machine

    A shallow embedding of the [RouletteWheel] component of
    [src/RandomDrawRoom.tsx]: the rotation arithmetic of [spinTo], the
    animation-frame callback it schedules, the [transitionend] listener
    [onEnd] that settles a spin, and [reset].

    Numbers.  The component is embedded twice.  The first embedding
    reads JavaScript numbers as exact rationals ([Q]) with the
    truncating remainder of ECMAScript for [%]; it carries the
    statements that do not depend on rounding.  The second, in module
    [Binary64], computes as the source does: every [+], [-], [*] and
    [/] is rounded to the nearest binary64 value and [%] is exact.
    On a wheel whose half slice is a whole number of degrees the two
    embeddings compute the same numbers.  Equality of numbers is [Qeq]
    ([==]).

    React.  Every handler (an imperative-handle call, an animation-frame
    callback, an event listener) runs to completion and its queued state
    updates are committed before the next one starts, so the closure of
    the handle always sees the latest [rotation]. *)

From Stdlib Require Import QArith Qround Qabs Qpower ZArith List String Bool Lia Lqa.
Import ListNotations.

Open Scope Q_scope.

(** ** JavaScript numbers *)

Module JsNum.

(** Truncation toward zero: the integer quotient used by [%]. *)
Definition Qtrunc (x : Q) : Z :=
  if Qle_bool 0 x then Qfloor x else Qceiling x.

(** [a % b]: [a - b * trunc (a / b)]. *)
Definition js_rem (a b : Q) : Q :=
  a - b * inject_Z (Qtrunc (a / b)).

(** The mathematical residue modulo 360, in [0, 360). *)
Definition mod360 (x : Q) : Q :=
  x - 360 * inject_Z (Qfloor (x / 360)).

End JsNum.

Import JsNum.

(** Two angles show the same orientation when they differ by whole turns. *)
Definition same_orientation (x y : Q) : Prop :=
  exists k : Z, x == y + 360 * inject_Z k.

(** ** The component's data *)

(** [WheelItem = { id: string; label: string }]. *)
Record WheelItem := { id : string; label : string }.

(** The optional second argument of [spinTo]:
    [{ spins?: number; durationMs?: number }]. *)
Record SpinOpts := { spins : option Z; durationMs : option Z }.

(** The props a render closes over: the item list and whether the
    optional [onDone] callback is supplied. *)
Record Props := { items : list WheelItem; onDone : bool }.

(** The inline [transition] style of the wheel element. *)
Inductive Transition :=
| TransitionUnset
| TransitionNone
| TransitionTransform (ms : Z).

(** The closure [onEnd] registered for [transitionend]: it remembers the
    winner, the target rotation and the [onDone] of its spin.  [l_key]
    stands for the identity of the function object, which is what
    [removeEventListener] compares. *)
Record Listener := {
  l_key : nat;
  l_winnerId : string;
  l_nextRotation : Q;
  l_onDone : bool
}.

(** The element behind [wheelRef.current]. *)
Record WheelDom := {
  transition : Transition;
  listeners : list Listener
}.

(** The callback handed to [requestAnimationFrame] by [spinTo]. *)
Record FrameCallback := {
  f_winnerId : string;
  f_nextRotation : Q;
  f_durationMs : Z;
  f_onDone : bool
}.

(** The component instance: the three [useState] cells, the ref, the
    browser's queue of animation-frame callbacks, the log of [onDone]
    invocations and the supply of listener identities. *)
Record World := {
  rotation : Q;
  spinning : bool;
  selectedId : option string;
  wheelRef : option WheelDom;
  rafQueue : list FrameCallback;
  doneCalls : list string;
  nextKey : nat
}.

(** The state of a freshly mounted wheel. *)
Definition mounted : World :=
  {| rotation := 0; spinning := false; selectedId := None;
     wheelRef := Some {| transition := TransitionUnset; listeners := [] |};
     rafQueue := []; doneCalls := []; nextKey := 0 |}.

(** The phase shown by the status line under the wheel:
    [spinning ? ... : selectedId ? ... : ...]. *)
Inductive Phase := Idle | Spinning | Settled.

Definition phase (w : World) : Phase :=
  if spinning w then Spinning
  else match selectedId w with Some _ => Settled | None => Idle end.

(** *** State setters *)

Definition setRotation (r : Q) (w : World) : World :=
  {| rotation := r; spinning := spinning w; selectedId := selectedId w;
     wheelRef := wheelRef w; rafQueue := rafQueue w;
     doneCalls := doneCalls w; nextKey := nextKey w |}.

Definition setSpinning (b : bool) (w : World) : World :=
  {| rotation := rotation w; spinning := b; selectedId := selectedId w;
     wheelRef := wheelRef w; rafQueue := rafQueue w;
     doneCalls := doneCalls w; nextKey := nextKey w |}.

Definition setSelectedId (s : option string) (w : World) : World :=
  {| rotation := rotation w; spinning := spinning w; selectedId := s;
     wheelRef := wheelRef w; rafQueue := rafQueue w;
     doneCalls := doneCalls w; nextKey := nextKey w |}.

Definition setWheel (d : WheelDom) (w : World) : World :=
  {| rotation := rotation w; spinning := spinning w;
     selectedId := selectedId w;
     wheelRef := Some d; rafQueue := rafQueue w;
     doneCalls := doneCalls w; nextKey := nextKey w |}.

Definition setRafQueue (q : list FrameCallback) (w : World) : World :=
  {| rotation := rotation w; spinning := spinning w;
     selectedId := selectedId w;
     wheelRef := wheelRef w; rafQueue := q;
     doneCalls := doneCalls w; nextKey := nextKey w |}.

Definition requestAnimationFrame (cb : FrameCallback) (w : World) : World :=
  setRafQueue (rafQueue w ++ [cb])%list w.

(** [onDone?.(winnerId)]. *)
Definition callOnDone (given : bool) (winnerId : string) (w : World) : World :=
  if given then
    {| rotation := rotation w; spinning := spinning w;
       selectedId := selectedId w;
       wheelRef := wheelRef w; rafQueue := rafQueue w;
       doneCalls := (doneCalls w ++ [winnerId])%list; nextKey := nextKey w |}
  else w.

Definition freshKey (w : World) : World :=
  {| rotation := rotation w; spinning := spinning w;
     selectedId := selectedId w;
     wheelRef := wheelRef w; rafQueue := rafQueue w;
     doneCalls := doneCalls w; nextKey := S (nextKey w) |}.

Definition setTransition (t : Transition) (d : WheelDom) : WheelDom :=
  {| transition := t; listeners := listeners d |}.

Definition addEventListener (l : Listener) (d : WheelDom) : WheelDom :=
  {| transition := transition d; listeners := (listeners d ++ [l])%list |}.

Definition removeEventListener (l : Listener) (d : WheelDom) : WheelDom :=
  {| transition := transition d;
     listeners := filter (fun m => negb (Nat.eqb (l_key m) (l_key l)))
                         (listeners d) |}.

(** ** RotationMath: the arithmetic of [spinTo] *)

(** [items.findIndex(pred)]: the first index whose item satisfies
    [pred], [-1] when there is none. *)
Fixpoint findIndex_from (pred : WheelItem -> bool) (l : list WheelItem)
    (i : Z) : Z :=
  match l with
  | [] => (-1)%Z
  | it :: rest => if pred it then i else findIndex_from pred rest (i + 1)%Z
  end.

Definition findIndex (pred : WheelItem -> bool) (l : list WheelItem) : Z :=
  findIndex_from pred l 0%Z.

Definition has_id (winnerId : string) (it : WheelItem) : bool :=
  String.eqb (id it) winnerId.

Definition count (its : list WheelItem) : Q :=
  inject_Z (Z.of_nat (List.length its)).

(** [items.length > 0 ? 360 / items.length : 0]. *)
Definition sliceAngle (its : list WheelItem) : Q :=
  if (0 <? List.length its)%nat then 360 / count its else 0.

(** [idx * sliceAngle + sliceAngle / 2]: the middle of slice [idx]. *)
Definition winnerAngle (its : list WheelItem) (idx : Z) : Q :=
  inject_Z idx * sliceAngle its + sliceAngle its / 2.

(** [((rotation % 360) + 360) % 360]. *)
Definition current (rot : Q) : Q :=
  js_rem (js_rem rot 360 + 360) 360.

(** [spins * 360 + (360 - winnerAngle)]. *)
Definition targetAbs (its : list WheelItem) (idx sp : Z) : Q :=
  inject_Z sp * 360 + (360 - winnerAngle its idx).

(** [((targetAbs - current) % 360 + 360) % 360 + spins * 360]. *)
Definition deltaForward (its : list WheelItem) (idx : Z) (rot : Q) (sp : Z)
    : Q :=
  js_rem (js_rem (targetAbs its idx sp - current rot) 360 + 360) 360
  + inject_Z sp * 360.

(** [rotation + deltaForward]. *)
Definition nextRotation (its : list WheelItem) (idx : Z) (rot : Q) (sp : Z)
    : Q :=
  rot + deltaForward its idx rot sp.

(** [opts?.spins ?? 6] and [opts?.durationMs ?? 4800]. *)
Definition spinsOf (opts : option SpinOpts) : Z :=
  match opts with
  | Some o => match spins o with Some s => s | None => 6%Z end
  | None => 6%Z
  end.

Definition durationOf (opts : option SpinOpts) : Z :=
  match opts with
  | Some o => match durationMs o with Some d => d | None => 4800%Z end
  | None => 4800%Z
  end.

(** ** SpinController: the imperative handle and its callbacks *)

(** [spinTo(winnerId, opts)] of the handle rendered with props [p]. *)
Definition spinTo (p : Props) (winnerId : string) (opts : option SpinOpts)
    (w : World) : World :=
  if (List.length (items p) =? 0)%nat then w
  else
    let idx := findIndex (has_id winnerId) (items p) in
    if (idx =? -1)%Z then w
    else
      let sp := spinsOf opts in
      let ms := durationOf opts in
      let next := nextRotation (items p) idx (rotation w) sp in
      requestAnimationFrame
        {| f_winnerId := winnerId; f_nextRotation := next;
           f_durationMs := ms; f_onDone := onDone p |}
        (setSpinning true w).

(** The listener [onEnd]. *)
Definition onEnd (l : Listener) (w : World) : World :=
  match wheelRef w with
  | None => w
  | Some d =>
      let d1 := removeEventListener l d in
      let canonical := js_rem (l_nextRotation l) 360 in
      let d2 := setTransition TransitionNone d1 in
      let w1 := setWheel d2 w in
      let w2 := setRotation
                  (rotation w1 + (canonical - js_rem (rotation w1) 360)) w1 in
      let w3 := setSpinning false w2 in
      let w4 := setSelectedId (Some (l_winnerId l)) w3 in
      callOnDone (l_onDone l) (l_winnerId l) w4
  end.

(** The body of the animation-frame callback. *)
Definition frameCallback (cb : FrameCallback) (w : World) : World :=
  match wheelRef w with
  | None => w
  | Some d =>
      let d1 := setTransition (TransitionTransform (f_durationMs cb)) d in
      let w1 := setSelectedId None (setWheel d1 w) in
      let w2 := setRotation (f_nextRotation cb) w1 in
      let l := {| l_key := nextKey w2; l_winnerId := f_winnerId cb;
                  l_nextRotation := f_nextRotation cb;
                  l_onDone := f_onDone cb |} in
      freshKey (setWheel (addEventListener l d1) w2)
  end.

(** [reset()]. *)
Definition reset (w : World) : World :=
  let w1 := setSelectedId None w in
  let w2 := match wheelRef w1 with
            | Some d => setWheel (setTransition TransitionNone d) w1
            | None => w1
            end in
  let w3 := setRotation 0 w2 in
  setSpinning false w3.

(** *** The browser's side *)

(** An animation frame runs the callbacks queued so far, in order. *)
Definition animationFrame (w : World) : World :=
  fold_left (fun acc cb => frameCallback cb acc) (rafQueue w)
            (setRafQueue [] w).

Definition registered (l : Listener) (w : World) : bool :=
  match wheelRef w with
  | None => false
  | Some d => existsb (fun m => Nat.eqb (l_key m) (l_key l)) (listeners d)
  end.

(** Dispatching [transitionend] on the wheel element invokes the
    listeners registered at that moment, in registration order, skipping
    one that has been removed in the meantime. *)
Definition dispatch (l : Listener) (w : World) : World :=
  if registered l w then onEnd l w else w.

Definition transitionEnd (w : World) : World :=
  match wheelRef w with
  | None => w
  | Some d => fold_left (fun acc l => dispatch l acc) (listeners d) w
  end.

(** What can happen to a mounted wheel. *)
Inductive Event :=
| SpinTo (p : Props) (winnerId : string) (opts : option SpinOpts)
| Reset
| AnimationFrame
| TransitionEnd.

Definition step (w : World) (e : Event) : World :=
  match e with
  | SpinTo p winnerId opts => spinTo p winnerId opts w
  | Reset => reset w
  | AnimationFrame => animationFrame w
  | TransitionEnd => transitionEnd w
  end.

Definition run (w : World) (es : list Event) : World :=
  fold_left step es w.

(** *** Derived notions used in the statements *)

(** The callback [spinTo] schedules for a known target. *)
Definition scheduled (p : Props) (winnerId : string) (opts : option SpinOpts)
    (w : World) : FrameCallback :=
  {| f_winnerId := winnerId;
     f_nextRotation :=
       nextRotation (items p) (findIndex (has_id winnerId) (items p))
                    (rotation w) (spinsOf opts);
     f_durationMs := durationOf opts;
     f_onDone := onDone p |}.

(** No frame callback is queued and no listener is registered: no spin
    is in flight. *)
Definition quiescent (w : World) : bool :=
  match rafQueue w, wheelRef w with
  | [], Some d => match listeners d with [] => true | _ :: _ => false end
  | _, _ => false
  end.

(** Events the browser delivers on its own. *)
Definition browser_event (e : Event) : bool :=
  match e with
  | AnimationFrame | TransitionEnd => true
  | SpinTo _ _ _ | Reset => false
  end.

(** The world once the frame callback [cb] of a lone spin has run. *)
Definition turning (cb : FrameCallback) (w : World) : World :=
  {| rotation := f_nextRotation cb;
     spinning := true;
     selectedId := None;
     wheelRef :=
       Some {| transition := TransitionTransform (f_durationMs cb);
               listeners := [ {| l_key := nextKey w;
                                 l_winnerId := f_winnerId cb;
                                 l_nextRotation := f_nextRotation cb;
                                 l_onDone := f_onDone cb |} ] |};
     rafQueue := [];
     doneCalls := doneCalls w;
     nextKey := S (nextKey w) |}.

(** The world once its listener has run as well. *)
Definition settled (cb : FrameCallback) (w : World) : World :=
  {| rotation := f_nextRotation cb
                 + (js_rem (f_nextRotation cb) 360
                    - js_rem (f_nextRotation cb) 360);
     spinning := false;
     selectedId := Some (f_winnerId cb);
     wheelRef := Some {| transition := TransitionNone; listeners := [] |};
     rafQueue := [];
     doneCalls := if f_onDone cb then (doneCalls w ++ [f_winnerId cb])%list
                  else doneCalls w;
     nextKey := S (nextKey w) |}.

(** Spins are requested with a spin count [>= 0]. *)
Definition forward_event (e : Event) : bool :=
  match e with
  | SpinTo _ _ opts => (0 <=? spinsOf opts)%Z
  | Reset | AnimationFrame | TransitionEnd => true
  end.

(** The rotation, and every target a queued callback or a registered
    listener still carries, is non-negative. *)
Definition nonneg_world (w : World) : Prop :=
  0 <= rotation w /\
  Forall (fun cb => 0 <= f_nextRotation cb) (rafQueue w) /\
  match wheelRef w with
  | Some d => Forall (fun l => 0 <= l_nextRotation l) (listeners d)
  | None => True
  end.

(** *** The scenario of the draw page *)

Definition participant (name : string) : WheelItem :=
  {| id := name; label := name |}.

(** Four items [A, B, C, D]: slices of 90 degrees. *)
Definition abcd : list WheelItem :=
  [participant "A"; participant "B"; participant "C"; participant "D"].

Definition room : Props := {| items := abcd; onDone := true |}.

(** [{ spins: 6, durationMs: 4800 }], as [handleDraw] passes. *)
Definition drawOpts : option SpinOpts :=
  Some {| spins := Some 6%Z; durationMs := Some 4800%Z |}.



(** [n] draws in a row, each run to completion. *)
Fixpoint draws (n : nat) : list Event :=
  match n with
  | O => []
  | S m => SpinTo room "C" drawOpts :: AnimationFrame :: TransitionEnd
             :: draws m
  end.

(** ** WheelRenderer: what the component draws *)

(** [items.length || 1]. *)
Definition lengthOr1 (its : list WheelItem) : nat :=
  if (List.length its =? 0)%nat then 1%nat else List.length its.

(** The hue of [colors[i]], [(i * 360) / (items.length || 1)]; the
    saturation and the lightness are the constants 75% and 70%. *)
Definition hue (its : list WheelItem) (i : nat) : Q :=
  (inject_Z (Z.of_nat i) * 360) / inject_Z (Z.of_nat (lengthOr1 its)).

(** [l.map((x, i) => f x i)]. *)
Fixpoint mapi_from {A B : Type} (f : A -> nat -> B) (l : list A) (i : nat)
    : list B :=
  match l with
  | [] => []
  | x :: rest => f x i :: mapi_from f rest (S i)
  end.

Definition mapi {A B : Type} (f : A -> nat -> B) (l : list A) : list B :=
  mapi_from f l 0.

(** [items.map((_, i) => hsl(...))]. *)
Definition colors (its : list WheelItem) : list Q :=
  mapi (fun _ i => hue its i) its.

(** The flag of [describeArc]:
    [endAngle - startAngle <= 180 ? "0" : "1"]. *)
Definition largeArcFlag (startAngle endAngle : Q) : string :=
  if Qle_bool (endAngle - startAngle) 180 then "0"%string else "1"%string.

(** What the body of [items.map((item, i) => ...)] computes for one
    slice: the two angles given to [describeArc], the angle of the
    label, the flag, [colors[i]], the label and its font weight. *)
Record SliceView := {
  v_start : Q;
  v_end : Q;
  v_mid : Q;
  v_largeArc : string;
  v_fill : option Q;
  v_label : string;
  v_fontWeight : Z
}.

(** [item.id === selectedId]. *)
Definition isSelected (selected : option string) (item : WheelItem) : bool :=
  match selected with
  | Some s => String.eqb (id item) s
  | None => false
  end.

Definition renderSlice (its : list WheelItem) (selected : option string)
    (item : WheelItem) (i : nat) : SliceView :=
  let start := inject_Z (Z.of_nat i) * sliceAngle its in
  let end_ := start + sliceAngle its in
  let mid := start + sliceAngle its / 2 in
  {| v_start := start; v_end := end_; v_mid := mid;
     v_largeArc := largeArcFlag start end_;
     v_fill := nth_error (colors its) i;
     v_label := label item;
     v_fontWeight := if isSelected selected item then 800%Z else 600%Z |}.

Definition renderSlices (its : list WheelItem) (selected : option string)
    : list SliceView :=
  mapi (renderSlice its selected) its.

(** A string in a condition: only the empty string is falsy. *)
Definition truthy (s : string) : bool := negb (String.eqb s "").

(** The status line under the wheel. *)
Definition statusText (its : list WheelItem) (w : World) : string :=
  if spinning w then "Крутимо... Крутимо..."%string
  else
    match selectedId w with
    | Some s =>
        if truthy s then
          ("Переможець: "
           ++ match List.find (fun i => String.eqb (id i) s) its with
              | Some it => label it
              | None => "undefined"
              end
           ++ "!")%string
        else "Готово до спіну!"%string
    | None => "Готово до спіну!"%string
    end.

(** The ids of the [spinTo] calls that found their target. *)
Definition known_requests (es : list Event) : list string :=
  flat_map (fun e =>
              match e with
              | SpinTo p winnerId _ =>
                  if (findIndex (has_id winnerId) (items p) =? -1)%Z
                  then [] else [winnerId]
              | Reset | AnimationFrame | TransitionEnd => []
              end) es.

(** Every id the world still holds or has reported is in [R]. *)
Definition ids_within (R : list string) (w : World) : Prop :=
  (forall x, In x (doneCalls w) -> In x R) /\
  (forall x, selectedId w = Some x -> In x R) /\
  (forall cb, In cb (rafQueue w) -> In (f_winnerId cb) R) /\
  (forall d l, wheelRef w = Some d -> In l (listeners d) ->
               In (l_winnerId l) R).

(** The listeners of the wheel element, none when it is gone. *)
Definition registeredListeners (w : World) : list Listener :=
  match wheelRef w with
  | Some d => listeners d
  | None => []
  end.

(** Listener identities are pairwise distinct and below the supply. *)
Definition well_keyed (w : World) : Prop :=
  NoDup (map l_key (registeredListeners w)) /\
  Forall (fun l => (l_key l < nextKey w)%nat) (registeredListeners w).

(** *** Counting completions *)

(** Completions reported or still to come: [onDone] calls made, frame
    callbacks queued and listeners registered. *)
Definition completions (w : World) : nat :=
  (List.length (doneCalls w) + List.length (rafQueue w)
   + List.length (registeredListeners w))%nat.

(** ** The page: RandomDrawRoom *)

(** [Participant = { id: string; name: string }]. *)
Record Participant := { p_id : string; p_name : string }.

(** [RoomState]; a missing or null [winner_id] is [None]. *)
Record RoomState := {
  room_id : string;
  participants : list Participant;
  is_draw_done : bool;
  winner_id : option string
}.

(** The [useState] cells of the page. *)
Record Page := {
  st_room : option RoomState;
  st_winner : option Participant;
  st_newName : string;
  st_loadingDraw : bool;
  st_error : option string
}.

Definition setRoom (r : option RoomState) (pg : Page) : Page :=
  {| st_room := r; st_winner := st_winner pg; st_newName := st_newName pg;
     st_loadingDraw := st_loadingDraw pg; st_error := st_error pg |}.

Definition setWinner (p : option Participant) (pg : Page) : Page :=
  {| st_room := st_room pg; st_winner := p; st_newName := st_newName pg;
     st_loadingDraw := st_loadingDraw pg; st_error := st_error pg |}.

Definition setLoadingDraw (b : bool) (pg : Page) : Page :=
  {| st_room := st_room pg; st_winner := st_winner pg;
     st_newName := st_newName pg;
     st_loadingDraw := b; st_error := st_error pg |}.

Definition setError (e : option string) (pg : Page) : Page :=
  {| st_room := st_room pg; st_winner := st_winner pg;
     st_newName := st_newName pg;
     st_loadingDraw := st_loadingDraw pg; st_error := e |}.

(** [room?.participants ?? []]. *)
Definition roomParticipants (r : option RoomState) : list Participant :=
  match r with
  | Some x => participants x
  | None => []
  end.

(** [(room?.participants ?? []).map((p) => ({ id: p.id, label: p.name }))]. *)
Definition pageItems (pg : Page) : list WheelItem :=
  map (fun p => {| id := p_id p; label := p_name p |})
      (roomParticipants (st_room pg)).

(** The props of [<RouletteWheel items={items} onDone={handleWheelDone}/>]. *)
Definition wheelProps (pg : Page) : Props :=
  {| items := pageItems pg; onDone := true |}.

(** [disabled={loadingDraw || !room || !room.participants.length}]. *)
Definition drawDisabled (pg : Page) : bool :=
  st_loadingDraw pg
  || match st_room pg with
     | None => true
     | Some r => (List.length (participants r) =? 0)%nat
     end.

(** [loadRoom] up to its request: [setError(null)]. *)
Definition loadRoom_start (pg : Page) : Page := setError None pg.

(** [loadRoom] once the room has arrived. *)
Definition loadRoom_resolved (data : RoomState) (pg : Page) : Page :=
  let pg1 := setRoom (Some data) pg in
  match is_draw_done data, winner_id data with
  | true, Some wid =>
      if truthy wid then
        setWinner (List.find (fun p => String.eqb (p_id p) wid)
                             (participants data)) pg1
      else setWinner None pg1
  | _, _ => setWinner None pg1
  end.

(** [loadRoom] when the request fails:
    [setError(e.message ?? "Failed to load room")]. *)
Definition loadRoom_rejected (message : option string) (pg : Page) : Page :=
  setError (Some match message with
                 | Some m => m
                 | None => "Failed to load room"%string
                 end) pg.

(** [handleDraw] up to its request; the flag tells whether the request
    is sent. *)
Definition handleDraw_start (pg : Page) : Page * bool :=
  match st_room pg with
  | None => (pg, false)
  | Some r =>
      if (List.length (participants r) =? 0)%nat then (pg, false)
      else (setWinner None (setError None (setLoadingDraw true pg)), true)
  end.

(** [handleDraw] once the winner has arrived:
    [wheelRef.current?.spinTo(targetWinner.id, { spins: 6, durationMs: 4800 })]. *)
Definition handleDraw_resolved (targetWinner : Participant) (pg : Page)
    (w : World) : World :=
  spinTo (wheelProps pg) (p_id targetWinner) drawOpts w.

(** [handleDraw] when the request fails. *)
Definition handleDraw_rejected (message : option string) (pg : Page) : Page :=
  setLoadingDraw false
    (setError (Some match message with
                    | Some m => m
                    | None => "Failed to draw"%string
                    end) pg).

(** [handleWheelDone(id)]; [seen] is the [room] of the render whose
    callback the wheel holds.  The call of [loadRoom] at its end runs
    up to the request. *)
Definition handleWheelDone (seen : option RoomState) (winnerId : string)
    (pg : Page) : Page :=
  let p := List.find (fun x => String.eqb (p_id x) winnerId)
                     (roomParticipants seen) in
  loadRoom_start (setLoadingDraw false (setWinner p pg)).

(** *** A page with the four participants of the scenario *)

Definition fourPlayers : RoomState :=
  {| room_id := "r1";
     participants :=
       [ {| p_id := "A"; p_name := "Anna" |};
         {| p_id := "B"; p_name := "Bo" |};
         {| p_id := "C"; p_name := "Cy" |};
         {| p_id := "D"; p_name := "Di" |} ];
     is_draw_done := false;
     winner_id := None |}.

Definition readyPage : Page :=
  {| st_room := Some fourPlayers; st_winner := None; st_newName := "";
     st_loadingDraw := false; st_error := None |}.

(** ** The same arithmetic in binary64

    The definitions above read a JavaScript number as an exact rational.
    The ones below round as the source does: a number is a finite
    binary64 value (a rational [m * 2^g] with [|m| < 2^53]); [+], [-],
    [*] and [/] give the exact result rounded to the nearest such
    value, ties to the even significand; [%] is exact, as the remainder
    of two binary64 values always is.  The exponent is unbounded:
    overflow to infinity, subnormal results and NaN are not modelled. *)

Module Binary64.

(** [2^e]. *)
Definition pow2 (e : Z) : Q := 2 ^ e.

(** The nearest integer, ties to even. *)
Definition rne (y : Q) : Z :=
  let f := Qfloor y in
  match Qcompare (y - inject_Z f) (1 # 2) with
  | Lt => f
  | Gt => (f + 1)%Z
  | Eq => if Z.even f then f else (f + 1)%Z
  end.

(** For [q > 0], the exponent [e] with [2^e <= q < 2^(e+1)]. *)
Definition ilog2 (q : Q) : Z :=
  let e0 := (Z.log2 (Qnum q) - Z.log2 (Zpos (Qden q)))%Z in
  if Qle_bool (pow2 e0) q then e0 else (e0 - 1)%Z.

(** Rounding to 53 significant bits. *)
Definition round (x : Q) : Q :=
  if Qeq_bool x 0 then 0
  else let c := (ilog2 (Qabs x) - 52)%Z in
       inject_Z (rne (x / pow2 c)) * pow2 c.

(** The values a number can hold. *)
Definition float64 (x : Q) : Prop :=
  exists m g : Z, (Z.abs m < 2 ^ 53)%Z /\ x == inject_Z m * pow2 g.

(** Half a unit in the last place, relative to the value: [2^-53]. *)
Definition ulp53 : Q := 1 # 9007199254740992.

Definition add (a b : Q) : Q := round (a + b).
Definition sub (a b : Q) : Q := round (a - b).
Definition mul (a b : Q) : Q := round (a * b).
Definition div (a b : Q) : Q := round (a / b).

(** [{ spins?: number; durationMs?: number }]: [spins] enters the
    arithmetic and is any number; [durationMs] only names the
    transition. *)
Record SpinOpts := { spins : option Q; durationMs : option Z }.

(** [opts?.spins ?? 6] and [opts?.durationMs ?? 4800]. *)
Definition spinsOf (opts : option SpinOpts) : Q :=
  match opts with
  | Some o => match spins o with Some s => s | None => 6 end
  | None => 6
  end.

Definition durationOf (opts : option SpinOpts) : Z :=
  match opts with
  | Some o => match durationMs o with Some d => d | None => 4800%Z end
  | None => 4800%Z
  end.

(** [items.length > 0 ? 360 / items.length : 0]. *)
Definition sliceAngle (its : list WheelItem) : Q :=
  if (0 <? List.length its)%nat then div 360 (count its) else 0.

(** [idx * sliceAngle + sliceAngle / 2]. *)
Definition winnerAngle (its : list WheelItem) (idx : Z) : Q :=
  add (mul (inject_Z idx) (sliceAngle its)) (div (sliceAngle its) 2).

(** [((rotation % 360) + 360) % 360]. *)
Definition current (rot : Q) : Q :=
  js_rem (add (js_rem rot 360) 360) 360.

(** [spins * 360 + (360 - winnerAngle)]. *)
Definition targetAbs (its : list WheelItem) (idx : Z) (sp : Q) : Q :=
  add (mul sp 360) (sub 360 (winnerAngle its idx)).

(** [((targetAbs - current) % 360 + 360) % 360 + spins * 360]. *)
Definition deltaForward (its : list WheelItem) (idx : Z) (rot sp : Q) : Q :=
  add (js_rem (add (js_rem (sub (targetAbs its idx sp) (current rot)) 360)
                   360) 360)
      (mul sp 360).

(** [rotation + deltaForward]. *)
Definition nextRotation (its : list WheelItem) (idx : Z) (rot sp : Q) : Q :=
  add rot (deltaForward its idx rot sp).

(** [spinTo(winnerId, opts)]. *)
Definition spinTo (p : Props) (winnerId : string) (opts : option SpinOpts)
    (w : World) : World :=
  if (List.length (items p) =? 0)%nat then w
  else
    let idx := findIndex (has_id winnerId) (items p) in
    if (idx =? -1)%Z then w
    else
      let sp := spinsOf opts in
      let ms := durationOf opts in
      let next := nextRotation (items p) idx (rotation w) sp in
      requestAnimationFrame
        {| f_winnerId := winnerId; f_nextRotation := next;
           f_durationMs := ms; f_onDone := onDone p |}
        (setSpinning true w).

(** The listener [onEnd]. *)
Definition onEnd (l : Listener) (w : World) : World :=
  match wheelRef w with
  | None => w
  | Some d =>
      let d1 := removeEventListener l d in
      let canonical := js_rem (l_nextRotation l) 360 in
      let d2 := setTransition TransitionNone d1 in
      let w1 := setWheel d2 w in
      let w2 := setRotation
                  (add (rotation w1)
                       (sub canonical (js_rem (rotation w1) 360))) w1 in
      let w3 := setSpinning false w2 in
      let w4 := setSelectedId (Some (l_winnerId l)) w3 in
      callOnDone (l_onDone l) (l_winnerId l) w4
  end.

Definition dispatch (l : Listener) (w : World) : World :=
  if registered l w then onEnd l w else w.

Definition transitionEnd (w : World) : World :=
  match wheelRef w with
  | None => w
  | Some d => fold_left (fun acc l => dispatch l acc) (listeners d) w
  end.

Inductive Event :=
| SpinTo (p : Props) (winnerId : string) (opts : option SpinOpts)
| Reset
| AnimationFrame
| TransitionEnd.

(** The frame callback and [reset] do no arithmetic. *)
Definition step (w : World) (e : Event) : World :=
  match e with
  | SpinTo p winnerId opts => spinTo p winnerId opts w
  | Reset => reset w
  | AnimationFrame => animationFrame w
  | TransitionEnd => transitionEnd w
  end.

Definition run (w : World) (es : list Event) : World :=
  fold_left step es w.

(** The callback [spinTo] schedules for a known target. *)
Definition scheduled (p : Props) (winnerId : string) (opts : option SpinOpts)
    (w : World) : FrameCallback :=
  {| f_winnerId := winnerId;
     f_nextRotation :=
       nextRotation (items p) (findIndex (has_id winnerId) (items p))
                    (rotation w) (spinsOf opts);
     f_durationMs := durationOf opts;
     f_onDone := onDone p |}.

(** The world once the listener of a lone spin has run. *)
Definition settled (cb : FrameCallback) (w : World) : World :=
  {| rotation := add (f_nextRotation cb)
                     (sub (js_rem (f_nextRotation cb) 360)
                          (js_rem (f_nextRotation cb) 360));
     spinning := false;
     selectedId := Some (f_winnerId cb);
     wheelRef := Some {| transition := TransitionNone; listeners := [] |};
     rafQueue := [];
     doneCalls := if f_onDone cb then (doneCalls w ++ [f_winnerId cb])%list
                  else doneCalls w;
     nextKey := S (nextKey w) |}.

(** [{ spins: n }]. *)
Definition turns (n : Z) : option SpinOpts :=
  Some {| spins := Some (inject_Z n); durationMs := None |}.

(** A spin with its frame and its [transitionend]. *)
Definition spinCycle (r : Props * string * option SpinOpts) : list Event :=
  let '(p, winnerId, opts) := r in
  [SpinTo p winnerId opts; AnimationFrame; TransitionEnd].





(** [handleDraw] once the winner has arrived, on this arithmetic. *)
Definition handleDraw_resolved (targetWinner : Participant) (pg : Page)
    (w : World) : World :=
  spinTo (wheelProps pg) (p_id targetWinner) (turns 6) w.

(** The hue of [colors[i]], [(i * 360) / (items.length || 1)]. *)
Definition hue (its : list WheelItem) (i : nat) : Q :=
  div (mul (inject_Z (Z.of_nat i)) 360)
      (inject_Z (Z.of_nat (lengthOr1 its))).

Definition colors (its : list WheelItem) : list Q :=
  mapi (fun _ i => hue its i) its.

(** [endAngle - startAngle <= 180 ? "0" : "1"]. *)
Definition largeArcFlag (startAngle endAngle : Q) : string :=
  if Qle_bool (sub endAngle startAngle) 180 then "0"%string else "1"%string.

(** The body of [items.map((item, i) => ...)]: [start = i * sliceAngle],
    [end = start + sliceAngle], [mid = start + sliceAngle / 2]. *)
Definition renderSlice (its : list WheelItem) (selected : option string)
    (item : WheelItem) (i : nat) : SliceView :=
  let start := mul (inject_Z (Z.of_nat i)) (sliceAngle its) in
  let end_ := add start (sliceAngle its) in
  let mid := add start (div (sliceAngle its) 2) in
  {| v_start := start; v_end := end_; v_mid := mid;
     v_largeArc := largeArcFlag start end_;
     v_fill := nth_error (colors its) i;
     v_label := label item;
     v_fontWeight := if isSelected selected item then 800%Z else 600%Z |}.

Definition renderSlices (its : list WheelItem) (selected : option string)
    : list SliceView :=
  mapi (renderSlice its selected) its.

(** The angle of the wheel's style, [rotation - 90], as the component
    computes it. *)
Definition wheelRotate (rot : Q) : Q := sub rot 90.

(** Where an angle of the drawing ends up on screen: [polarToCartesian]
    measures angles clockwise from the x axis (y grows downwards), and
    the CSS rotation turns the drawing clockwise by [wheelRotate].  The
    sum is the geometric one, not a computation of the component. *)
Definition screenAngle (rot a : Q) : Q := a + wheelRotate rot.

(** A binary64 value [>= 0]. *)
Definition value64 (x : Q) : Prop := float64 x /\ 0 <= x.

(** Spins are requested with a spin count [>= 0]. *)
Definition forward_event (e : Event) : bool :=
  match e with
  | SpinTo _ _ opts => Qle_bool 0 (spinsOf opts)
  | Reset | AnimationFrame | TransitionEnd => true
  end.

(** The rotation, and every target a queued callback or a registered
    listener still carries, is a binary64 value [>= 0]. *)
Definition nonneg_world (w : World) : Prop :=
  value64 (rotation w) /\
  Forall (fun cb => value64 (f_nextRotation cb)) (rafQueue w) /\
  match wheelRef w with
  | Some d => Forall (fun l => value64 (l_nextRotation l)) (listeners d)
  | None => True
  end.

End Binary64.

(** Seven items: slices of 360/7 degrees, which binary64 cannot hold. *)
Definition seven : list WheelItem :=
  [participant "a"; participant "b"; participant "c"; participant "d";
   participant "e"; participant "f"; participant "g"].

Definition sevenRoom : Props := {| items := seven; onDone := true |}.

(** A whole number: the values on which no operation rounds. *)
Definition whole (x : Q) : Prop := exists z : Z, x == inject_Z z.

Arguments Binary64.round : simpl never.
Arguments Binary64.add : simpl never.
Arguments Binary64.sub : simpl never.
Arguments Binary64.mul : simpl never.
Arguments Binary64.div : simpl never.
Arguments Binary64.deltaForward : simpl never.
Arguments Binary64.nextRotation : simpl never.
Arguments Binary64.winnerAngle : simpl never.
Arguments Binary64.hue : simpl never.
Arguments Binary64.wheelRotate : simpl never.
Arguments nextRotation : simpl never.
Arguments deltaForward : simpl never.
Arguments js_rem : simpl never.

(** * Properties *)

(** ** The remainder operator *)

Section RemainderFacts.

Lemma Qtrunc_nonneg (x : Q) :
  0 <= x -> inject_Z (Qtrunc x) <= x /\ x < inject_Z (Qtrunc x) + 1.
Proof.
  intros Hx. unfold Qtrunc.
  apply Qle_bool_iff in Hx. rewrite Hx.
  split; [apply Qfloor_le|].
  pose proof (Qlt_floor x) as H.
  rewrite inject_Z_plus in H. exact H.
Qed.

Lemma Qtrunc_neg (x : Q) :
  x < 0 -> inject_Z (Qtrunc x) - 1 < x /\ x <= inject_Z (Qtrunc x).
Proof.
  intros Hx. unfold Qtrunc.
  destruct (Qle_bool 0 x) eqn:E.
  - apply Qle_bool_iff in E. lra.
  - split; [|apply Qle_ceiling].
    pose proof (Qceiling_lt x) as H.
    unfold Z.sub in H. rewrite inject_Z_plus, inject_Z_opp in H.
    change (inject_Z 1) with 1 in H. lra.
Qed.

Lemma Qtrunc_sign_nonneg (x : Q) : 0 <= x -> 0 <= inject_Z (Qtrunc x).
Proof.
  intros Hx. destruct (Qtrunc_nonneg x Hx) as [_ Hu].
  assert (H : inject_Z (-1) < inject_Z (Qtrunc x)).
  { change (inject_Z (-1)) with (-(1)). lra. }
  rewrite <- Zlt_Qlt in H.
  change 0 with (inject_Z 0). rewrite <- Zle_Qle. lia.
Qed.

Lemma Qtrunc_sign_neg (x : Q) : x < 0 -> inject_Z (Qtrunc x) <= 0.
Proof.
  intros Hx. destruct (Qtrunc_neg x Hx) as [Hl _].
  assert (H : inject_Z (Qtrunc x) < inject_Z 1).
  { change (inject_Z 1) with 1. lra. }
  rewrite <- Zlt_Qlt in H.
  change 0 with (inject_Z 0). rewrite <- Zle_Qle. lia.
Qed.

(** [a % 360] differs from [a] by a whole number of turns. *)
Lemma js_rem_turns (a : Q) :
  js_rem a 360 == a - 360 * inject_Z (Qtrunc (a / 360)).
Proof. reflexivity. Qed.

Lemma js_rem_nonneg (a : Q) :
  0 <= a -> 0 <= js_rem a 360 /\ js_rem a 360 < 360.
Proof.
  intros Ha. unfold js_rem.
  assert (Hq : a == 360 * (a / 360)) by (field).
  assert (H0 : 0 <= a / 360) by lra.
  destruct (Qtrunc_nonneg _ H0) as [Hl Hu].
  split; lra.
Qed.

Lemma js_rem_nonpos (a : Q) :
  a <= 0 -> - (360) < js_rem a 360 /\ js_rem a 360 <= 0.
Proof.
  intros Ha. unfold js_rem.
  assert (Hq : a == 360 * (a / 360)) by (field).
  destruct (Qlt_le_dec (a / 360) 0) as [Hn|Hp].
  - destruct (Qtrunc_neg _ Hn) as [Hl Hu]. split; lra.
  - destruct (Qtrunc_nonneg _ Hp) as [Hl Hu].
    pose proof (Qtrunc_sign_nonneg _ Hp). split; lra.
Qed.

Lemma js_rem_range (a : Q) : - (360) < js_rem a 360 /\ js_rem a 360 < 360.
Proof.
  destruct (Qlt_le_dec a 0) as [Hn|Hp].
  - destruct (js_rem_nonpos a) as [H1 H2]; lra.
  - destruct (js_rem_nonneg a Hp) as [H1 H2]; lra.
Qed.

Lemma js_rem_le (a : Q) : 0 <= a -> js_rem a 360 <= a.
Proof.
  intros Ha. unfold js_rem.
  assert (H0 : 0 <= a / 360).
  { assert (Hq : a == 360 * (a / 360)) by field. lra. }
  pose proof (Qtrunc_sign_nonneg _ H0). lra.
Qed.

End RemainderFacts.

Section ResidueFacts.

Lemma Qfloor_eq (x : Q) (z : Z) :
  inject_Z z <= x -> x < inject_Z z + 1 -> Qfloor x = z.
Proof.
  intros Hl Hu.
  pose proof (Qfloor_le x) as Fl.
  pose proof (Qlt_floor x) as Fu. rewrite inject_Z_plus in Fu.
  change (inject_Z 1) with 1 in Fu.
  assert (A : inject_Z (Qfloor x) < inject_Z (z + 1)).
  { rewrite inject_Z_plus. change (inject_Z 1) with 1. lra. }
  assert (B : inject_Z z < inject_Z (Qfloor x + 1)).
  { rewrite inject_Z_plus. change (inject_Z 1) with 1. lra. }
  rewrite <- Zlt_Qlt in A, B. lia.
Qed.

Lemma mod360_range (x : Q) : 0 <= mod360 x /\ mod360 x < 360.
Proof.
  unfold mod360.
  assert (Hq : x == 360 * (x / 360)) by field.
  pose proof (Qfloor_le (x / 360)) as Fl.
  pose proof (Qlt_floor (x / 360)) as Fu. rewrite inject_Z_plus in Fu.
  change (inject_Z 1) with 1 in Fu.
  split; lra.
Qed.

Lemma mod360_unique (x r : Q) (k : Z) :
  0 <= r -> r < 360 -> x == r + 360 * inject_Z k -> mod360 x == r.
Proof.
  intros H0 H1 E. unfold mod360.
  assert (Hq : x == 360 * (x / 360)) by field.
  assert (F : Qfloor (x / 360) = k) by (apply Qfloor_eq; lra).
  rewrite F. lra.
Qed.

Lemma mod360_turns (x : Q) : same_orientation x (mod360 x).
Proof. exists (Qfloor (x / 360)). unfold mod360. lra. Qed.

Lemma mod360_congr (x y : Q) :
  same_orientation x y -> mod360 x == mod360 y.
Proof.
  intros [k E].
  destruct (mod360_range y) as [H0 H1].
  destruct (mod360_turns y) as [j Ej].
  apply mod360_unique with (k := (j + k)%Z); trivial.
  rewrite inject_Z_plus. lra.
Qed.

(** On a non-negative dividend [%] is the mathematical residue. *)
Lemma js_rem_mod360 (a : Q) : 0 <= a -> js_rem a 360 == mod360 a.
Proof.
  intros Ha. symmetry.
  destruct (js_rem_nonneg a Ha) as [H0 H1].
  apply mod360_unique with (k := Qtrunc (a / 360)); trivial.
  unfold js_rem. lra.
Qed.

(** The idiom [((x % 360) + 360) % 360] is the residue for every [x]. *)
Lemma js_norm_range (x : Q) :
  0 <= js_rem (js_rem x 360 + 360) 360 /\
  js_rem (js_rem x 360 + 360) 360 < 360.
Proof.
  destruct (js_rem_range x) as [Hl Hu].
  apply js_rem_nonneg. lra.
Qed.

Lemma js_norm_turns (x : Q) :
  same_orientation (js_rem (js_rem x 360 + 360) 360) x.
Proof.
  exists (1 - Qtrunc (x / 360) - Qtrunc ((js_rem x 360 + 360) / 360))%Z.
  unfold Z.sub. rewrite !inject_Z_plus, !inject_Z_opp.
  change (inject_Z 1) with 1.
  rewrite (js_rem_turns (js_rem x 360 + 360)).
  rewrite (js_rem_turns x) at 1. lra.
Qed.

Lemma js_norm_mod360 (x : Q) :
  js_rem (js_rem x 360 + 360) 360 == mod360 x.
Proof.
  symmetry.
  destruct (js_norm_range x) as [H0 H1].
  destruct (js_norm_turns x) as [k E].
  apply mod360_unique with (k := (- k)%Z); trivial.
  rewrite inject_Z_opp. lra.
Qed.

End ResidueFacts.

(** [%] keeps the sign of the dividend; the double-remainder idiom of
    [spinTo] repairs it. *)
Example js_rem_negative : js_rem (-(30)) 360 == -(30).
Proof. vm_compute. reflexivity. Qed.

Example js_rem_beyond_turn : js_rem 725 360 == 5.
Proof. vm_compute. reflexivity. Qed.

Example js_norm_negative : js_rem (js_rem (-(30)) 360 + 360) 360 == 330.
Proof. vm_compute. reflexivity. Qed.

(** ** Facts about [findIndex] *)

Section FindIndex.

Variable pred : WheelItem -> bool.

Lemma findIndex_from_range (l : list WheelItem) (i : Z) :
  (0 <= i)%Z ->
  findIndex_from pred l i = (-1)%Z \/
  (i <= findIndex_from pred l i < i + Z.of_nat (List.length l))%Z.
Proof.
  revert i. induction l as [|it rest IH]; intros i Hi; simpl.
  - now left.
  - destruct (pred it).
    + right. lia.
    + destruct (IH (i + 1)%Z) as [E|R]; [lia|now left|right; lia].
Qed.

Lemma findIndex_from_absent (l : list WheelItem) (i : Z) :
  (forall it, In it l -> pred it = false) ->
  findIndex_from pred l i = (-1)%Z.
Proof.
  revert i. induction l as [|it rest IH]; intros i H; simpl; trivial.
  rewrite (H it) by now left.
  apply IH. intros x Hx. apply H. now right.
Qed.

Lemma findIndex_from_found (l : list WheelItem) (i : Z) (n : nat) :
  (0 <= i)%Z ->
  findIndex_from pred l i = (i + Z.of_nat n)%Z ->
  exists it, nth_error l n = Some it /\ pred it = true.
Proof.
  revert i n. induction l as [|it rest IH]; intros i n Hi E; simpl in E.
  - lia.
  - destruct (pred it) eqn:P.
    + assert (n = 0%nat) by lia. subst n. exists it. now split.
    + destruct n as [|n].
      * destruct (findIndex_from_range rest (i + 1)%Z) as [F|F]; lia.
      * simpl. apply (IH (i + 1)%Z); lia.
Qed.

Lemma findIndex_from_first (l : list WheelItem) (i : Z) (n : nat) (it : WheelItem) :
  nth_error l n = Some it -> pred it = true ->
  (forall m x, (m < n)%nat -> nth_error l m = Some x -> pred x = false) ->
  findIndex_from pred l i = (i + Z.of_nat n)%Z.
Proof.
  revert i n. induction l as [|a rest IH]; intros i n Hn Hp Hfirst.
  - destruct n; discriminate.
  - destruct n as [|n]; simpl in *.
    + injection Hn as ->. rewrite Hp. lia.
    + rewrite (Hfirst 0%nat a) by (trivial; lia).
      rewrite (IH (i + 1)%Z n); trivial; [lia|].
      intros m x Hm Hx. apply (Hfirst (S m) x); [lia|exact Hx].
Qed.

End FindIndex.

Lemma findIndex_unknown (winnerId : string) (its : list WheelItem) :
  ~ In winnerId (map id its) -> findIndex (has_id winnerId) its = (-1)%Z.
Proof.
  intros H. apply findIndex_from_absent. intros it Hit.
  unfold has_id. apply String.eqb_neq. intros E. apply H.
  rewrite <- E. now apply in_map.
Qed.

Lemma findIndex_known (winnerId : string) (its : list WheelItem) (i : nat) :
  findIndex (has_id winnerId) its = Z.of_nat i ->
  exists it, nth_error its i = Some it /\ id it = winnerId.
Proof.
  intros E.
  destruct (findIndex_from_found (has_id winnerId) its 0 i) as [it [Hn Hp]];
    [lia|exact E|].
  exists it. split; trivial. now apply String.eqb_eq.
Qed.

(** With pairwise distinct ids (they are React keys) the index found is
    the index of the item. *)
Lemma findIndex_unique_ids (its : list WheelItem) (i : nat) (it : WheelItem) :
  NoDup (map id its) -> nth_error its i = Some it ->
  findIndex (has_id (id it)) its = Z.of_nat i.
Proof.
  intros ND Hn. unfold findIndex.
  rewrite (findIndex_from_first (has_id (id it)) its 0 i it); trivial.
  - unfold has_id. apply String.eqb_refl.
  - intros m x Hm Hx. unfold has_id. apply String.eqb_neq. intros E.
    assert (Hlen : (i < List.length (map id its))%nat).
    { rewrite length_map. apply nth_error_Some. congruence. }
    assert (Hi : nth_error (map id its) i = Some (id it))
      by (rewrite nth_error_map, Hn; reflexivity).
    assert (Hm' : nth_error (map id its) m = Some (id it))
      by (rewrite nth_error_map, Hx; simpl; congruence).
    pose proof (proj1 (NoDup_nth_error (map id its)) ND m i) as U.
    assert (m = i); [|lia].
    apply U; [|congruence].
    apply nth_error_Some. congruence.
Qed.

(** ** Facts about the rotation arithmetic *)

Section RotationMath.

Variable its : list WheelItem.
Variables (idx sp : Z) (rot : Q).


Lemma deltaForward_lower : inject_Z sp * 360 <= deltaForward its idx rot sp.
Proof.
  unfold deltaForward.
  destruct (js_norm_range (targetAbs its idx sp - current rot)). lra.
Qed.

End RotationMath.

(** ** Facts about the handle *)

Lemma findIndex_nil (pred : WheelItem -> bool) : findIndex pred [] = (-1)%Z.
Proof. reflexivity. Qed.

Lemma spinTo_known (p : Props) (winnerId : string) (opts : option SpinOpts)
    (w : World) :
  findIndex (has_id winnerId) (items p) <> (-1)%Z ->
  spinTo p winnerId opts w
  = requestAnimationFrame (scheduled p winnerId opts w) (setSpinning true w).
Proof.
  intros H. unfold spinTo, scheduled.
  destruct (items p) as [|it rest] eqn:E.
  - now rewrite findIndex_nil in H.
  - simpl List.length. simpl Nat.eqb. cbv iota.
    apply Z.eqb_neq in H. now rewrite H.
Qed.

Lemma spinTo_ignored (p : Props) (winnerId : string) (opts : option SpinOpts)
    (w : World) :
  findIndex (has_id winnerId) (items p) = (-1)%Z ->
  spinTo p winnerId opts w = w.
Proof.
  intros H. unfold spinTo. rewrite H.
  now destruct (List.length (items p) =? 0)%nat.
Qed.

(** C5. [spinTo] on an empty item list, or with an id that no item
    carries, returns the world unchanged: rotation, phase, selection,
    the frame queue and the listeners are as before, so whatever happens
    next happens as if the call had not been made. *)
Theorem spinTo_bad_target_noop (p : Props) (winnerId : string)
    (opts : option SpinOpts) (w : World) :
  items p = [] \/ ~ In winnerId (map id (items p)) ->
  spinTo p winnerId opts w = w /\
  phase (spinTo p winnerId opts w) = phase w /\
  rotation (spinTo p winnerId opts w) = rotation w /\
  selectedId (spinTo p winnerId opts w) = selectedId w /\
  rafQueue (spinTo p winnerId opts w) = rafQueue w /\
  forall es, run w (SpinTo p winnerId opts :: es) = run w es.
Proof.
  intros H.
  assert (E : spinTo p winnerId opts w = w).
  { apply spinTo_ignored. destruct H as [H|H].
    - rewrite H. reflexivity.
    - now apply findIndex_unknown. }
  rewrite E. repeat split. intros es. simpl. now rewrite E.
Qed.

(** C8. [reset] is idempotent and lands, from any world, on rotation 0,
    phase Idle and no selection. *)
Theorem reset_idempotent (w : World) :
  reset (reset w) = reset w /\
  rotation (reset w) = 0 /\
  phase (reset w) = Idle /\
  selectedId (reset w) = None.
Proof.
  destruct w as [r s sel [d|] q c k]; repeat split.
Qed.

(** ** A spin that runs to completion *)

Section LoneSpin.

Variables (p : Props) (winnerId : string) (opts : option SpinOpts).
Variable w : World.
Hypothesis Hquiet : quiescent w = true.
Hypothesis Hknown : findIndex (has_id winnerId) (items p) <> (-1)%Z.

Let cb := scheduled p winnerId opts w.

Lemma lone_spin_frame :
  animationFrame (spinTo p winnerId opts w) = turning cb w.
Proof.
  rewrite spinTo_known by exact Hknown. fold cb.
  destruct w as [r s sel [d|] q c k]; unfold quiescent in Hquiet;
    simpl in Hquiet; [|destruct q; discriminate].
  destruct q; [|discriminate]. destruct d as [t [|l ls]]; [|discriminate].
  reflexivity.
Qed.

Lemma lone_spin_end :
  transitionEnd (turning cb w) = settled cb w.
Proof.
  unfold transitionEnd, turning; simpl.
  unfold dispatch, registered; simpl. rewrite Nat.eqb_refl; simpl.
  unfold onEnd, removeEventListener; simpl. rewrite Nat.eqb_refl; simpl.
  unfold callOnDone, settled; simpl. now destruct (onDone p).
Qed.

Lemma lone_spin_settled_quiescent : quiescent (settled cb w) = true.
Proof. reflexivity. Qed.

Lemma lone_spin_rotation : rotation (settled cb w) == f_nextRotation cb.
Proof. simpl. lra. Qed.

End LoneSpin.

Lemma quiescent_animationFrame (w : World) :
  quiescent w = true -> animationFrame w = w.
Proof.
  destruct w as [r s sel d q c k]; unfold quiescent; simpl.
  destruct q; [reflexivity|discriminate].
Qed.

Lemma quiescent_transitionEnd (w : World) :
  quiescent w = true -> transitionEnd w = w.
Proof.
  destruct w as [r s sel [d|] q c k]; unfold quiescent, transitionEnd; simpl;
    [|reflexivity].
  destruct q; [|discriminate]. destruct d as [t [|l ls]]; [|discriminate].
  reflexivity.
Qed.

Lemma quiescent_browser_events (w : World) (es : list Event) :
  quiescent w = true -> forallb browser_event es = true -> run w es = w.
Proof.
  intros Q. induction es as [|e es IH]; simpl; intros H; trivial.
  apply andb_prop in H as [He Hes].
  destruct e; try discriminate; simpl.
  - rewrite quiescent_animationFrame by exact Q. now apply IH.
  - rewrite quiescent_transitionEnd by exact Q. now apply IH.
Qed.

(** The lone spin.  A [spinTo] with a known target on a wheel where no
    frame callback or listener of another spin is left, followed by its
    animation frame and its [transitionend]:
    the phase is Spinning until the end, [onDone] is called exactly once,
    with the requested id, and at the end the phase is Settled with
    [selectedId] the requested id.  The listener is gone afterwards, so
    further frames or [transitionend] events call nothing. *)
Theorem spin_completes_once (p : Props) (winnerId : string)
    (opts : option SpinOpts) (w : World) :
  quiescent w = true ->
  findIndex (has_id winnerId) (items p) <> (-1)%Z ->
  onDone p = true ->
  let w1 := step w (SpinTo p winnerId opts) in
  let w2 := step w1 AnimationFrame in
  let w3 := step w2 TransitionEnd in
  items p <> [] /\
  phase w1 = Spinning /\ doneCalls w1 = doneCalls w /\
  phase w2 = Spinning /\ doneCalls w2 = doneCalls w /\
  doneCalls w3 = (doneCalls w ++ [winnerId])%list /\
  phase w3 = Settled /\
  selectedId w3 = Some winnerId /\
  forall es, forallb browser_event es = true ->
             doneCalls (run w3 es) = (doneCalls w ++ [winnerId])%list.
Proof.
  intros Q K D w1 w2 w3.
  assert (E2 : w2 = turning (scheduled p winnerId opts w) w)
    by (apply lone_spin_frame; assumption).
  assert (E3 : w3 = settled (scheduled p winnerId opts w) w).
  { unfold w3. rewrite E2. apply lone_spin_end. }
  assert (C3 : doneCalls w3 = (doneCalls w ++ [winnerId])%list).
  { rewrite E3. simpl. now rewrite D. }
  split. { intros E. apply K. now rewrite E. }
  split. { unfold w1; simpl. now rewrite spinTo_known. }
  split. { unfold w1; simpl. now rewrite spinTo_known. }
  split. { now rewrite E2. }
  split. { now rewrite E2. }
  split. { exact C3. }
  split. { now rewrite E3. }
  split. { now rewrite E3. }
  intros es Hes. rewrite quiescent_browser_events; trivial.
  now rewrite E3.
Qed.

(** ** Rotation never goes negative *)

Section NonNegative.














End NonNegative.


(** ** The scenario of the draw page *)

(** C7. Items [A, B, C, D], rotation 0, target [C] (index 2, slice
    middle 225), six spins: the delta is [6 * 360 + 135 = 2295], where
    135 is [(360 - 225) mod 360], and once the spin has settled
    [selectedId] is [C]. *)
Theorem scenario_abcd_target_C :
  let w := run mounted [SpinTo room "C" drawOpts; AnimationFrame; TransitionEnd] in
  sliceAngle abcd == 90 /\
  rotation mounted == 0 /\
  findIndex (has_id "C") abcd = 2%Z /\
  winnerAngle abcd 2 == 225 /\
  mod360 (360 - 225) == 135 /\
  deltaForward abcd 2 (rotation mounted) (spinsOf drawOpts) == 6 * 360 + 135 /\
  deltaForward abcd 2 (rotation mounted) (spinsOf drawOpts) == 2295 /\
  map f_nextRotation (rafQueue (spinTo room "C" drawOpts mounted))
    = [rotation mounted + deltaForward abcd 2 (rotation mounted) 6] /\
  phase w = Settled /\
  selectedId w = Some "C"%string /\
  doneCalls w = ["C"%string].
Proof.
  repeat split; vm_compute; reflexivity.
Qed.

(** ** Reset and re-entrant calls *)

(** [reset] touches neither the frame queue nor the registered
    listeners. *)
Lemma reset_keeps_pending (w : World) :
  rafQueue (reset w) = rafQueue w /\
  option_map listeners (wheelRef (reset w)) = option_map listeners (wheelRef w).
Proof. destruct w as [r s sel [d|] q c k]; split; reflexivity. Qed.

(** C3, on the code. [reset] during a spin gives rotation 0, phase Idle
    and no selection, but the listener of the interrupted spin stays
    registered and its frame callback stays queued: the next
    [transitionend] runs it.  Spin to [C], frame, [reset], spin to [A],
    frame, [transitionend]: [onDone] is called with [C] and then with
    [A].  Delivered right after the reset, [transitionend] selects [C]
    and calls [onDone "C"]; so does a frame that runs after a reset made
    before it. *)
Theorem reset_leaves_completion_pending :
  let spun := run mounted [SpinTo room "C" drawOpts; AnimationFrame] in
  let w := step spun Reset in
  let early := step (step mounted (SpinTo room "C" drawOpts)) Reset in
  phase spun = Spinning /\
  rotation w = 0 /\ phase w = Idle /\ selectedId w = None /\
  doneCalls w = [] /\
  option_map (fun d => List.length (listeners d)) (wheelRef w) = Some 1%nat /\
  doneCalls (run w [SpinTo room "A" drawOpts; AnimationFrame; TransitionEnd])
    = ["C"%string; "A"%string] /\
  doneCalls (step w TransitionEnd) = ["C"%string] /\
  selectedId (step w TransitionEnd) = Some "C"%string /\
  phase (step mounted (SpinTo room "C" drawOpts)) = Spinning /\
  phase early = Idle /\
  doneCalls (run early [AnimationFrame; TransitionEnd]) = ["C"%string] /\
  selectedId (run early [AnimationFrame; TransitionEnd]) = Some "C"%string.
Proof.
  repeat split; vm_compute; reflexivity.
Qed.

(** C4, as stated, fails: while the spin to [C] is in flight a [spinTo]
    for [A] is not ignored.  It queues a second frame callback, which
    moves the rotation from 2295 to 4635, and both completions fire. *)
Lemma spinTo_while_spinning_not_ignored :
  let w := run mounted [SpinTo room "C" drawOpts; AnimationFrame] in
  let w' := step w (SpinTo room "A" drawOpts) in
  phase w = Spinning /\
  w' <> w /\
  List.length (rafQueue w') = 1%nat /\
  rotation w == 2295 /\
  rotation (step w' AnimationFrame) == 4635 /\
  ~ rotation (step w' AnimationFrame) == rotation w /\
  doneCalls (run w' [AnimationFrame; TransitionEnd])
    = ["C"%string; "A"%string].
Proof.
  repeat split; try (vm_compute; reflexivity).
  - intros E. apply (f_equal (fun v => List.length (rafQueue v))) in E.
    vm_compute in E. discriminate E.
  - intros E. vm_compute in E. discriminate E.
Qed.

(** C4, as the code has it. A [spinTo] with a known target received
    while the phase is Spinning leaves rotation, phase, selection, the
    wheel element and the [onDone] log as they are at that moment, and
    queues one more frame callback whose target is computed from the
    current rotation: the wheel itself does not refuse the call. *)
Theorem spinTo_while_spinning (p : Props) (winnerId : string)
    (opts : option SpinOpts) (w : World) :
  phase w = Spinning ->
  findIndex (has_id winnerId) (items p) <> (-1)%Z ->
  let w' := spinTo p winnerId opts w in
  rotation w' = rotation w /\
  phase w' = Spinning /\
  selectedId w' = selectedId w /\
  wheelRef w' = wheelRef w /\
  doneCalls w' = doneCalls w /\
  rafQueue w' = (rafQueue w ++ [scheduled p winnerId opts w])%list /\
  f_nextRotation (scheduled p winnerId opts w)
    = rotation w
      + deltaForward (items p) (findIndex (has_id winnerId) (items p))
                     (rotation w) (spinsOf opts) /\
  w' <> w.
Proof.
  intros S K w'. unfold w'. rewrite spinTo_known by exact K.
  repeat split.
  intros E. apply (f_equal (fun v => List.length (rafQueue v))) in E.
  simpl in E. rewrite length_app in E. simpl in E. lia.
Qed.



(** *** The rotation grows without bound *)

Lemma draws_grow (n : nat) (w : World) :
  quiescent w = true ->
  rotation w + 2160 * inject_Z (Z.of_nat n) <= rotation (run w (draws n)).
Proof.
  revert w. induction n as [|n IH]; intros w Q.
  - change (inject_Z (Z.of_nat 0)) with 0. change (run w (draws 0)) with w.
    lra.
  - assert (K : findIndex (has_id "C") (items room) <> (-1)%Z)
      by (vm_compute; discriminate).
    change (run w (draws (S n)))
      with (run (transitionEnd (animationFrame
                                  (spinTo room "C" drawOpts w))) (draws n)).
    rewrite lone_spin_frame, lone_spin_end by assumption.
    pose proof (IH _ (lone_spin_settled_quiescent room "C" drawOpts w)) as G.
    set (v := settled (scheduled room "C" drawOpts w) w) in *.
    set (delta := deltaForward (items room)
                    (findIndex (has_id "C") (items room)) (rotation w)
                    (spinsOf drawOpts)).
    assert (R : rotation v == rotation w + delta)
      by exact (lone_spin_rotation room "C" drawOpts w).
    assert (L : 6 * 360 <= delta)
      by exact (deltaForward_lower (items room)
                  (findIndex (has_id "C") (items room)) (spinsOf drawOpts)
                  (rotation w)).
    rewrite Nat2Z.inj_succ. unfold Z.succ. rewrite inject_Z_plus.
    change (inject_Z 1) with 1.
    lra.
Qed.

(** No bound holds for the settled rotation. *)
Lemma rotation_unbounded (B : Q) :
  exists n : nat,
    phase (run mounted (draws (S n))) = Settled /\
    B < rotation (run mounted (draws (S n))).
Proof.
  exists (Z.to_nat (Z.max 0 (Qfloor B + 1))). split.
  - remember (Z.to_nat (Z.max 0 (Qfloor B + 1))) as n eqn:En. clear En.
    assert (G : forall m w, quiescent w = true ->
                  quiescent (run w (draws m)) = true /\
                  (m <> O -> phase (run w (draws m)) = Settled)).
    { induction m as [|m IH]; intros w Q.
      - split; [exact Q|congruence].
      - assert (K : findIndex (has_id "C") (items room) <> (-1)%Z)
          by (vm_compute; discriminate).
        change (run w (draws (S m)))
          with (run (transitionEnd (animationFrame
                                      (spinTo room "C" drawOpts w))) (draws m)).
        rewrite lone_spin_frame, lone_spin_end by assumption.
        destruct (IH _ (lone_spin_settled_quiescent room "C" drawOpts w))
          as [Q' P'].
        split; [exact Q'|]. intros _. destruct m; [reflexivity|].
        apply P'. congruence. }
    apply (G (S n) mounted); [reflexivity|congruence].
  - pose proof (draws_grow (S (Z.to_nat (Z.max 0 (Qfloor B + 1)))) mounted
                  eq_refl) as G.
    rewrite Nat2Z.inj_succ, Z2Nat.id in G by lia.
    unfold Z.succ in G. rewrite inject_Z_plus in G.
    change (inject_Z 1) with 1 in G. change (rotation mounted) with 0 in G.
    pose proof (Qlt_floor B) as F.
    assert (M : inject_Z (Qfloor B + 1) <= inject_Z (Z.max 0 (Qfloor B + 1)))
      by (rewrite <- Zle_Qle; lia).
    assert (P : 0 <= inject_Z (Z.max 0 (Qfloor B + 1))).
    { change 0 with (inject_Z 0). rewrite <- Zle_Qle. lia. }
    lra.
Qed.

(** ** Instances *)

Lemma spinTo_bad_target_noop_witness :
  (items room = [] \/ ~ In "E"%string (map id (items room))) /\
  spinTo room "E" drawOpts mounted = mounted /\
  (items {| items := []; onDone := true |} = [] \/
   ~ In "A"%string (map id (items {| items := []; onDone := true |}))) /\
  spinTo {| items := []; onDone := true |} "A" drawOpts mounted = mounted.
Proof.
  assert (H1 : items room = [] \/ ~ In "E"%string (map id (items room))).
  { right. simpl. intros [E|[E|[E|[E|E]]]]; try discriminate E. exact E. }
  assert (H2 : items {| items := []; onDone := true |} = [] \/
               ~ In "A"%string
                    (map id (items {| items := []; onDone := true |})))
    by (left; reflexivity).
  split; [exact H1|]. split.
  - exact (proj1 (spinTo_bad_target_noop room "E" drawOpts mounted H1)).
  - split; [exact H2|].
    exact (proj1 (spinTo_bad_target_noop {| items := []; onDone := true |}
                    "A" drawOpts mounted H2)).
Defined.

Lemma spin_completes_once_witness :
  quiescent mounted = true /\
  findIndex (has_id "C") (items room) <> (-1)%Z /\
  onDone room = true /\
  doneCalls (step (step (step mounted (SpinTo room "C" drawOpts))
                        AnimationFrame) TransitionEnd)
  = (doneCalls mounted ++ ["C"%string])%list.
Proof.
  assert (H1 : quiescent mounted = true) by reflexivity.
  assert (H2 : findIndex (has_id "C") (items room) <> (-1)%Z)
    by (vm_compute; discriminate).
  assert (H3 : onDone room = true) by reflexivity.
  pose proof (spin_completes_once room "C" drawOpts mounted H1 H2 H3) as T.
  cbv zeta in T. destruct T as (_ & _ & _ & _ & _ & A & _).
  split; [exact H1|]. split; [exact H2|]. split; [exact H3|exact A].
Defined.


Lemma spinTo_while_spinning_witness :
  phase (run mounted [SpinTo room "C" drawOpts; AnimationFrame]) = Spinning /\
  findIndex (has_id "A") (items room) <> (-1)%Z /\
  spinTo room "A" drawOpts
         (run mounted [SpinTo room "C" drawOpts; AnimationFrame])
  <> run mounted [SpinTo room "C" drawOpts; AnimationFrame].
Proof.
  assert (H1 : phase (run mounted [SpinTo room "C" drawOpts; AnimationFrame])
               = Spinning) by reflexivity.
  assert (H2 : findIndex (has_id "A") (items room) <> (-1)%Z)
    by (vm_compute; discriminate).
  pose proof (spinTo_while_spinning room "A" drawOpts _ H1 H2) as T.
  cbv zeta in T. destruct T as (_ & _ & _ & _ & _ & _ & _ & A).
  split; [exact H1|]. split; [exact H2|exact A].
Defined.

(** * Further properties of the component *)

(** ** The rotation arithmetic in closed form *)



(** ** The drawing *)

Lemma mapi_from_length {A B : Type} (f : A -> nat -> B) (l : list A) (k : nat) :
  List.length (mapi_from f l k) = List.length l.
Proof.
  revert k. induction l as [|x rest IH]; intros k; simpl; trivial.
  now rewrite IH.
Qed.

Lemma mapi_from_nth {A B : Type} (f : A -> nat -> B) (l : list A) (k i : nat) :
  nth_error (mapi_from f l k) i
  = option_map (fun x => f x (k + i)%nat) (nth_error l i).
Proof.
  revert k i. induction l as [|x rest IH]; intros k i; destruct i; simpl;
    trivial.
  - now rewrite Nat.add_0_r.
  - rewrite IH. now rewrite Nat.add_succ_r.
Qed.

Lemma mapi_nth {A B : Type} (f : A -> nat -> B) (l : list A) (i : nat) :
  nth_error (mapi f l) i = option_map (fun x => f x i) (nth_error l i).
Proof. unfold mapi. now rewrite mapi_from_nth. Qed.

Lemma count_positive (its : list WheelItem) :
  (1 <= List.length its)%nat -> 0 < count its.
Proof.
  intros H. unfold count. change 0 with (inject_Z 0).
  rewrite <- Zlt_Qlt. lia.
Qed.

Lemma sliceAngle_nonempty (its : list WheelItem) :
  (1 <= List.length its)%nat -> sliceAngle its * count its == 360.
Proof.
  intros H. pose proof (count_positive its H) as P.
  unfold sliceAngle. destruct (0 <? List.length its)%nat eqn:E.
  - field. lra.
  - apply Nat.ltb_ge in E. lia.
Qed.

Lemma renderSlices_nth (its : list WheelItem) (selected : option string)
    (i : nat) (v : SliceView) :
  nth_error (renderSlices its selected) i = Some v ->
  exists it, nth_error its i = Some it /\ v = renderSlice its selected it i.
Proof.
  unfold renderSlices. rewrite mapi_nth.
  destruct (nth_error its i) as [it|]; [|discriminate].
  intros E. injection E as <-. now exists it.
Qed.

(** X4. The large-arc flag of a slice is ["1"] exactly when the wheel
    has a single item, whose slice is the whole circle; with two or
    more items every slice is drawn with flag ["0"]. *)
Theorem largeArc_only_single_item (its : list WheelItem)
    (selected : option string) (i : nat) (v : SliceView) :
  nth_error (renderSlices its selected) i = Some v ->
  (List.length its = 1%nat -> v_largeArc v = "1"%string) /\
  ((2 <= List.length its)%nat -> v_largeArc v = "0"%string).
Proof.
  intros Hv. destruct (renderSlices_nth _ _ _ _ Hv) as [it [Hi ->]].
  assert (HN : (1 <= List.length its)%nat).
  { assert (i < List.length its)%nat by (apply nth_error_Some; congruence).
    lia. }
  pose proof (sliceAngle_nonempty its HN) as SA.
  simpl. unfold largeArcFlag.
  destruct (Qle_bool _ 180) eqn:E; split; intros HL; trivial; exfalso.
  - apply Qle_bool_iff in E. unfold count in SA. rewrite HL in SA.
    change (inject_Z (Z.of_nat 1)) with 1 in SA. lra.
  - assert (L : ~ (inject_Z (Z.of_nat i) * sliceAngle its + sliceAngle its
                   - inject_Z (Z.of_nat i) * sliceAngle its <= 180)).
    { intros C. apply Qle_bool_iff in C. congruence. }
    apply L.
    assert (C2 : 2 <= count its).
    { unfold count. change 2 with (inject_Z 2). rewrite <- Zle_Qle. lia. }
    pose proof (count_positive its HN). nra.
Qed.

(** ** The status line *)

Lemma find_findIndex_from (pred : WheelItem -> bool) (l : list WheelItem)
    (k : Z) (i : nat) :
  (0 <= k)%Z -> findIndex_from pred l k = (k + Z.of_nat i)%Z ->
  List.find pred l = nth_error l i.
Proof.
  revert k i. induction l as [|x rest IH]; intros k i Hk E; simpl in *.
  - lia.
  - destruct (pred x) eqn:P.
    + assert (i = 0%nat) by lia. now subst i.
    + destruct i as [|i].
      * destruct (findIndex_from_range pred rest (k + 1)%Z) as [F|F]; lia.
      * simpl. apply (IH (k + 1)%Z); lia.
Qed.

(** X7. The status line of a lone spin: the spinning text from the call
    until the end; then the label of the item at the found index.  An
    empty id, though found and selected, reads as no selection: the
    line falls back to the ready text while the phase is Settled. *)
Theorem status_line_of_spin (p : Props) (winnerId : string)
    (opts : option SpinOpts) (w : World) (i : nat) (it : WheelItem) :
  quiescent w = true ->
  findIndex (has_id winnerId) (items p) = Z.of_nat i ->
  nth_error (items p) i = Some it ->
  let w1 := step w (SpinTo p winnerId opts) in
  let w2 := step w1 AnimationFrame in
  let w3 := step w2 TransitionEnd in
  statusText (items p) w1 = "Крутимо... Крутимо..."%string /\
  statusText (items p) w2 = "Крутимо... Крутимо..."%string /\
  (winnerId <> ""%string ->
   statusText (items p) w3 = ("Переможець: " ++ label it ++ "!")%string) /\
  (winnerId = ""%string ->
   statusText (items p) w3 = "Готово до спіну!"%string /\
   phase w3 = Settled).
Proof.
  intros Q Hidx Hit w1 w2 w3.
  assert (K : findIndex (has_id winnerId) (items p) <> (-1)%Z)
    by (rewrite Hidx; lia).
  assert (E2 : w2 = turning (scheduled p winnerId opts w) w)
    by (apply lone_spin_frame; assumption).
  assert (E3 : w3 = settled (scheduled p winnerId opts w) w).
  { unfold w3. rewrite E2. apply lone_spin_end. }
  assert (F : List.find (has_id winnerId) (items p) = Some it).
  { rewrite <- Hit. apply (find_findIndex_from _ _ 0%Z); [lia|exact Hidx]. }
  split. { unfold w1; simpl. now rewrite spinTo_known. }
  split. { now rewrite E2. }
  split.
  - intros Hne. rewrite E3. unfold statusText; simpl.
    unfold truthy. apply String.eqb_neq in Hne. rewrite Hne. simpl.
    unfold has_id in F. now rewrite F.
  - intros ->. rewrite E3. split; reflexivity.
Qed.

(** ** Lists *)

Lemma last_cons_default {A : Type} (a d : A) (l : list A) :
  last (a :: l) d = last l a.
Proof.
  revert a d. induction l as [|b l IH]; intros a d; trivial.
  change (last (a :: b :: l) d) with (last (b :: l) d).
  now rewrite (IH b d), (IH b a).
Qed.

(** ** One [transitionend] fires every listener once *)

Lemma filter_other_keys (k : nat) (ls : list Listener) :
  ~ In k (map l_key ls) ->
  filter (fun m => negb (Nat.eqb (l_key m) k)) ls = ls.
Proof.
  induction ls as [|l ls IH]; intros H; simpl; trivial.
  destruct (Nat.eqb (l_key l) k) eqn:E.
  - apply Nat.eqb_eq in E. exfalso. apply H. now left.
  - simpl. f_equal. apply IH. intros C. apply H. now right.
Qed.

Lemma onEnd_head (l : Listener) (rest : list Listener) (w : World)
    (t : Transition) :
  wheelRef w = Some {| transition := t; listeners := l :: rest |} ->
  ~ In (l_key l) (map l_key rest) ->
  dispatch l w
  = callOnDone (l_onDone l) (l_winnerId l)
      {| rotation := rotation w
                     + (js_rem (l_nextRotation l) 360
                        - js_rem (rotation w) 360);
         spinning := false;
         selectedId := Some (l_winnerId l);
         wheelRef := Some {| transition := TransitionNone;
                             listeners := rest |};
         rafQueue := rafQueue w;
         doneCalls := doneCalls w;
         nextKey := nextKey w |}.
Proof.
  intros M H. unfold dispatch, registered, onEnd. rewrite M. simpl.
  rewrite Nat.eqb_refl. simpl. unfold removeEventListener. simpl.
  rewrite Nat.eqb_refl. simpl. now rewrite filter_other_keys.
Qed.

Lemma dispatch_all (ls : list Listener) :
  forall (w : World) (t : Transition),
    wheelRef w = Some {| transition := t; listeners := ls |} ->
    NoDup (map l_key ls) ->
    let w' := fold_left (fun acc l => dispatch l acc) ls w in
    registeredListeners w' = [] /\
    doneCalls w'
    = (doneCalls w ++ map l_winnerId (filter l_onDone ls))%list /\
    selectedId w' = last (map (fun l => Some (l_winnerId l)) ls) (selectedId w) /\
    spinning w' = match ls with [] => spinning w | _ :: _ => false end /\
    rafQueue w' = rafQueue w /\
    nextKey w' = nextKey w.
Proof.
  induction ls as [|l rest IH]; intros w t M ND.
  - simpl. unfold registeredListeners. rewrite M. simpl.
    rewrite app_nil_r. now repeat split.
  - simpl map in ND. inversion ND as [|k ks Hnot ND']; subst.
    cbv zeta. simpl fold_left.
    rewrite (onEnd_head l rest w t M Hnot).
    set (v := callOnDone _ _ _).
    assert (Mv : wheelRef v = Some {| transition := TransitionNone;
                                      listeners := rest |})
      by (unfold v, callOnDone; destruct (l_onDone l); reflexivity).
    destruct (IH v TransitionNone Mv ND') as (A & B & C & D & F & G).
    split; [exact A|]. split.
    { rewrite B. unfold v, callOnDone. simpl filter.
      destruct (l_onDone l); simpl; [|reflexivity].
      now rewrite <- app_assoc. }
    split.
    { rewrite C. simpl map. rewrite last_cons_default.
      unfold v, callOnDone. now destruct (l_onDone l). }
    split.
    { rewrite D. unfold v, callOnDone.
      destruct rest; trivial. now destruct (l_onDone l). }
    split.
    { rewrite F. unfold v, callOnDone. now destruct (l_onDone l). }
    rewrite G. unfold v, callOnDone. now destruct (l_onDone l).
Qed.

Lemma NoDup_snoc {A : Type} (l : list A) (a : A) :
  NoDup l -> ~ In a l -> NoDup (l ++ [a]).
Proof.
  induction l as [|x l IH]; intros ND H; simpl.
  - constructor; [intros []|constructor].
  - inversion ND; subst. constructor.
    + intros C. apply in_app_or in C as [C|[C|[]]]; [contradiction|].
      subst. apply H. now left.
    + apply IH; trivial. intros C. apply H. now right.
Qed.

Section WellKeyed.

Lemma mounted_well_keyed : well_keyed mounted.
Proof. split; constructor. Qed.

Lemma spinTo_listeners (p : Props) (winnerId : string)
    (opts : option SpinOpts) (w : World) :
  registeredListeners (spinTo p winnerId opts w) = registeredListeners w /\
  nextKey (spinTo p winnerId opts w) = nextKey w.
Proof.
  unfold spinTo. destruct (List.length (items p) =? 0)%nat; [now split|].
  destruct (findIndex (has_id winnerId) (items p) =? -1)%Z; now split.
Qed.

Lemma reset_listeners (w : World) :
  registeredListeners (reset w) = registeredListeners w /\
  nextKey (reset w) = nextKey w.
Proof. destruct w as [r s sel [d|] q c k]; now split. Qed.

Lemma frameCallback_well_keyed (cb : FrameCallback) (w : World) :
  well_keyed w -> well_keyed (frameCallback cb w).
Proof.
  intros [ND B]. destruct w as [r s sel [d|] q c k];
    unfold well_keyed, registeredListeners, frameCallback in *; simpl in *;
    [|now split].
  split.
  - rewrite map_app. simpl. apply NoDup_snoc; trivial.
    intros C. apply in_map_iff in C as [l [E H]].
    rewrite Forall_forall in B. specialize (B l H). lia.
  - apply Forall_app. split.
    + eapply Forall_impl; [|exact B]. simpl. intros; lia.
    + constructor; [simpl; lia|constructor].
Qed.

Lemma frames_well_keyed (cbs : list FrameCallback) (w : World) :
  well_keyed w ->
  well_keyed (fold_left (fun acc cb => frameCallback cb acc) cbs w).
Proof.
  revert w. induction cbs as [|cb cbs IH]; intros w H; simpl; trivial.
  apply IH. now apply frameCallback_well_keyed.
Qed.

Lemma transitionEnd_fires_all (w : World) :
  well_keyed w ->
  let w' := transitionEnd w in
  registeredListeners w' = [] /\
  doneCalls w'
  = (doneCalls w
     ++ map l_winnerId (filter l_onDone (registeredListeners w)))%list /\
  selectedId w'
  = last (map (fun l => Some (l_winnerId l)) (registeredListeners w))
         (selectedId w) /\
  spinning w' = match registeredListeners w with
                | [] => spinning w
                | _ :: _ => false
                end /\
  rafQueue w' = rafQueue w /\
  nextKey w' = nextKey w.
Proof.
  intros [ND B]. unfold transitionEnd, registeredListeners in *.
  destruct (wheelRef w) as [[t ls]|] eqn:M.
  - simpl in *. now apply (dispatch_all ls w t).
  - cbv zeta. rewrite M. simpl. rewrite app_nil_r. now repeat split.
Qed.

Lemma step_well_keyed (w : World) (e : Event) :
  well_keyed w -> well_keyed (step w e).
Proof.
  intros H. destruct e; cbn [step].
  - destruct (spinTo_listeners p winnerId opts w) as [E1 E2].
    unfold well_keyed. now rewrite E1, E2.
  - destruct (reset_listeners w) as [E1 E2].
    unfold well_keyed. now rewrite E1, E2.
  - unfold animationFrame. apply frames_well_keyed.
    destruct w; exact H.
  - assert (A : registeredListeners (transitionEnd w) = [])
      by exact (proj1 (transitionEnd_fires_all w H)).
    unfold well_keyed. rewrite A. split; constructor.
Qed.

Lemma run_well_keyed (es : list Event) (w : World) :
  well_keyed w -> well_keyed (run w es).
Proof.
  revert w. induction es as [|e es IH]; intros w H; simpl; trivial.
  apply IH. now apply step_well_keyed.
Qed.

End WellKeyed.

(** X9. In every state the wheel can reach, one [transitionend] runs
    each registered [onEnd] exactly once, in registration order:
    [onDone] is called with their winners in that order, the last one
    decides the selection, spinning stops if there was a listener, and
    afterwards no listener is registered, so a second [transitionend]
    changes nothing. *)
Theorem transitionend_fires_each_listener_once (es : list Event) :
  let w := run mounted es in
  let w' := step w TransitionEnd in
  registeredListeners w' = [] /\
  doneCalls w'
  = (doneCalls w
     ++ map l_winnerId (filter l_onDone (registeredListeners w)))%list /\
  selectedId w'
  = last (map (fun l => Some (l_winnerId l)) (registeredListeners w))
         (selectedId w) /\
  (registeredListeners w <> [] -> spinning w' = false) /\
  step w' TransitionEnd = w'.
Proof.
  intros w w'.
  pose proof (run_well_keyed es mounted mounted_well_keyed) as WK.
  fold w in WK.
  destruct (transitionEnd_fires_all w WK) as (A & B & C & D & _).
  fold w' in A. change (transitionEnd w) with w' in B, C, D.
  split; [exact A|]. split; [exact B|]. split; [exact C|]. split.
  - intros H. rewrite D. destruct (registeredListeners w); congruence.
  - change (transitionEnd w' = w'). unfold transitionEnd.
    destruct (wheelRef w') as [[t ls]|] eqn:M; trivial.
    assert (L : ls = []).
    { unfold registeredListeners in A.
      change (transitionEnd w) with w' in A. now rewrite M in A. }
    now rewrite L.
Qed.

(** ** What the wheel reports was asked for *)

Lemma known_requests_cons (e : Event) (es : list Event) :
  known_requests (e :: es) = (known_requests [e] ++ known_requests es)%list.
Proof. unfold known_requests. simpl. now rewrite app_nil_r. Qed.

Section Provenance.

Lemma ids_within_mono (R R' : list string) (w : World) :
  incl R R' -> ids_within R w -> ids_within R' w.
Proof.
  intros I (A & B & C & D). repeat split; intros.
  - apply I. now apply A.
  - apply I. now apply B.
  - apply I. now apply C.
  - apply I. eapply D; eassumption.
Qed.

Lemma spinTo_ids (R : list string) (p : Props) (winnerId : string)
    (opts : option SpinOpts) (w : World) :
  ids_within R w ->
  ids_within (R ++ known_requests [SpinTo p winnerId opts])
             (spinTo p winnerId opts w).
Proof.
  intros H. simpl known_requests. rewrite app_nil_r.
  destruct (Z.eq_dec (findIndex (has_id winnerId) (items p)) (-1)) as [E|E].
  - rewrite spinTo_ignored by exact E.
    eapply ids_within_mono; [|exact H]. now apply incl_appl.
  - rewrite spinTo_known by exact E. apply Z.eqb_neq in E. rewrite E.
    destruct H as (A & B & C & D).
    unfold ids_within; simpl. repeat split; intros.
    + apply in_or_app. left. now apply A.
    + apply in_or_app. left. now apply B.
    + apply in_app_or in H as [H|[H|[]]].
      * apply in_or_app. left. now apply C.
      * subst cb. apply in_or_app. right. now left.
    + apply in_or_app. left. eapply D; eassumption.
Qed.

Lemma reset_ids (R : list string) (w : World) :
  ids_within R w -> ids_within R (reset w).
Proof.
  intros (A & B & C & D). destruct w as [r s sel [d|] q c k];
    unfold ids_within; simpl in *; repeat split; intros; auto;
    try discriminate.
  injection H as <-. simpl in H0. eapply D; [reflexivity|exact H0].
Qed.

Lemma frameCallback_ids (R : list string) (cb : FrameCallback) (w : World) :
  In (f_winnerId cb) R -> ids_within R w ->
  ids_within R (frameCallback cb w).
Proof.
  intros Hcb (A & B & C & D). destruct w as [r s sel [d|] q c k];
    unfold ids_within, frameCallback; simpl in *; repeat split; intros;
    auto; try discriminate.
  injection H as <-. simpl in H0. apply in_app_or in H0 as [H0|[H0|[]]].
  - eapply D; [reflexivity|exact H0].
  - now subst l.
Qed.

Lemma frames_ids (R : list string) (cbs : list FrameCallback) (w : World) :
  (forall cb, In cb cbs -> In (f_winnerId cb) R) -> ids_within R w ->
  ids_within R (fold_left (fun acc cb => frameCallback cb acc) cbs w).
Proof.
  revert w. induction cbs as [|cb cbs IH]; intros w Hc Hw; simpl; trivial.
  apply IH.
  - intros x Hx. apply Hc. now right.
  - apply frameCallback_ids; trivial. apply Hc. now left.
Qed.

Lemma animationFrame_ids (R : list string) (w : World) :
  ids_within R w -> ids_within R (animationFrame w).
Proof.
  intros (A & B & C & D). unfold animationFrame.
  apply frames_ids; trivial.
  unfold ids_within; simpl. repeat split; trivial. intros cb [].
Qed.

Lemma onEnd_ids (R : list string) (l : Listener) (w : World) :
  In (l_winnerId l) R -> ids_within R w -> ids_within R (onEnd l w).
Proof.
  intros Hl (A & B & C & D). unfold onEnd.
  destruct w as [r s sel [d|] q c k]; simpl in *; [|now repeat split].
  unfold callOnDone, ids_within.
  destruct (l_onDone l); simpl; repeat split; intros; auto.
  - apply in_app_or in H as [H|[H|[]]]; [now apply A|now subst x].
  - now injection H as <-.
  - injection H as <-. simpl in H0. apply filter_In in H0 as [H0 _].
    eapply D; [reflexivity|exact H0].
  - now injection H as <-.
  - injection H as <-. simpl in H0. apply filter_In in H0 as [H0 _].
    eapply D; [reflexivity|exact H0].
Qed.

Lemma listeners_ids (R : list string) (ls : list Listener) (w : World) :
  (forall l, In l ls -> In (l_winnerId l) R) -> ids_within R w ->
  ids_within R (fold_left (fun acc l => dispatch l acc) ls w).
Proof.
  revert w. induction ls as [|l ls IH]; intros w Hc Hw; simpl; trivial.
  apply IH.
  - intros x Hx. apply Hc. now right.
  - unfold dispatch. destruct (registered l w); trivial.
    apply onEnd_ids; trivial. apply Hc. now left.
Qed.

Lemma transitionEnd_ids (R : list string) (w : World) :
  ids_within R w -> ids_within R (transitionEnd w).
Proof.
  intros H. unfold transitionEnd.
  destruct (wheelRef w) as [d|] eqn:M; trivial.
  apply listeners_ids; trivial.
  destruct H as (_ & _ & _ & D). intros l Hl. eapply D; eassumption.
Qed.

Lemma run_ids (es : list Event) (R : list string) (w : World) :
  ids_within R w -> ids_within (R ++ known_requests es) (run w es).
Proof.
  revert R w. induction es as [|e es IH]; intros R w H.
  - simpl. now rewrite app_nil_r.
  - rewrite known_requests_cons.
    change (run w (e :: es)) with (run (step w e) es).
    assert (S : ids_within (R ++ known_requests [e]) (step w e)).
    { destruct e; cbn [step].
      - now apply spinTo_ids.
      - simpl. rewrite app_nil_r. now apply reset_ids.
      - simpl. rewrite app_nil_r. now apply animationFrame_ids.
      - simpl. rewrite app_nil_r. now apply transitionEnd_ids. }
    rewrite app_assoc. now apply IH.
Qed.

Lemma known_requests_asked (es : list Event) (x : string) :
  In x (known_requests es) ->
  exists p opts, In (SpinTo p x opts) es /\ In x (map id (items p)).
Proof.
  unfold known_requests. intros H. apply in_flat_map in H as [e [He Hx]].
  destruct e as [p winnerId opts| | |]; try contradiction.
  destruct (findIndex (has_id winnerId) (items p) =? -1)%Z eqn:E;
    [contradiction|].
  destruct Hx as [<-|[]]. exists p, opts. split; trivial.
  destruct (in_dec string_dec winnerId (map id (items p))) as [I|I]; trivial.
  apply findIndex_unknown in I. apply Z.eqb_neq in E. contradiction.
Qed.

End Provenance.

(** X10. Whatever the sequence of calls and browser events on a mounted
    wheel, every id [onDone] is called with, and the selected id if
    there is one, was the target of an earlier [spinTo] and was the id
    of an item of the list that call saw. *)
Theorem reported_ids_were_requested (es : list Event) (x : string) :
  In x (doneCalls (run mounted es)) \/ selectedId (run mounted es) = Some x ->
  exists p opts, In (SpinTo p x opts) es /\ In x (map id (items p)).
Proof.
  intros H. apply known_requests_asked.
  assert (I : ids_within ([] ++ known_requests es) (run mounted es)).
  { apply run_ids. unfold ids_within; simpl. repeat split; intros;
      try contradiction; try discriminate.
    injection H0 as <-. contradiction. }
  destruct I as (A & B & _). destruct H as [H|H]; [now apply A|now apply B].
Qed.

(** ** Completions never outnumber requests *)

Section Counting.

Lemma filter_registered_shrinks (k : nat) (ls : list Listener) :
  existsb (fun m => Nat.eqb (l_key m) k) ls = true ->
  (S (List.length (filter (fun m => negb (Nat.eqb (l_key m) k)) ls))
   <= List.length ls)%nat.
Proof.
  induction ls as [|l ls IH]; simpl; [discriminate|].
  destruct (Nat.eqb (l_key l) k) eqn:E; simpl.
  - intros _. pose proof (filter_length_le
                            (fun m => negb (Nat.eqb (l_key m) k)) ls). lia.
  - intros H. specialize (IH H). lia.
Qed.

Lemma spinTo_completions (p : Props) (winnerId : string)
    (opts : option SpinOpts) (w : World) :
  (completions (spinTo p winnerId opts w)
   <= completions w
      + List.length (known_requests [SpinTo p winnerId opts]))%nat.
Proof.
  simpl known_requests. rewrite app_nil_r.
  destruct (Z.eq_dec (findIndex (has_id winnerId) (items p)) (-1)) as [E|E].
  - rewrite spinTo_ignored by exact E. lia.
  - rewrite spinTo_known by exact E. apply Z.eqb_neq in E. rewrite E.
    unfold completions, registeredListeners. simpl.
    rewrite length_app. simpl. lia.
Qed.

Lemma reset_completions (w : World) : completions (reset w) = completions w.
Proof. destruct w as [r s sel [d|] q c k]; reflexivity. Qed.

Lemma frameCallback_completions (cb : FrameCallback) (w : World) :
  doneCalls (frameCallback cb w) = doneCalls w /\
  rafQueue (frameCallback cb w) = rafQueue w /\
  (List.length (registeredListeners (frameCallback cb w))
   <= S (List.length (registeredListeners w)))%nat.
Proof.
  destruct w as [r s sel [d|] q c k];
    unfold frameCallback, registeredListeners; simpl; repeat split;
    try lia.
  rewrite length_app. simpl. lia.
Qed.

Lemma frames_completions (cbs : list FrameCallback) (w : World) :
  let w' := fold_left (fun acc cb => frameCallback cb acc) cbs w in
  doneCalls w' = doneCalls w /\ rafQueue w' = rafQueue w /\
  (List.length (registeredListeners w')
   <= List.length (registeredListeners w) + List.length cbs)%nat.
Proof.
  revert w. induction cbs as [|cb cbs IH]; intros w.
  - simpl. repeat split. lia.
  - destruct (IH (frameCallback cb w)) as (A & B & C).
    destruct (frameCallback_completions cb w) as (A1 & B1 & C1).
    cbv zeta. simpl fold_left. simpl List.length.
    rewrite A, B, A1, B1. repeat split. lia.
Qed.

Lemma animationFrame_completions (w : World) :
  (completions (animationFrame w) <= completions w)%nat.
Proof.
  unfold animationFrame.
  destruct (frames_completions (rafQueue w) (setRafQueue [] w)) as (A & B & C).
  unfold completions. rewrite A, B.
  destruct w as [r s sel [d|] q c k]; unfold registeredListeners in *;
    simpl in *; lia.
Qed.

Lemma dispatch_completions (l : Listener) (w : World) :
  (completions (dispatch l w) <= completions w)%nat.
Proof.
  unfold dispatch. destruct (registered l w) eqn:E; [|lia].
  unfold registered in E. unfold onEnd.
  destruct w as [r s sel [d|] q c k]; simpl in *; [|discriminate].
  pose proof (filter_registered_shrinks _ _ E) as F.
  unfold callOnDone, completions, registeredListeners.
  destruct (l_onDone l); simpl; rewrite ?length_app; simpl; lia.
Qed.

Lemma listeners_completions (ls : list Listener) (w : World) :
  (completions (fold_left (fun acc l => dispatch l acc) ls w)
   <= completions w)%nat.
Proof.
  revert w. induction ls as [|l ls IH]; intros w; simpl; [lia|].
  pose proof (IH (dispatch l w)). pose proof (dispatch_completions l w). lia.
Qed.

Lemma step_completions (w : World) (e : Event) :
  (completions (step w e)
   <= completions w + List.length (known_requests [e]))%nat.
Proof.
  destruct e; cbn [step].
  - apply spinTo_completions.
  - rewrite reset_completions. lia.
  - pose proof (animationFrame_completions w). lia.
  - unfold transitionEnd. destruct (wheelRef w) as [d|]; [|lia].
    pose proof (listeners_completions (listeners d) w). lia.
Qed.

Lemma run_completions (es : list Event) (w : World) :
  (completions (run w es)
   <= completions w + List.length (known_requests es))%nat.
Proof.
  revert w. induction es as [|e es IH]; intros w.
  - simpl. lia.
  - rewrite known_requests_cons.
    change (run w (e :: es)) with (run (step w e) es).
    rewrite length_app.
    pose proof (IH (step w e)). pose proof (step_completions w e). lia.
Qed.

End Counting.

(** X11. However calls, resets and browser events interleave on a
    mounted wheel, the [onDone] calls made, the frame callbacks queued
    and the listeners registered together never outnumber the [spinTo]
    calls that found their target: no completion is reported without a
    request. *)
Theorem completions_bounded_by_requests (es : list Event) :
  let w := run mounted es in
  (List.length (doneCalls w) + List.length (rafQueue w)
   + List.length (registeredListeners w)
   <= List.length (known_requests es))%nat /\
  (List.length (doneCalls w) <= List.length (known_requests es))%nat.
Proof.
  intros w. pose proof (run_completions es mounted) as H.
  fold w in H. unfold completions in H. simpl in H. split; lia.
Qed.

(** ** The page and its wheel *)

Lemma pageItems_findIndex (ps : list Participant) (x : string)
    (q : Participant) (k : Z) :
  List.find (fun y => String.eqb (p_id y) x) ps = Some q ->
  exists i,
    nth_error ps i = Some q /\
    findIndex_from (has_id x)
      (map (fun y => {| id := p_id y; label := p_name y |}) ps) k
    = (k + Z.of_nat i)%Z.
Proof.
  revert k. induction ps as [|y ps IH]; intros k F; simpl in *;
    [discriminate|].
  unfold has_id at 1. simpl.
  destruct (String.eqb (p_id y) x) eqn:E.
  - injection F as <-. exists 0%nat. split; [reflexivity|simpl; lia].
  - destruct (IH (k + 1)%Z F) as [i [Hn Hf]].
    exists (S i). split; [exact Hn|]. rewrite Hf. lia.
Qed.

(** X13. The draw button guards the wheel. On a page whose button is
    enabled, [handleDraw] sends its request, clears winner and error
    and leaves the button disabled; the button stays disabled until the
    wheel reports done or the request fails, either of which enables it
    again.  With no room or no participant [handleDraw] does nothing. *)
Theorem draw_button_disabled_while_drawing (pg : Page) :
  (drawDisabled pg = false ->
   let pg1 := fst (handleDraw_start pg) in
   snd (handleDraw_start pg) = true /\
   drawDisabled pg1 = true /\
   st_winner pg1 = None /\ st_error pg1 = None /\
   st_room pg1 = st_room pg /\
   (forall seen winnerId,
       drawDisabled (handleWheelDone seen winnerId pg1) = false) /\
   (forall message,
       drawDisabled (handleDraw_rejected message pg1) = false /\
       st_error (handleDraw_rejected message pg1) <> None)) /\
  (roomParticipants (st_room pg) = [] ->
   handleDraw_start pg = (pg, false)).
Proof.
  unfold drawDisabled, handleDraw_start. split.
  - intros D. apply orb_false_iff in D as [L R].
    destruct (st_room pg) as [r|] eqn:Hr; [|discriminate].
    rewrite R. simpl. rewrite Hr, R. repeat split; discriminate.
  - intros E. destruct (st_room pg) as [r|]; trivial.
    simpl in E. now rewrite E.
Qed.

(** X14. What [loadRoom] shows as winner: after a successful load the
    page holds the loaded room, and a winner is set only when the draw
    is done, and then it is the first participant of that room whose id
    is the room's non-empty [winner_id]; while the draw is not done, or
    the id is missing, empty or names no participant, there is no
    winner. *)
Theorem loadRoom_winner_from_room (data : RoomState) (pg : Page) :
  let pg' := loadRoom_resolved data pg in
  st_room pg' = Some data /\
  st_loadingDraw pg' = st_loadingDraw pg /\
  (forall q, st_winner pg' = Some q ->
     is_draw_done data = true /\
     winner_id data = Some (p_id q) /\
     p_id q <> ""%string /\
     List.find (fun p => String.eqb (p_id p) (p_id q)) (participants data)
     = Some q /\
     In q (participants data)) /\
  (is_draw_done data = false -> st_winner pg' = None) /\
  (winner_id data = None \/ winner_id data = Some ""%string ->
   st_winner pg' = None) /\
  (forall wid, winner_id data = Some wid ->
     ~ In wid (map p_id (participants data)) -> st_winner pg' = None).
Proof.
  unfold loadRoom_resolved.
  destruct (is_draw_done data) eqn:Dn; destruct (winner_id data) as [wid|] eqn:Wn;
    try (simpl; repeat split; intros; try discriminate; trivial;
         destruct H; discriminate).
  unfold truthy. destruct (String.eqb wid "") eqn:Ew; simpl.
  - repeat split; intros; try discriminate; trivial.
  - repeat split; intros; try discriminate.
    + apply find_some in H as [_ H]. apply String.eqb_eq in H. now subst.
    + apply find_some in H as [_ H]. apply String.eqb_eq in H.
      apply String.eqb_neq in Ew. congruence.
    + pose proof (find_some _ _ H) as [_ H']. apply String.eqb_eq in H'.
      now rewrite H'.
    + now apply find_some in H.
    + destruct H as [H|H]; [discriminate|].
      injection H as ->. now rewrite String.eqb_refl in Ew.
    + injection H as <-.
      destruct (List.find (fun p => String.eqb (p_id p) wid)
                          (participants data)) as [q|] eqn:F; trivial.
      exfalso. apply H0. apply find_some in F as [I F].
      apply String.eqb_eq in F. rewrite <- F. now apply in_map.
Qed.

(** X15. A winner the page does not list: if the id the server names is
    carried by no participant of the room the page shows, the [spinTo]
    of [handleDraw] changes nothing, so with no spin in flight no frame
    or [transitionend] ever calls [onDone]; the page, whose button
    [handleDraw] has disabled, is never told that the draw is over. *)
Theorem draw_of_unlisted_winner_never_reports (pg : Page)
    (targetWinner : Participant) (w : World) :
  ~ In (p_id targetWinner) (map p_id (roomParticipants (st_room pg))) ->
  handleDraw_resolved targetWinner pg w = w /\
  (quiescent w = true ->
   forall es, forallb browser_event es = true ->
     run (handleDraw_resolved targetWinner pg w) es = w /\
     doneCalls (run (handleDraw_resolved targetWinner pg w) es)
     = doneCalls w) /\
  (drawDisabled pg = false ->
   drawDisabled (fst (handleDraw_start pg)) = true).
Proof.
  intros H.
  assert (E : handleDraw_resolved targetWinner pg w = w).
  { unfold handleDraw_resolved. apply spinTo_ignored.
    apply findIndex_unknown. unfold wheelProps, pageItems; simpl.
    now rewrite map_map. }
  split; [exact E|]. split.
  - intros Q es Hes. rewrite E.
    now rewrite quiescent_browser_events.
  - unfold drawDisabled, handleDraw_start. intros D.
    apply orb_false_iff in D as [L R].
    destruct (st_room pg) as [r|]; [|discriminate]. now rewrite R.
Qed.


(** ** Instances of the further properties *)

Lemma largeArc_only_single_item_witness :
  nth_error (renderSlices [participant "A"] None) 0
  = Some (renderSlice [participant "A"] None (participant "A") 0) /\
  v_largeArc (renderSlice [participant "A"] None (participant "A") 0)
  = "1"%string.
Proof.
  assert (H : nth_error (renderSlices [participant "A"] None) 0
              = Some (renderSlice [participant "A"] None (participant "A") 0))
    by reflexivity.
  split; [exact H|].
  exact (proj1 (largeArc_only_single_item [participant "A"] None 0 _ H)
               eq_refl).
Defined.

Lemma status_line_of_spin_witness :
  quiescent mounted = true /\
  findIndex (has_id "C") (items room) = Z.of_nat 2 /\
  nth_error (items room) 2 = Some (participant "C") /\
  statusText (items room)
    (step (step (step mounted (SpinTo room "C" drawOpts)) AnimationFrame)
          TransitionEnd)
  = ("Переможець: " ++ label (participant "C") ++ "!")%string.
Proof.
  assert (H1 : quiescent mounted = true) by reflexivity.
  assert (H2 : findIndex (has_id "C") (items room) = Z.of_nat 2)
    by reflexivity.
  assert (H3 : nth_error (items room) 2 = Some (participant "C"))
    by reflexivity.
  split; [exact H1|]. split; [exact H2|]. split; [exact H3|].
  pose proof (status_line_of_spin room "C" drawOpts mounted 2 _ H1 H2 H3)
    as T.
  cbv zeta in T. destruct T as (_ & _ & A & _). apply A. discriminate.
Defined.

Lemma reported_ids_were_requested_witness :
  (In "C"%string
      (doneCalls (run mounted [SpinTo room "C" drawOpts; AnimationFrame;
                               TransitionEnd]))
   \/ selectedId (run mounted [SpinTo room "C" drawOpts; AnimationFrame;
                               TransitionEnd]) = Some "C"%string) /\
  exists p opts,
    In (SpinTo p "C" opts)
       [SpinTo room "C" drawOpts; AnimationFrame; TransitionEnd] /\
    In "C"%string (map id (items p)).
Proof.
  assert (H : In "C"%string
                 (doneCalls (run mounted [SpinTo room "C" drawOpts;
                                          AnimationFrame; TransitionEnd]))
              \/ selectedId (run mounted [SpinTo room "C" drawOpts;
                                          AnimationFrame; TransitionEnd])
                 = Some "C"%string) by (right; reflexivity).
  split; [exact H|].
  exact (reported_ids_were_requested _ "C" H).
Defined.

Lemma draw_of_unlisted_winner_never_reports_witness :
  ~ In (p_id {| p_id := "E"; p_name := "Eve" |})
       (map p_id (roomParticipants (st_room readyPage))) /\
  handleDraw_resolved {| p_id := "E"; p_name := "Eve" |} readyPage mounted
  = mounted.
Proof.
  assert (H : ~ In (p_id {| p_id := "E"; p_name := "Eve" |})
                   (map p_id (roomParticipants (st_room readyPage)))).
  { simpl. intros [E|[E|[E|[E|E]]]]; try discriminate E. exact E. }
  split; [exact H|].
  exact (proj1 (draw_of_unlisted_winner_never_reports readyPage _ mounted H)).
Defined.


(** * The code's own arithmetic: binary64 *)

(** ** Rounding to nearest *)

Section Binary64Rounding.

Import Binary64.

Lemma pow2_pos e : 0 < pow2 e.
Proof. apply Qpower_0_lt. reflexivity. Qed.

Lemma pow2_add a b : pow2 (a + b) == pow2 a * pow2 b.
Proof. apply Qpower_plus. discriminate. Qed.

Lemma pow2_le a b : (a <= b)%Z -> pow2 a <= pow2 b.
Proof. intros H. apply Qpower_le_compat_l; trivial. discriminate. Qed.

Lemma pow2_lt a b : (a < b)%Z -> pow2 a < pow2 b.
Proof. intros H. apply Qpower_lt_compat_l; trivial. reflexivity. Qed.

Lemma pow2_Z e : (0 <= e)%Z -> pow2 e == inject_Z (2 ^ e).
Proof. intros H. unfold pow2. rewrite Zpower_Qpower by exact H. reflexivity. Qed.

Lemma pow2_succ a : pow2 (a + 1) == 2 * pow2 a.
Proof. rewrite pow2_add. change (pow2 1) with 2. lra. Qed.

Lemma pow2_pred a : pow2 (a - 1) * 2 == pow2 a.
Proof.
  replace a with ((a - 1) + 1)%Z at 2 by lia.
  rewrite pow2_add. change (pow2 1) with 2. reflexivity.
Qed.

Lemma Z_Q_le (a b : Z) : (a <= b)%Z -> inject_Z a <= inject_Z b.
Proof. now rewrite <- Zle_Qle. Qed.

Lemma Z_Q_lt (a b : Z) : (a < b)%Z -> inject_Z a < inject_Z b.
Proof. now rewrite <- Zlt_Qlt. Qed.

Lemma Q_Z_le (a b : Z) : inject_Z a <= inject_Z b -> (a <= b)%Z.
Proof. now rewrite <- Zle_Qle. Qed.

Lemma Q_Z_lt (a b : Z) : inject_Z a < inject_Z b -> (a < b)%Z.
Proof. now rewrite <- Zlt_Qlt. Qed.

Lemma rne_floor (y : Q) : (Qfloor y <= rne y <= Qfloor y + 1)%Z.
Proof.
  unfold rne. destruct (Qcompare _ _); [destruct (Z.even _)| |]; lia.
Qed.

Lemma rne_lower (y : Q) (z : Z) : inject_Z z <= y -> (z <= rne y)%Z.
Proof.
  intros H. pose proof (rne_floor y) as [L _].
  pose proof (Qlt_floor y) as F. rewrite inject_Z_plus in F.
  change (inject_Z 1) with 1 in F.
  assert (inject_Z z < inject_Z (Qfloor y + 1)).
  { rewrite inject_Z_plus. change (inject_Z 1) with 1. lra. }
  apply Q_Z_lt in H0. lia.
Qed.

Lemma rne_upper (y : Q) (z : Z) : y <= inject_Z z -> (rne y <= z)%Z.
Proof.
  intros H. pose proof (Qfloor_le y) as F.
  assert (L : (Qfloor y <= z)%Z) by (apply Q_Z_le; lra).
  destruct (Z.eq_dec (Qfloor y) z) as [E|E].
  - unfold rne. rewrite E in *.
    destruct (Qcompare (y - inject_Z z) (1 # 2)) eqn:C.
    + apply Qeq_alt in C. lra.
    + lia.
    + apply Qgt_alt in C. lra.
  - pose proof (rne_floor y). lia.
Qed.

Lemma rne_half (y : Q) :
  y - (1 # 2) <= inject_Z (rne y) /\ inject_Z (rne y) <= y + (1 # 2).
Proof.
  unfold rne. pose proof (Qfloor_le y) as F.
  pose proof (Qlt_floor y) as G. rewrite inject_Z_plus in G.
  change (inject_Z 1) with 1 in G.
  destruct (Qcompare (y - inject_Z (Qfloor y)) (1 # 2)) eqn:C.
  - apply Qeq_alt in C.
    destruct (Z.even (Qfloor y)); rewrite ?inject_Z_plus;
      change (inject_Z 1) with 1; split; lra.
  - apply Qlt_alt in C. split; lra.
  - apply Qgt_alt in C. rewrite inject_Z_plus.
    change (inject_Z 1) with 1. split; lra.
Qed.

Lemma Zlog2_Q (n : Z) :
  (0 < n)%Z ->
  pow2 (Z.log2 n) <= inject_Z n /\ inject_Z n < pow2 (Z.log2 n + 1).
Proof.
  intros H. destruct (Z.log2_spec n H) as [L U].
  pose proof (Z.log2_nonneg n) as P.
  rewrite !pow2_Z by lia. split; [apply Z_Q_le|apply Z_Q_lt].
  - exact L.
  - replace (Z.log2 n + 1)%Z with (Z.succ (Z.log2 n)) by lia. exact U.
Qed.

Lemma ilog2_spec (q : Q) :
  0 < q -> pow2 (ilog2 q) <= q /\ q < pow2 (ilog2 q + 1).
Proof.
  intros Hq. destruct q as [n d]. unfold ilog2. simpl Qnum. simpl Qden.
  assert (Hn : (0 < n)%Z).
  { unfold Qlt in Hq. simpl in Hq. lia. }
  destruct (Zlog2_Q n Hn) as [La Ua].
  destruct (Zlog2_Q (Zpos d) eq_refl) as [Lb Ub].
  set (a := Z.log2 n) in *. set (b := Z.log2 (Zpos d)) in *.
  assert (E : (n # d) * inject_Z (Zpos d) == inject_Z n).
  { unfold Qeq, Qmult, inject_Z. simpl. lia. }
  pose proof (pow2_pos b) as Pb. pose proof (pow2_pos (a - b)) as Pe.
  assert (A1 : pow2 (a - b) * pow2 b == pow2 a).
  { rewrite <- pow2_add. replace (a - b + b)%Z with a by lia. reflexivity. }
  assert (A2 : pow2 (a - b + 1) == 2 * pow2 (a - b)) by apply pow2_succ.
  assert (A3 : pow2 (a - b - 1) * 2 == pow2 (a - b)) by apply pow2_pred.
  assert (A4 : pow2 (a + 1) == 2 * pow2 a) by apply pow2_succ.
  assert (A5 : pow2 (b + 1) == 2 * pow2 b) by apply pow2_succ.
  assert (U : n # d < pow2 (a - b + 1)).
  { rewrite A2. apply Qmult_lt_r with (z := pow2 b); trivial. nra. }
  destruct (Qle_bool (pow2 (a - b)) (n # d)) eqn:T.
  - apply Qle_bool_iff in T. now split.
  - assert (T' : n # d < pow2 (a - b)).
    { apply Qnot_le_lt. intros C. apply Qle_bool_iff in C. congruence. }
    split.
    + assert (X : pow2 (a - b - 1) < n # d).
      { apply Qmult_lt_r with (z := pow2 (b + 1)).
        - apply pow2_pos.
        - rewrite A5. nra. }
      lra.
    + replace (a - b - 1 + 1)%Z with (a - b)%Z by lia. exact T'.
Qed.

Lemma round_zero (x : Q) : x == 0 -> round x == 0.
Proof.
  intros H. unfold round. apply Qeq_bool_iff in H. now rewrite H.
Qed.

Lemma round_nonzero (x : Q) :
  ~ x == 0 ->
  round x = inject_Z (rne (x / pow2 (ilog2 (Qabs x) - 52)))
            * pow2 (ilog2 (Qabs x) - 52).
Proof.
  intros H. unfold round.
  destruct (Qeq_bool x 0) eqn:E; trivial.
  apply Qeq_bool_iff in E. contradiction.
Qed.

Lemma Qabs_pos_lt (x : Q) : ~ x == 0 -> 0 < Qabs x.
Proof.
  intros H. apply Qabs_case; intros; lra.
Qed.

Lemma binade (x : Q) :
  ~ x == 0 ->
  (0 < x -> pow2 (ilog2 (Qabs x)) <= x /\ x < pow2 (ilog2 (Qabs x) + 1)) /\
  (x < 0 -> pow2 (ilog2 (Qabs x)) <= - x /\ - x < pow2 (ilog2 (Qabs x) + 1)).
Proof.
  intros H. pose proof (ilog2_spec _ (Qabs_pos_lt x H)) as [L U].
  split; intros S.
  - rewrite (Qabs_pos x) in L at 2 by lra.
    rewrite (Qabs_pos x) in U at 1 by lra. now split.
  - rewrite (Qabs_neg x) in L at 2 by lra.
    rewrite (Qabs_neg x) in U at 1 by lra. now split.
Qed.

Lemma scaled (x : Q) (c : Z) : x == (x / pow2 c) * pow2 c.
Proof. pose proof (pow2_pos c). field. lra. Qed.

Lemma round_grid_lower (x : Q) (z : Z) :
  ~ x == 0 ->
  inject_Z z * pow2 (ilog2 (Qabs x) - 52) <= x ->
  inject_Z z * pow2 (ilog2 (Qabs x) - 52) <= round x.
Proof.
  intros H L. rewrite (round_nonzero x H).
  set (c := (ilog2 (Qabs x) - 52)%Z) in *.
  pose proof (pow2_pos c) as P. pose proof (scaled x c) as S.
  assert (Y : inject_Z z <= x / pow2 c).
  { apply Qmult_le_r with (z := pow2 c); trivial. lra. }
  apply rne_lower in Y. apply Z_Q_le in Y.
  apply Qmult_le_compat_r; lra.
Qed.

Lemma round_grid_upper (x : Q) (z : Z) :
  ~ x == 0 ->
  x <= inject_Z z * pow2 (ilog2 (Qabs x) - 52) ->
  round x <= inject_Z z * pow2 (ilog2 (Qabs x) - 52).
Proof.
  intros H L. rewrite (round_nonzero x H).
  set (c := (ilog2 (Qabs x) - 52)%Z) in *.
  pose proof (pow2_pos c) as P. pose proof (scaled x c) as S.
  assert (Y : x / pow2 c <= inject_Z z).
  { apply Qmult_le_r with (z := pow2 c); trivial. lra. }
  apply rne_upper in Y. apply Z_Q_le in Y.
  apply Qmult_le_compat_r; lra.
Qed.

Lemma pow2_53 (c : Z) : inject_Z (2 ^ 53) * pow2 c == pow2 (c + 53).
Proof.
  rewrite pow2_add, (pow2_Z 53) by lia. lra.
Qed.

Lemma pow2_52 (c : Z) : inject_Z (2 ^ 52) * pow2 c == pow2 (c + 52).
Proof.
  rewrite pow2_add, (pow2_Z 52) by lia. lra.
Qed.

Lemma float_on_grid (m g c : Z) :
  (c <= g)%Z -> inject_Z m * pow2 g == inject_Z (m * 2 ^ (g - c)) * pow2 c.
Proof.
  intros H. rewrite inject_Z_mult, <- (pow2_Z (g - c)) by lia.
  rewrite <- Qmult_assoc, <- pow2_add.
  replace (g - c + c)%Z with g by lia. reflexivity.
Qed.

Lemma float_small (m g c : Z) :
  (Z.abs m < 2 ^ 53)%Z -> (g < c)%Z ->
  - pow2 (c + 52) < inject_Z m * pow2 g /\ inject_Z m * pow2 g < pow2 (c + 52).
Proof.
  intros Hm Hg.
  assert (B : pow2 g * inject_Z (2 ^ 53) <= pow2 (c + 52)).
  { rewrite Qmult_comm, pow2_53. apply pow2_le. lia. }
  pose proof (pow2_pos g) as P.
  assert (M1 : inject_Z m < inject_Z (2 ^ 53)) by (apply Z_Q_lt; lia).
  assert (M2 : inject_Z (- 2 ^ 53) < inject_Z m) by (apply Z_Q_lt; lia).
  rewrite inject_Z_opp in M2.
  split; nra.
Qed.

Theorem round_above_float (x f : Q) : float64 f -> f <= x -> f <= round x.
Proof.
  intros (m & g & Hm & Ef) L.
  destruct (Qeq_dec x 0) as [Z0|NZ].
  - rewrite (round_zero x Z0). lra.
  - set (e := ilog2 (Qabs x)). set (c := (e - 52)%Z).
    destruct (Z_le_gt_dec c g) as [G|G].
    + rewrite Ef in *. rewrite (float_on_grid m g c G) in *.
      now apply round_grid_lower.
    + destruct (float_small m g c Hm ltac:(lia)) as [S1 S2].
      replace (c + 52)%Z with e in S1, S2 by (unfold c; lia).
      destruct (binade x NZ) as [Bp Bn]. fold e in Bp, Bn.
      destruct (Qlt_le_dec 0 x) as [Px|Nx].
      * destruct (Bp Px) as [B1 _].
        assert (R : inject_Z (2 ^ 52) * pow2 c <= round x).
        { apply round_grid_lower; trivial. fold e. fold c.
          rewrite pow2_52. replace (c + 52)%Z with e by (unfold c; lia).
          exact B1. }
        rewrite pow2_52 in R. replace (c + 52)%Z with e in R by (unfold c; lia).
        lra.
      * assert (Nx' : x < 0) by lra.
        destruct (Bn Nx') as [B1 _]. lra.
Qed.

Theorem round_below_float (x f : Q) : float64 f -> x <= f -> round x <= f.
Proof.
  intros (m & g & Hm & Ef) L.
  destruct (Qeq_dec x 0) as [Z0|NZ].
  - rewrite (round_zero x Z0). lra.
  - set (e := ilog2 (Qabs x)). set (c := (e - 52)%Z).
    destruct (Z_le_gt_dec c g) as [G|G].
    + rewrite Ef in *. rewrite (float_on_grid m g c G) in *.
      now apply round_grid_upper.
    + destruct (float_small m g c Hm ltac:(lia)) as [S1 S2].
      replace (c + 52)%Z with e in S1, S2 by (unfold c; lia).
      destruct (binade x NZ) as [Bp Bn]. fold e in Bp, Bn.
      destruct (Qlt_le_dec 0 x) as [Px|Nx].
      * destruct (Bp Px) as [B1 _]. lra.
      * assert (Nx' : x < 0) by lra.
        destruct (Bn Nx') as [B1 _].
        assert (R : round x <= inject_Z (- 2 ^ 52) * pow2 c).
        { apply round_grid_upper; trivial. fold e. fold c.
          rewrite inject_Z_opp.
          assert (T := pow2_52 c).
          replace (c + 52)%Z with e in T by (unfold c; lia). lra. }
        rewrite inject_Z_opp in R. assert (T := pow2_52 c).
        replace (c + 52)%Z with e in T by (unfold c; lia). lra.
Qed.

Theorem round_float (x : Q) : float64 x -> round x == x.
Proof.
  intros F. apply Qle_antisym.
  - apply round_below_float; trivial. lra.
  - apply round_above_float; trivial. lra.
Qed.

Theorem round_is_float (x : Q) : float64 (round x).
Proof.
  destruct (Qeq_dec x 0) as [Z0|NZ].
  - exists 0%Z, 0%Z. split; [reflexivity|].
    rewrite (round_zero x Z0). reflexivity.
  - rewrite (round_nonzero x NZ).
    set (e := ilog2 (Qabs x)). set (c := (e - 52)%Z).
    pose proof (pow2_pos c) as P. pose proof (scaled x c) as S.
    assert (T := pow2_53 c).
    replace (c + 53)%Z with (e + 1)%Z in T by (unfold c; lia).
    destruct (binade x NZ) as [Bp Bn]. fold e in Bp, Bn.
    assert (Y : inject_Z (- 2 ^ 53) <= x / pow2 c /\
                x / pow2 c <= inject_Z (2 ^ 53)).
    { rewrite inject_Z_opp.
      destruct (Qlt_le_dec 0 x) as [Px|Nx].
      - destruct (Bp Px) as [_ U].
        split; apply Qmult_le_r with (z := pow2 c); trivial; nra.
      - assert (Nx' : x < 0) by lra. destruct (Bn Nx') as [_ U].
        split; apply Qmult_le_r with (z := pow2 c); trivial; nra. }
    destruct Y as [Y1 Y2].
    apply rne_lower in Y1. apply rne_upper in Y2.
    set (k := rne (x / pow2 c)) in *.
    destruct (Z.eq_dec k (2 ^ 53)) as [K|K];
      [|destruct (Z.eq_dec k (- 2 ^ 53)) as [K'|K']].
    + exists 1%Z, (e + 1)%Z. split; [reflexivity|].
      rewrite K, T. change (inject_Z 1) with 1. lra.
    + exists (-1)%Z, (e + 1)%Z. split; [reflexivity|].
      rewrite K', inject_Z_opp. change (inject_Z (-1)) with (-(1)). lra.
    + exists k, c. split; [lia|reflexivity].
Qed.

Theorem round_error (x B : Q) :
  - B <= x -> x <= B ->
  - (ulp53 * B) <= round x - x /\ round x - x <= ulp53 * B.
Proof.
  intros L U. unfold ulp53.
  destruct (Qeq_dec x 0) as [Z0|NZ].
  - rewrite (round_zero x Z0). split; lra.
  - rewrite (round_nonzero x NZ).
    set (e := ilog2 (Qabs x)). set (c := (e - 52)%Z).
    pose proof (pow2_pos c) as P. pose proof (scaled x c) as S.
    destruct (rne_half (x / pow2 c)) as [H1 H2].
    set (k := inject_Z (rne (x / pow2 c))) in *.
    set (y := x / pow2 c) in *.
    assert (T := pow2_52 c).
    replace (c + 52)%Z with e in T by (unfold c; lia).
    change (inject_Z (2 ^ 52)) with 4503599627370496 in T.
    destruct (binade x NZ) as [Bp Bn]. fold e in Bp, Bn.
    assert (PB : 4503599627370496 * pow2 c <= B).
    { destruct (Qlt_le_dec 0 x) as [Px|Nx].
      - destruct (Bp Px) as [B1 _]. lra.
      - assert (Nx' : x < 0) by lra. destruct (Bn Nx') as [B1 _]. lra. }
    split; nra.
Qed.

Lemma float64_eq (x y : Q) : x == y -> float64 x -> float64 y.
Proof. intros E (m & g & H & F). exists m, g. split; trivial. now rewrite <- E. Qed.

Lemma float64_Z (z : Z) : (Z.abs z <= 2 ^ 53)%Z -> float64 (inject_Z z).
Proof.
  intros H.
  destruct (Z.eq_dec (Z.abs z) (2 ^ 53)) as [E|E].
  - exists (z / 2)%Z, 1%Z. split.
    + assert (z = 2 ^ 53 \/ z = - 2 ^ 53)%Z as [-> | ->] by lia; reflexivity.
    + assert (z = 2 ^ 53 \/ z = - 2 ^ 53)%Z as [-> | ->] by lia; reflexivity.
  - exists z, 0%Z. split; [lia|]. change (pow2 0) with 1. lra.
Qed.


Lemma float64_half (x : Q) : float64 x -> float64 (x / 2).
Proof.
  intros (m & g & H & F). exists m, (g - 1)%Z. split; trivial.
  rewrite F, <- (pow2_pred g). field.
Qed.

End Binary64Rounding.

(** ** The rotation arithmetic as the code computes it *)

Lemma float64_0 : Binary64.float64 0.
Proof. apply (float64_Z 0). simpl. lia. Qed.

Lemma float64_360 : Binary64.float64 360.
Proof. apply (float64_Z 360). simpl. lia. Qed.

Lemma float64_720 : Binary64.float64 720.
Proof. apply (float64_Z 720). simpl. lia. Qed.

(** The inner sum of the double remainder, [x % 360 + 360], lands in
    [0, 720] whatever [x] is. *)
Lemma lifted64_range (x : Q) :
  0 <= Binary64.add (js_rem x 360) 360 /\
  Binary64.add (js_rem x 360) 360 <= 720.
Proof.
  destruct (js_rem_range x) as [L U]. unfold Binary64.add. split.
  - apply round_above_float; [exact float64_0|lra].
  - apply round_below_float; [exact float64_720|lra].
Qed.

Lemma js_norm64_range (x : Q) :
  0 <= js_rem (Binary64.add (js_rem x 360) 360) 360 /\
  js_rem (Binary64.add (js_rem x 360) 360) 360 < 360.
Proof.
  apply js_rem_nonneg. apply lifted64_range.
Qed.

Lemma current64_range (rot : Q) :
  0 <= Binary64.current rot /\ Binary64.current rot < 360.
Proof. apply js_norm64_range. Qed.

(** A whole spin count whose multiples of 360 are exact. *)
Lemma turns64_exact (sp : Q) (s : Z) :
  sp == inject_Z s -> (Z.abs (s * 360) <= 2 ^ 53)%Z ->
  Binary64.mul sp 360 == inject_Z s * 360.
Proof.
  intros E B. unfold Binary64.mul.
  assert (F : Binary64.float64 (sp * 360)).
  { apply (float64_eq (inject_Z (s * 360))); [|now apply float64_Z].
    rewrite inject_Z_mult, E. reflexivity. }
  rewrite (round_float _ F), E. reflexivity.
Qed.

Lemma deltaForward64_lower (its : list WheelItem) (idx : Z) (rot sp : Q) :
  Binary64.mul sp 360 <= Binary64.deltaForward its idx rot sp.
Proof.
  unfold Binary64.deltaForward, Binary64.add at 1.
  destruct (js_norm64_range
              (Binary64.sub (Binary64.targetAbs its idx sp)
                            (Binary64.current rot))) as [L U].
  apply round_above_float; [apply round_is_float|lra].
Qed.

Lemma deltaForward64_upper (its : list WheelItem) (idx : Z) (rot sp : Q)
    (s : Z) :
  sp == inject_Z s -> (0 <= s)%Z -> ((s + 1) * 360 <= 2 ^ 53)%Z ->
  Binary64.deltaForward its idx rot sp <= (inject_Z s + 1) * 360.
Proof.
  intros E P B.
  assert (M : Binary64.mul sp 360 == inject_Z s * 360)
    by (apply turns64_exact; trivial; lia).
  unfold Binary64.deltaForward, Binary64.add at 1.
  destruct (js_norm64_range
              (Binary64.sub (Binary64.targetAbs its idx sp)
                            (Binary64.current rot))) as [L U].
  assert (F : Binary64.float64 ((inject_Z s + 1) * 360)).
  { apply (float64_eq (inject_Z ((s + 1) * 360))); [|apply float64_Z; lia].
    rewrite inject_Z_mult, inject_Z_plus. reflexivity. }
  apply round_below_float; [exact F|]. rewrite M. lra.
Qed.

(** The code's middle of slice [i] against the exact one: three
    roundings, each of a value below 543. *)
Lemma winnerAngle64_error (its : list WheelItem) (i : nat) :
  (i < List.length its)%nat ->
  let wMid := inject_Z (Z.of_nat i) * 360 / count its + 180 / count its in
  0 < wMid /\ wMid < 360 /\
  - (Binary64.ulp53 * 1444)
  <= Binary64.winnerAngle its (Z.of_nat i) - wMid /\
  Binary64.winnerAngle its (Z.of_nat i) - wMid <= Binary64.ulp53 * 1444.
Proof.
  intros Hi wMid.
  assert (HN : (1 <= List.length its)%nat) by lia.
  pose proof (count_positive its HN) as CP.
  set (N := count its) in *. set (I := inject_Z (Z.of_nat i)) in *.
  assert (I0 : 0 <= I)
    by (unfold I; change 0 with (inject_Z 0); rewrite <- Zle_Qle; lia).
  assert (I1 : I + 1 <= N).
  { unfold I, N, count. change 1 with (inject_Z 1).
    rewrite <- inject_Z_plus, <- Zle_Qle. lia. }
  set (B := 360 / N).
  assert (BN : B * N == 360) by (unfold B; field; lra).
  assert (B0 : 0 < B) by nra.
  assert (IB : I * B + B <= 360) by nra.
  assert (IB0 : 0 <= I * B) by nra.
  assert (W : wMid == I * B + B / 2) by (unfold wMid, B; field; lra).
  assert (L : (0 <? List.length its)%nat = true) by (apply Nat.ltb_lt; lia).
  set (sA := Binary64.round B).
  assert (WA : Binary64.winnerAngle its (Z.of_nat i)
               = Binary64.round (Binary64.round (I * sA)
                                 + Binary64.div sA 2)).
  { unfold Binary64.winnerAngle, Binary64.sliceAngle. rewrite L.
    reflexivity. }
  rewrite WA. clear WA.
  assert (E1 : - (Binary64.ulp53 * B) <= sA - B /\
               sA - B <= Binary64.ulp53 * B)
    by (apply round_error; lra).
  assert (H2 : Binary64.div sA 2 == sA / 2).
  { unfold Binary64.div. apply round_float. apply float64_half.
    apply round_is_float. }
  set (a := Binary64.round (I * sA)).
  assert (U0 : 0 < Binary64.ulp53 /\ Binary64.ulp53 < 1 # 1000)
    by (unfold Binary64.ulp53; split; reflexivity).
  destruct E1 as [E1a E1b]. destruct U0 as [U0 U1].
  set (u := Binary64.ulp53) in *.
  assert (P1 : - (u * (I * B)) <= I * sA - I * B /\
               I * sA - I * B <= u * (I * B)) by (split; nra).
  destruct P1 as [P1a P1b].
  assert (UIB : u * (I * B) <= u * 360) by nra.
  assert (UB : u * B <= u * 360) by nra.
  assert (UIB0 : 0 <= u * (I * B)) by nra.
  assert (UB0 : 0 <= u * B) by nra.
  assert (Hh : sA / 2 * 2 == sA) by field.
  assert (Bh : B / 2 * 2 == B) by field.
  assert (E2 : - (u * 361) <= a - I * sA /\ a - I * sA <= u * 361)
    by (apply round_error; nra).
  destruct E2 as [E2a E2b].
  assert (E3 : - (u * 543) <= Binary64.round (a + Binary64.div sA 2)
                              - (a + Binary64.div sA 2) /\
               Binary64.round (a + Binary64.div sA 2)
               - (a + Binary64.div sA 2) <= u * 543).
  { apply round_error; lra. }
  destruct E3 as [E3a E3b].
  set (wA := Binary64.round (a + Binary64.div sA 2)) in *.
  rewrite W. split; [lra|]. split; [lra|]. split; lra.
Qed.

(** [current + delta] against the code's own [360 - winnerAngle]: a
    whole number of turns apart, up to the five roundings in between
    (of values below [360 * spins + 723]). *)
Lemma deltaForward64_alignment (its : list WheelItem) (i : nat) (rot sp : Q)
    (s : Z) :
  (i < List.length its)%nat ->
  sp == inject_Z s -> (0 <= s)%Z -> ((s + 1) * 360 <= 2 ^ 53)%Z ->
  let wA := Binary64.winnerAngle its (Z.of_nat i) in
  let delta := Binary64.deltaForward its (Z.of_nat i) rot sp in
  let eps := Binary64.ulp53 * (inject_Z s * 1080 + 2526) in
  exists k : Z,
    - eps <= Binary64.current rot + delta - (360 - wA) - 360 * inject_Z k /\
    Binary64.current rot + delta - (360 - wA) - 360 * inject_Z k <= eps.
Proof.
  intros Hi Hs Ps Bs wA delta eps.
  destruct (winnerAngle64_error its i Hi) as (W0 & W1 & W2 & W3).
  fold wA in W2, W3.
  assert (U0 : 0 < Binary64.ulp53 /\ Binary64.ulp53 < 1 # 1000000)
    by (unfold Binary64.ulp53; split; reflexivity).
  destruct U0 as [U0 U1]. set (u := Binary64.ulp53) in *.
  assert (S0 : 0 <= inject_Z s)
    by (change 0 with (inject_Z 0); rewrite <- Zle_Qle; lia).
  assert (M : Binary64.mul sp 360 == inject_Z s * 360)
    by (apply turns64_exact; trivial; lia).
  destruct (current64_range rot) as [C0 C1].
  set (Sx := Binary64.mul sp 360) in *.
  set (cur := Binary64.current rot) in *.
  set (t0 := Binary64.sub 360 wA).
  set (tA := Binary64.add Sx t0).
  set (x := Binary64.sub tA cur).
  set (y1 := js_rem x 360).
  set (y2 := Binary64.add y1 360).
  set (res := js_rem y2 360).
  assert (D : delta = Binary64.add res Sx) by reflexivity.
  assert (US : 0 <= u * inject_Z s) by nra.
  assert (HB : inject_Z s * 360 + 360 <= 9007199254740992).
  { pose proof (Z_Q_le _ _ Bs) as Bq.
    rewrite inject_Z_mult, inject_Z_plus in Bq.
    change (inject_Z 1) with 1 in Bq. change (inject_Z 360) with 360 in Bq.
    change (inject_Z (2 ^ 53)) with 9007199254740992 in Bq. lra. }
  assert (USb : u * (inject_Z s * 360) <= 1)
    by (unfold u, Binary64.ulp53; lra).
  assert (E5 : - (u * 361) <= t0 - (360 - wA) /\ t0 - (360 - wA) <= u * 361)
    by (apply round_error; lra).
  destruct E5 as [E5a E5b].
  assert (E6 : - (u * (inject_Z s * 360 + 362)) <= tA - (Sx + t0) /\
               tA - (Sx + t0) <= u * (inject_Z s * 360 + 362))
    by (apply round_error; lra).
  destruct E6 as [E6a E6b].
  assert (E7 : - (u * (inject_Z s * 360 + 723)) <= x - (tA - cur) /\
               x - (tA - cur) <= u * (inject_Z s * 360 + 723))
    by (apply round_error; lra).
  destruct E7 as [E7a E7b].
  destruct (js_rem_range x) as [Y1a Y1b]. fold y1 in Y1a, Y1b.
  pose proof (js_rem_turns x) as T2. fold y1 in T2.
  assert (E8 : - (u * 720) <= y2 - (y1 + 360) /\ y2 - (y1 + 360) <= u * 720)
    by (apply round_error; lra).
  destruct E8 as [E8a E8b].
  destruct (js_norm64_range x) as [R0 R1]. fold y1 y2 res in R0, R1.
  pose proof (js_rem_turns y2) as T3. fold res in T3.
  assert (E9 : - (u * (inject_Z s * 360 + 360)) <= delta - (res + Sx) /\
               delta - (res + Sx) <= u * (inject_Z s * 360 + 360))
    by (rewrite D; apply round_error; lra).
  destruct E9 as [E9a E9b].
  exists (2 * s + 1 - Qtrunc (x / 360) - Qtrunc (y2 / 360))%Z.
  unfold Z.sub. rewrite !inject_Z_plus, !inject_Z_opp, inject_Z_mult.
  change (inject_Z 2) with 2. change (inject_Z 1) with 1.
  unfold eps. split; lra.
Qed.

(** ** The handle on binary64 numbers *)

Lemma spinTo64_known (p : Props) (winnerId : string)
    (opts : option Binary64.SpinOpts) (w : World) :
  findIndex (has_id winnerId) (items p) <> (-1)%Z ->
  Binary64.spinTo p winnerId opts w
  = requestAnimationFrame (Binary64.scheduled p winnerId opts w)
                          (setSpinning true w).
Proof.
  intros H. unfold Binary64.spinTo, Binary64.scheduled.
  destruct (items p) as [|it rest] eqn:E.
  - now rewrite findIndex_nil in H.
  - simpl List.length. simpl Nat.eqb. cbv iota.
    apply Z.eqb_neq in H. now rewrite H.
Qed.

Lemma lone_spin64_frame (p : Props) (winnerId : string)
    (opts : option Binary64.SpinOpts) (w : World) :
  quiescent w = true ->
  findIndex (has_id winnerId) (items p) <> (-1)%Z ->
  animationFrame (Binary64.spinTo p winnerId opts w)
  = turning (Binary64.scheduled p winnerId opts w) w.
Proof.
  intros Q K. rewrite spinTo64_known by exact K.
  destruct w as [r s sel [d|] q c k]; unfold quiescent in Q;
    simpl in Q; [|destruct q; discriminate].
  destruct q; [|discriminate]. destruct d as [t [|l ls]]; [|discriminate].
  reflexivity.
Qed.

Lemma lone_spin64_end (cb : FrameCallback) (w : World) :
  Binary64.transitionEnd (turning cb w) = Binary64.settled cb w.
Proof.
  unfold Binary64.transitionEnd, turning; simpl.
  unfold Binary64.dispatch, registered; simpl. rewrite Nat.eqb_refl; simpl.
  unfold Binary64.onEnd, removeEventListener; simpl.
  rewrite Nat.eqb_refl; simpl.
  unfold callOnDone, Binary64.settled; simpl. now destruct (f_onDone cb).
Qed.

Lemma lone_spin64_run (p : Props) (winnerId : string)
    (opts : option Binary64.SpinOpts) (w : World) :
  quiescent w = true ->
  findIndex (has_id winnerId) (items p) <> (-1)%Z ->
  Binary64.run w (Binary64.spinCycle (p, winnerId, opts))
  = Binary64.settled (Binary64.scheduled p winnerId opts w) w.
Proof.
  intros Q K. simpl. rewrite lone_spin64_frame by assumption.
  apply lone_spin64_end.
Qed.

(** The settle step on the target it was given: the two remainders
    cancel and the sum is the target itself. *)
Lemma settle64_exact (n : Q) :
  Binary64.float64 n ->
  Binary64.add n (Binary64.sub (js_rem n 360) (js_rem n 360)) == n.
Proof.
  intros F.
  assert (Z0 : Binary64.sub (js_rem n 360) (js_rem n 360) == 0).
  { unfold Binary64.sub. apply round_zero. lra. }
  unfold Binary64.add.
  assert (E : n + Binary64.sub (js_rem n 360) (js_rem n 360) == n) by lra.
  rewrite (round_float _ (float64_eq _ _ (Qeq_sym _ _ E) F)). exact E.
Qed.

Lemma nextRotation64_float (its : list WheelItem) (idx : Z) (rot sp : Q) :
  Binary64.float64 (Binary64.nextRotation its idx rot sp).
Proof. apply round_is_float. Qed.

Lemma settled64_rotation (p : Props) (winnerId : string)
    (opts : option Binary64.SpinOpts) (w : World) :
  rotation (Binary64.settled (Binary64.scheduled p winnerId opts w) w)
  == Binary64.nextRotation (items p) (findIndex (has_id winnerId) (items p))
                           (rotation w) (Binary64.spinsOf opts).
Proof.
  simpl. apply settle64_exact. apply nextRotation64_float.
Qed.




Lemma ulp53_small : 0 < Binary64.ulp53 /\ Binary64.ulp53 < 1 # 1000000.
Proof. unfold Binary64.ulp53. split; reflexivity. Qed.



(** ** The claims on the code's arithmetic *)

(** Splits a conjunction into its parts, leaving every part as it is. *)
Ltac split_conj := repeat match goal with |- _ /\ _ => split end.



(** C10, as stated, fails in binary64: seven items, a spin to [c] with
    six spins from the freshly mounted wheel settles at
    [2391.4285714285716]; spinning to [c] again with two spins gives
    [delta = 1080 = (2 + 1) * 360], a residual of a whole turn. *)
Lemma delta_reaches_next_turn :
  let w := Binary64.run mounted
             (Binary64.spinCycle (sevenRoom, "c"%string, Binary64.turns 6)) in
  let delta := Binary64.deltaForward seven 2 (rotation w) 2 in
  findIndex (has_id "c") seven = 2%Z /\
  rotation w == 2629403521281463 # 1099511627776 /\
  map f_nextRotation
      (rafQueue (Binary64.spinTo sevenRoom "c" (Binary64.turns 2) w))
  = [Binary64.add (rotation w) delta] /\
  delta == 1080 /\
  ~ delta < (inject_Z 2 + 1) * 360.
Proof.
  intros w delta. split_conj; try (vm_compute; reflexivity).
  intros E; vm_compute in E; discriminate E.
Qed.

(** C10, as the code has it. For a valid [spinTo] with a whole spin
    count [s >= 0] whose multiples of 360 are exact, the delta lies in
    [[s * 360, (s + 1) * 360]]: the residual is rounded and can reach a
    whole turn. *)
Theorem spinTo64_delta_bounds (p : Props) (winnerId : string)
    (opts : option Binary64.SpinOpts) (w : World) (i : nat) (s : Z) :
  findIndex (has_id winnerId) (items p) = Z.of_nat i ->
  Binary64.spinsOf opts == inject_Z s ->
  (0 <= s)%Z -> ((s + 1) * 360 <= 2 ^ 53)%Z ->
  let delta :=
    Binary64.deltaForward (items p) (Z.of_nat i) (rotation w)
                          (Binary64.spinsOf opts) in
  (1 <= List.length (items p))%nat /\
  (exists cb,
      rafQueue (Binary64.spinTo p winnerId opts w)
      = (rafQueue w ++ [cb])%list /\
      f_nextRotation cb = Binary64.add (rotation w) delta) /\
  inject_Z s * 360 <= delta /\
  delta <= (inject_Z s + 1) * 360.
Proof.
  intros Hidx Hs Ps Bs delta.
  destruct (findIndex_known _ _ _ Hidx) as [it [Hn Hid]].
  assert (M : Binary64.mul (Binary64.spinsOf opts) 360 == inject_Z s * 360)
    by (apply turns64_exact; trivial; lia).
  split.
  { assert (i < List.length (items p))%nat; [|lia].
    apply nth_error_Some. congruence. }
  split.
  { exists (Binary64.scheduled p winnerId opts w).
    rewrite spinTo64_known by (rewrite Hidx; lia).
    unfold Binary64.scheduled; simpl. rewrite Hidx. repeat split. }
  split.
  - rewrite <- M. apply deltaForward64_lower.
  - now apply deltaForward64_upper.
Qed.



(** ** Instances on the code's arithmetic *)


Lemma spinTo64_delta_bounds_witness :
  findIndex (has_id "c") (items sevenRoom) = Z.of_nat 2 /\
  Binary64.spinsOf (Binary64.turns 2) == inject_Z 2 /\
  (0 <= 2)%Z /\ ((2 + 1) * 360 <= 2 ^ 53)%Z /\
  Binary64.deltaForward (items sevenRoom) (Z.of_nat 2) (rotation mounted)
                        (Binary64.spinsOf (Binary64.turns 2))
  <= (inject_Z 2 + 1) * 360.
Proof.
  assert (H1 : findIndex (has_id "c") (items sevenRoom) = Z.of_nat 2)
    by reflexivity.
  assert (H2 : Binary64.spinsOf (Binary64.turns 2) == inject_Z 2)
    by reflexivity.
  assert (H3 : (0 <= 2)%Z) by lia.
  assert (H4 : ((2 + 1) * 360 <= 2 ^ 53)%Z) by (vm_compute; discriminate).
  pose proof (spinTo64_delta_bounds sevenRoom "c" (Binary64.turns 2) mounted
                2 2 H1 H2 H3 H4) as T.
  cbv zeta in T. destruct T as (_ & _ & _ & A).
  split; [exact H1|]. split; [exact H2|]. split; [exact H3|].
  split; [exact H4|exact A].
Defined.


(** * Further properties on the code's arithmetic *)

(** ** The drawing in binary64 *)

Lemma renderSlices64_nth (its : list WheelItem) (selected : option string)
    (i : nat) (v : SliceView) :
  nth_error (Binary64.renderSlices its selected) i = Some v ->
  exists it, nth_error its i = Some it /\
             v = Binary64.renderSlice its selected it i.
Proof.
  unfold Binary64.renderSlices. rewrite mapi_nth.
  destruct (nth_error its i) as [it|]; [|discriminate].
  intros E. injection E as <-. now exists it.
Qed.

(** At most [2^32] items, as any JavaScript array: the slice is far
    wider than the rounding errors. *)
Lemma slice_wide (its : list WheelItem) :
  (1 <= List.length its)%nat ->
  (Z.of_nat (List.length its) <= 2 ^ 32)%Z ->
  Binary64.ulp53 * 8000 < 360 / count its.
Proof.
  intros H1 H2. pose proof (count_positive its H1) as P.
  assert (C : count its <= 4294967296).
  { unfold count. apply Z_Q_le in H2. exact H2. }
  set (N := count its) in *. set (B := 360 / N).
  assert (BN : B * N == 360) by (unfold B; field; lra).
  assert (B0 : 0 < B) by nra.
  assert (G : 360 <= B * 4294967296) by nra.
  unfold Binary64.ulp53. lra.
Qed.

(** The angles of slice [i] against the exact ones. *)
Lemma slice64_error (its : list WheelItem) (i : nat) :
  (i < List.length its)%nat ->
  let N := count its in
  let I := inject_Z (Z.of_nat i) in
  let sA := Binary64.sliceAngle its in
  let a := Binary64.mul I sA in
  let u := Binary64.ulp53 in
  0 <= a /\
  - (u * 721) <= a - I * 360 / N /\ a - I * 360 / N <= u * 721 /\
  - (u * 1442) <= Binary64.add a sA - (I + 1) * 360 / N /\
  Binary64.add a sA - (I + 1) * 360 / N <= u * 1442 /\
  - (u * 722) <= sA - 360 / N /\ sA - 360 / N <= u * 722 /\
  Binary64.div sA 2 == sA / 2 /\
  - (u * 543) <= Binary64.add a (Binary64.div sA 2) - (a + sA / 2) /\
  Binary64.add a (Binary64.div sA 2) - (a + sA / 2) <= u * 543.
Proof.
  intros Hi N I sA a u.
  assert (HN : (1 <= List.length its)%nat) by lia.
  pose proof (count_positive its HN) as CP. fold N in CP.
  assert (I0 : 0 <= I).
  { unfold I. change 0 with (inject_Z 0). rewrite <- Zle_Qle. lia. }
  assert (I1 : I + 1 <= N).
  { unfold I, N, count. change 1 with (inject_Z 1).
    rewrite <- inject_Z_plus, <- Zle_Qle. lia. }
  set (B := 360 / N).
  assert (BN : B * N == 360) by (unfold B; field; lra).
  assert (B0 : 0 < B) by nra.
  assert (IB : I * B + B <= 360) by nra.
  assert (IB0 : 0 <= I * B) by nra.
  assert (X1 : I * 360 / N == I * B) by (unfold B; field; lra).
  assert (X2 : (I + 1) * 360 / N == I * B + B) by (unfold B; field; lra).
  assert (L : (0 <? List.length its)%nat = true) by (apply Nat.ltb_lt; lia).
  assert (SA : sA = Binary64.round B).
  { unfold sA, Binary64.sliceAngle. rewrite L. reflexivity. }
  assert (E1 : - (Binary64.ulp53 * B) <= sA - B /\
               sA - B <= Binary64.ulp53 * B)
    by (rewrite SA; apply round_error; lra).
  assert (H2 : Binary64.div sA 2 == sA / 2).
  { unfold Binary64.div. apply round_float. apply float64_half.
    rewrite SA. apply round_is_float. }
  destruct ulp53_small as [U0 U1]. fold u in U0, U1, E1.
  destruct E1 as [E1a E1b].
  assert (P1 : - (u * (I * B)) <= I * sA - I * B /\
               I * sA - I * B <= u * (I * B)) by (split; nra).
  destruct P1 as [P1a P1b].
  assert (UIB : u * (I * B) <= u * 360) by nra.
  assert (UB : u * B <= u * 360) by nra.
  assert (UIB0 : 0 <= u * (I * B)) by nra.
  assert (UB0 : 0 <= u * B) by nra.
  assert (Hh : sA / 2 * 2 == sA) by field.
  assert (E2 : - (u * 361) <= a - I * sA /\ a - I * sA <= u * 361)
    by (apply round_error; nra).
  destruct E2 as [E2a E2b].
  assert (A0 : 0 <= a).
  { unfold a, Binary64.mul. apply round_above_float; [exact float64_0|nra]. }
  assert (E3 : - (u * 361) <= Binary64.add a sA - (a + sA) /\
               Binary64.add a sA - (a + sA) <= u * 361)
    by (apply round_error; lra).
  destruct E3 as [E3a E3b].
  assert (E4 : - (u * 543) <= Binary64.add a (Binary64.div sA 2)
                              - (a + Binary64.div sA 2) /\
               Binary64.add a (Binary64.div sA 2)
               - (a + Binary64.div sA 2) <= u * 543)
    by (apply round_error; lra).
  destruct E4 as [E4a E4b].
  rewrite X1, X2.
  split; [exact A0|]. split; [lra|]. split; [lra|]. split; [lra|].
  split; [lra|]. split; [lra|]. split; [lra|]. split; [exact H2|].
  split; lra.
Qed.

(** X3. The slices tile the circle in item order up to rounding: slice
    [i] starts within [2^-53 * 721] of [i * 360 / N] and ends within
    [2^-53 * 1442] of [(i + 1) * 360 / N], so it ends where the next one
    starts up to [2^-53 * 2163], the first starts at 0 and the last
    ends at 360 up to [2^-53 * 1442]; the label of slice [i] sits at
    the very angle [spinTo] aims at for index [i], strictly inside the
    slice. *)
Theorem slices64_tile_circle (its : list WheelItem)
    (selected : option string) (i : nat) (v : SliceView) :
  nth_error (Binary64.renderSlices its selected) i = Some v ->
  (Z.of_nat (List.length its) <= 2 ^ 32)%Z ->
  let N := count its in
  let u := Binary64.ulp53 in
  List.length (Binary64.renderSlices its selected) = List.length its /\
  (i < List.length its)%nat /\
  v_mid v = Binary64.winnerAngle its (Z.of_nat i) /\
  0 <= v_start v /\ v_start v < v_mid v /\ v_mid v < v_end v /\
  (i = 0%nat -> v_start v == 0) /\
  (- (u * 721) <= v_start v - inject_Z (Z.of_nat i) * 360 / N /\
   v_start v - inject_Z (Z.of_nat i) * 360 / N <= u * 721) /\
  (- (u * 1442) <= v_end v - inject_Z (Z.of_nat (S i)) * 360 / N /\
   v_end v - inject_Z (Z.of_nat (S i)) * 360 / N <= u * 1442) /\
  (S i = List.length its ->
   - (u * 1442) <= v_end v - 360 /\ v_end v - 360 <= u * 1442) /\
  (forall n, nth_error (Binary64.renderSlices its selected) (S i) = Some n ->
             - (u * 2163) <= v_end v - v_start n /\
             v_end v - v_start n <= u * 2163).
Proof.
  intros Hv Hlen N u.
  destruct (renderSlices64_nth _ _ _ _ Hv) as [it [Hi ->]].
  assert (Hlt : (i < List.length its)%nat)
    by (apply nth_error_Some; congruence).
  assert (HN : (1 <= List.length its)%nat) by lia.
  pose proof (count_positive its HN) as CP. fold N in CP.
  destruct (slice64_error its i Hlt)
    as (A0 & A1 & A2 & A3 & A4 & A5 & A6 & A7 & A8 & A9).
  pose proof (slice_wide its HN Hlen) as W. fold N in W.
  fold N in A1, A2, A3, A4, A5, A6. fold u in A1, A2, A3, A4, A5, A6, A8, A9, W.
  destruct ulp53_small as [U0 U1]. fold u in U0, U1.
  assert (SI : inject_Z (Z.of_nat (S i)) == inject_Z (Z.of_nat i) + 1).
  { rewrite Nat2Z.inj_succ. unfold Z.succ. rewrite inject_Z_plus.
    reflexivity. }
  assert (X : inject_Z (Z.of_nat (S i)) * 360 / N
              == (inject_Z (Z.of_nat i) + 1) * 360 / N).
  { rewrite SI. reflexivity. }
  set (sA := Binary64.sliceAngle its) in *.
  set (a := Binary64.mul (inject_Z (Z.of_nat i)) sA) in *.
  assert (Hh : sA / 2 * 2 == sA) by field.
  assert (D : (inject_Z (Z.of_nat i) + 1) * 360 / N
              == inject_Z (Z.of_nat i) * 360 / N + 360 / N) by (field; lra).
  simpl v_start. simpl v_end. simpl v_mid.
  fold sA. fold a.
  split. { unfold Binary64.renderSlices, mapi. apply mapi_from_length. }
  split; [exact Hlt|]. split; [reflexivity|].
  split; [exact A0|]. split; [lra|]. split; [lra|].
  split.
  { intros ->. unfold a. change (inject_Z (Z.of_nat 0)) with 0.
    unfold Binary64.mul. apply round_zero. lra. }
  split; [split; lra|]. split; [rewrite X; split; lra|].
  split.
  { intros E.
    assert (F : (inject_Z (Z.of_nat i) + 1) * 360 / N == 360).
    { rewrite <- SI, E. change (inject_Z (Z.of_nat (List.length its))) with N.
      field. lra. }
    split; lra. }
  intros n Hn.
  destruct (renderSlices64_nth _ _ _ _ Hn) as [it' [Hi' ->]].
  assert (Hlt' : (S i < List.length its)%nat)
    by (apply nth_error_Some; congruence).
  destruct (slice64_error its (S i) Hlt') as (_ & B1 & B2 & _).
  fold N in B1, B2. fold u in B1, B2. fold sA in B1, B2.
  change (v_start (Binary64.renderSlice its selected it' (S i)))
    with (Binary64.mul (inject_Z (Z.of_nat (S i))) sA).
  set (a' := Binary64.mul (inject_Z (Z.of_nat (S i))) sA) in *.
  rewrite X in B1, B2. split; lra.
Qed.

Lemma slices64_tile_circle_witness :
  nth_error (Binary64.renderSlices seven None) 5
  = Some (Binary64.renderSlice seven None (participant "f") 5) /\
  (Z.of_nat (List.length seven) <= 2 ^ 32)%Z /\
  (forall n, nth_error (Binary64.renderSlices seven None) 6 = Some n ->
             - (Binary64.ulp53 * 2163)
             <= v_end (Binary64.renderSlice seven None (participant "f") 5)
                - v_start n /\
             v_end (Binary64.renderSlice seven None (participant "f") 5)
             - v_start n <= Binary64.ulp53 * 2163).
Proof.
  assert (H1 : nth_error (Binary64.renderSlices seven None) 5
               = Some (Binary64.renderSlice seven None (participant "f") 5))
    by reflexivity.
  assert (H2 : (Z.of_nat (List.length seven) <= 2 ^ 32)%Z)
    by (vm_compute; discriminate).
  pose proof (slices64_tile_circle seven None 5 _ H1 H2) as T.
  cbv zeta in T.
  destruct T as (_ & _ & _ & _ & _ & _ & _ & _ & _ & _ & A).
  split; [exact H1|]. split; [exact H2|exact A].
Defined.

(** ** The colours in binary64 *)

Lemma scale_le (x y n : Q) : 0 < n -> x * n <= y * n -> x <= y.
Proof. intros P H. now apply (Qmult_le_r x y n P). Qed.

Lemma lengthOr1_nonempty (its : list WheelItem) :
  (1 <= List.length its)%nat -> lengthOr1 its = List.length its.
Proof.
  intros H. unfold lengthOr1.
  destruct (List.length its =? 0)%nat eqn:E; trivial.
  apply Nat.eqb_eq in E. lia.
Qed.

Lemma colors64_nth (its : list WheelItem) (i : nat) :
  (i < List.length its)%nat ->
  nth_error (Binary64.colors its) i = Some (Binary64.hue its i).
Proof.
  intros H. unfold Binary64.colors. rewrite mapi_nth.
  destruct (nth_error its i) eqn:E; trivial.
  apply nth_error_None in E. lia.
Qed.

(** The hue of slice [i] against [i * 360 / N]: two roundings. *)
Lemma hue64_error (its : list WheelItem) (i : nat) :
  (i < List.length its)%nat ->
  let N := count its in
  let I := inject_Z (Z.of_nat i) in
  let u := Binary64.ulp53 in
  0 <= Binary64.hue its i /\
  - (u * 721) <= Binary64.hue its i - I * 360 / N /\
  Binary64.hue its i - I * 360 / N <= u * 721.
Proof.
  intros Hi N I u.
  assert (HN : (1 <= List.length its)%nat) by lia.
  pose proof (count_positive its HN) as CP. fold N in CP.
  assert (I0 : 0 <= I).
  { unfold I. change 0 with (inject_Z 0). rewrite <- Zle_Qle. lia. }
  assert (I1 : I + 1 <= N).
  { unfold I, N, count. change 1 with (inject_Z 1).
    rewrite <- inject_Z_plus, <- Zle_Qle. lia. }
  set (B := 360 / N).
  assert (BN : B * N == 360) by (unfold B; field; lra).
  assert (B0 : 0 < B) by nra.
  assert (IB : I * B + B <= 360) by nra.
  assert (IB0 : 0 <= I * B) by nra.
  assert (X1 : I * 360 / N == I * B) by (unfold B; field; lra).
  destruct ulp53_small as [U0 U1]. fold u in U0, U1.
  assert (H : Binary64.hue its i
              = Binary64.round (Binary64.mul I 360 / N)).
  { unfold Binary64.hue, Binary64.div. rewrite (lengthOr1_nonempty its HN).
    reflexivity. }
  rewrite H. clear H.
  assert (E1 : - (u * (I * 360)) <= Binary64.mul I 360 - I * 360 /\
               Binary64.mul I 360 - I * 360 <= u * (I * 360))
    by (apply round_error; lra).
  destruct E1 as [E1a E1b].
  assert (M0 : 0 <= Binary64.mul I 360).
  { unfold Binary64.mul. apply round_above_float; [exact float64_0|lra]. }
  set (m := Binary64.mul I 360) in *.
  set (x := m / N).
  assert (XN : x * N == m) by (unfold x; field; lra).
  assert (L1 : x - I * B <= u * (I * B)).
  { apply (scale_le _ _ N CP). nra. }
  assert (L2 : - (u * (I * B)) <= x - I * B).
  { apply (scale_le _ _ N CP). nra. }
  assert (UIB : u * (I * B) <= u * 360) by nra.
  assert (UIB0 : 0 <= u * (I * B)) by nra.
  assert (x0 : 0 <= x).
  { apply (scale_le _ _ N CP). lra. }
  assert (E2 : - (u * 361) <= Binary64.round x - x /\
               Binary64.round x - x <= u * 361)
    by (apply round_error; lra).
  destruct E2 as [E2a E2b].
  rewrite X1. split.
  - apply round_above_float; [exact float64_0|exact x0].
  - split; lra.
Qed.

(** X5. Every slice has a fill; its hue lies in [0, 360), follows the
    start angle of the slice up to rounding, and grows with the index:
    two different slices never get the same hue. *)
Theorem slice_hues64_distinct (its : list WheelItem)
    (selected : option string) (i j : nat) (v w : SliceView) :
  nth_error (Binary64.renderSlices its selected) i = Some v ->
  nth_error (Binary64.renderSlices its selected) j = Some w ->
  (Z.of_nat (List.length its) <= 2 ^ 32)%Z ->
  exists h g,
    v_fill v = Some h /\ v_fill w = Some g /\
    h = Binary64.hue its i /\ g = Binary64.hue its j /\
    0 <= h /\ h < 360 /\
    - (Binary64.ulp53 * 1442) <= h - v_start v /\
    h - v_start v <= Binary64.ulp53 * 1442 /\
    ((i < j)%nat -> h < g) /\
    (i <> j -> ~ h == g).
Proof.
  intros Hv Hw Hlen.
  destruct (renderSlices64_nth _ _ _ _ Hv) as [it [Hi ->]].
  destruct (renderSlices64_nth _ _ _ _ Hw) as [jt [Hj ->]].
  assert (Li : (i < List.length its)%nat)
    by (apply nth_error_Some; congruence).
  assert (Lj : (j < List.length its)%nat)
    by (apply nth_error_Some; congruence).
  assert (HN : (1 <= List.length its)%nat) by lia.
  pose proof (count_positive its HN) as CP.
  pose proof (slice_wide its HN Hlen) as W.
  destruct ulp53_small as [U0 U1].
  assert (Mono : forall a b, (a < b)%nat -> (b < List.length its)%nat ->
                 Binary64.hue its a < Binary64.hue its b).
  { intros a b Hab Hb.
    destruct (hue64_error its a ltac:(lia)) as (_ & _ & A2).
    destruct (hue64_error its b Hb) as (_ & B1 & _).
    assert (AB : inject_Z (Z.of_nat a) + 1 <= inject_Z (Z.of_nat b)).
    { change 1 with (inject_Z 1).
      rewrite <- inject_Z_plus, <- Zle_Qle. lia. }
    set (N := count its) in *. set (u := Binary64.ulp53) in *.
    set (q := 360 / N) in *.
    assert (QN : q * N == 360) by (unfold q; field; lra).
    assert (Q0 : 0 < q) by nra.
    assert (Xa : inject_Z (Z.of_nat a) * 360 / N == inject_Z (Z.of_nat a) * q)
      by (unfold q; field; lra).
    assert (Xb : inject_Z (Z.of_nat b) * 360 / N == inject_Z (Z.of_nat b) * q)
      by (unfold q; field; lra).
    rewrite Xa in A2. rewrite Xb in B1. nra. }
  destruct (hue64_error its i Li) as (H0 & H1 & H2).
  destruct (slice64_error its i Li) as (_ & S1 & S2 & _).
  exists (Binary64.hue its i), (Binary64.hue its j).
  split. { simpl. now apply colors64_nth. }
  split. { simpl. now apply colors64_nth. }
  split; [reflexivity|]. split; [reflexivity|]. split; [exact H0|].
  split.
  { assert (I1 : inject_Z (Z.of_nat i) + 1 <= count its).
    { unfold count. change 1 with (inject_Z 1).
      rewrite <- inject_Z_plus, <- Zle_Qle. lia. }
    set (N := count its) in *. set (u := Binary64.ulp53) in *.
    set (q := 360 / N) in *.
    assert (QN : q * N == 360) by (unfold q; field; lra).
    assert (Q0 : 0 < q) by nra.
    assert (Xa : inject_Z (Z.of_nat i) * 360 / N == inject_Z (Z.of_nat i) * q)
      by (unfold q; field; lra).
    rewrite Xa in H2. nra. }
  simpl v_start.
  split; [lra|]. split; [lra|]. split.
  - intros Hij. now apply Mono.
  - intros Hij E.
    destruct (Nat.lt_total i j) as [L|[L|L]].
    + pose proof (Mono i j L Lj). lra.
    + contradiction.
    + pose proof (Mono j i L Li). lra.
Qed.

Lemma slice_hues64_distinct_witness :
  nth_error (Binary64.renderSlices seven None) 1
  = Some (Binary64.renderSlice seven None (participant "b") 1) /\
  nth_error (Binary64.renderSlices seven None) 2
  = Some (Binary64.renderSlice seven None (participant "c") 2) /\
  (Z.of_nat (List.length seven) <= 2 ^ 32)%Z /\
  exists h g,
    v_fill (Binary64.renderSlice seven None (participant "b") 1) = Some h /\
    v_fill (Binary64.renderSlice seven None (participant "c") 2) = Some g /\
    h < g.
Proof.
  assert (H1 : nth_error (Binary64.renderSlices seven None) 1
               = Some (Binary64.renderSlice seven None (participant "b") 1))
    by reflexivity.
  assert (H2 : nth_error (Binary64.renderSlices seven None) 2
               = Some (Binary64.renderSlice seven None (participant "c") 2))
    by reflexivity.
  assert (H3 : (Z.of_nat (List.length seven) <= 2 ^ 32)%Z)
    by (vm_compute; discriminate).
  destruct (slice_hues64_distinct seven None 1 2 _ _ H1 H2 H3)
    as (h & g & A & B & _ & _ & _ & _ & _ & _ & C & _).
  split; [exact H1|]. split; [exact H2|]. split; [exact H3|].
  exists h, g. split; [exact A|]. split; [exact B|]. apply C. lia.
Defined.

Lemma float64_180 : Binary64.float64 180.
Proof. apply (float64_Z 180). simpl. lia. Qed.

(** With three items or more the slice is at most a third of a turn. *)
Lemma largeArc64_narrow (its : list WheelItem) (i : nat) :
  (i < List.length its)%nat -> (3 <= List.length its)%nat ->
  let sA := Binary64.sliceAngle its in
  let a := Binary64.mul (inject_Z (Z.of_nat i)) sA in
  Binary64.largeArcFlag a (Binary64.add a sA) = "0"%string.
Proof.
  intros Hi H3 sA a.
  assert (HN : (1 <= List.length its)%nat) by lia.
  pose proof (count_positive its HN) as CP.
  destruct (slice64_error its i Hi)
    as (A0 & A1 & A2 & A3 & A4 & A5 & A6 & _).
  fold sA in A1, A2, A3, A4, A5, A6. fold a in A0, A1, A2, A3, A4.
  assert (C3 : 3 <= count its).
  { unfold count. change 3 with (inject_Z 3). rewrite <- Zle_Qle. lia. }
  destruct ulp53_small as [U0 U1].
  set (N := count its) in *. set (u := Binary64.ulp53) in *.
  set (q := 360 / N) in *.
  assert (QN : q * N == 360) by (unfold q; field; lra).
  assert (Q0 : 0 < q) by nra.
  assert (Q3 : q <= 120) by nra.
  assert (D : (inject_Z (Z.of_nat i) + 1) * 360 / N
              == inject_Z (Z.of_nat i) * 360 / N + q)
    by (unfold q; field; lra).
  unfold Binary64.largeArcFlag.
  assert (L : Binary64.sub (Binary64.add a sA) a <= 180).
  { unfold Binary64.sub. apply round_below_float; [exact float64_180|].
    lra. }
  apply Qle_bool_iff in L. now rewrite L.
Qed.

(** X17. On the code's arithmetic too, the large-arc flag of a slice is
    ["1"] exactly when the wheel has a single item. *)
Theorem largeArc64_only_single_item (its : list WheelItem)
    (selected : option string) (i : nat) (v : SliceView) :
  nth_error (Binary64.renderSlices its selected) i = Some v ->
  (v_largeArc v = "1"%string <-> List.length its = 1%nat) /\
  (v_largeArc v = "0"%string <-> (2 <= List.length its)%nat).
Proof.
  intros Hv.
  destruct (renderSlices64_nth _ _ _ _ Hv) as [it [Hi ->]].
  assert (Hlt : (i < List.length its)%nat)
    by (apply nth_error_Some; congruence).
  simpl v_largeArc.
  destruct its as [|x [|y [|z rest]]].
  - simpl in Hlt. lia.
  - assert (i = 0)%nat by (simpl in Hlt; lia). subst i.
    assert (E : Binary64.largeArcFlag
                  (Binary64.mul (inject_Z (Z.of_nat 0))
                                (Binary64.sliceAngle [x]))
                  (Binary64.add
                     (Binary64.mul (inject_Z (Z.of_nat 0))
                                   (Binary64.sliceAngle [x]))
                     (Binary64.sliceAngle [x])) = "1"%string)
      by (vm_compute; reflexivity).
    rewrite E. simpl. split; split; intros; trivial; try lia; discriminate.
  - assert (E : forall k, (k < 2)%nat ->
              Binary64.largeArcFlag
                  (Binary64.mul (inject_Z (Z.of_nat k))
                                (Binary64.sliceAngle [x; y]))
                  (Binary64.add
                     (Binary64.mul (inject_Z (Z.of_nat k))
                                   (Binary64.sliceAngle [x; y]))
                     (Binary64.sliceAngle [x; y])) = "0"%string).
    { intros k Hk. destruct k as [|[|k]]; [| |lia]; vm_compute; reflexivity. }
    rewrite (E i Hlt). simpl.
    split; split; intros; trivial; try lia; discriminate.
  - rewrite (largeArc64_narrow (x :: y :: z :: rest) i Hlt)
      by (simpl; lia).
    simpl. split; split; intros; trivial; try lia; discriminate.
Qed.

Lemma largeArc64_only_single_item_witness :
  nth_error (Binary64.renderSlices seven None) 6
  = Some (Binary64.renderSlice seven None (participant "g") 6) /\
  v_largeArc (Binary64.renderSlice seven None (participant "g") 6)
  = "0"%string.
Proof.
  assert (H1 : nth_error (Binary64.renderSlices seven None) 6
               = Some (Binary64.renderSlice seven None (participant "g") 6))
    by reflexivity.
  destruct (largeArc64_only_single_item seven None 6 _ H1) as [_ [_ B]].
  split; [exact H1|]. apply B. simpl. lia.
Defined.

(** ** Where the wheel stops *)

(** [current] shows the orientation of the rotation up to the rounding
    of its one sum. *)
Lemma current64_orientation (rot : Q) :
  exists k : Z,
    - (Binary64.ulp53 * 720) <= Binary64.current rot - rot - 360 * inject_Z k /\
    Binary64.current rot - rot - 360 * inject_Z k <= Binary64.ulp53 * 720.
Proof.
  unfold Binary64.current.
  pose proof (js_rem_turns rot) as E1.
  destruct (js_rem_range rot) as [R1 R2].
  set (r1 := js_rem rot 360) in *.
  destruct (round_error (r1 + 360) 720) as [A1 A2]; [lra|lra|].
  fold (Binary64.add r1 360) in A1, A2.
  pose proof (js_rem_turns (Binary64.add r1 360)) as E2.
  set (a1 := Binary64.add r1 360) in *.
  set (t1 := Qtrunc (rot / 360)) in *.
  set (t2 := Qtrunc (a1 / 360)) in *.
  exists (1 - t1 - t2)%Z. unfold Z.sub.
  rewrite !inject_Z_plus, !inject_Z_opp. change (inject_Z 1) with 1.
  split; lra.
Qed.

(** The target of a spin against the code's own [360 - winnerAngle]. *)
Lemma nextRotation64_alignment (its : list WheelItem) (i : nat) (rot sp : Q)
    (s : Z) :
  (i < List.length its)%nat ->
  sp == inject_Z s -> (0 <= s)%Z -> ((s + 1) * 360 <= 2 ^ 53)%Z ->
  0 <= rot ->
  let wA := Binary64.winnerAngle its (Z.of_nat i) in
  let next := Binary64.nextRotation its (Z.of_nat i) rot sp in
  let eps := Binary64.ulp53 * (rot + inject_Z s * 1440 + 3606) in
  0 <= next /\ next <= 2 * (rot + inject_Z s * 360 + 360) /\
  exists k : Z,
    - eps <= next - (360 - wA) - 360 * inject_Z k /\
    next - (360 - wA) - 360 * inject_Z k <= eps.
Proof.
  intros Hi Hs Ps Bs R0 wA next eps.
  destruct (deltaForward64_alignment its i rot sp s Hi Hs Ps Bs) as [k [A1 A2]].
  fold wA in A1, A2.
  destruct (current64_orientation rot) as [j [C1 C2]].
  assert (M : Binary64.mul sp 360 == inject_Z s * 360)
    by (apply turns64_exact; trivial; lia).
  pose proof (deltaForward64_lower its (Z.of_nat i) rot sp) as L.
  pose proof (deltaForward64_upper its (Z.of_nat i) rot sp s Hs Ps Bs) as U.
  assert (S0 : 0 <= inject_Z s)
    by (change 0 with (inject_Z 0); rewrite <- Zle_Qle; lia).
  destruct ulp53_small as [U0 U1].
  set (u := Binary64.ulp53) in *.
  set (delta := Binary64.deltaForward its (Z.of_nat i) rot sp) in *.
  set (cur := Binary64.current rot) in *.
  destruct (round_error (rot + delta) (rot + inject_Z s * 360 + 360))
    as [E1 E2]; [lra|lra|].
  fold u in E1, E2.
  assert (N : next = Binary64.round (rot + delta)) by reflexivity.
  rewrite <- N in E1, E2.
  assert (N0 : 0 <= next).
  { rewrite N. apply round_above_float; [exact float64_0|lra]. }
  split; [exact N0|]. split; [nra|].
  exists (k - j)%Z. unfold Z.sub. rewrite inject_Z_plus, inject_Z_opp.
  unfold eps. split; lra.
Qed.

(** The middle of the winner's slice on screen, for any value [x] of
    the rotation equal to the target: straight up, at 270 degrees, up
    to rounding. *)
Lemma pointer64_alignment (its : list WheelItem) (i : nat) (rot sp x : Q)
    (s : Z) :
  (i < List.length its)%nat ->
  sp == inject_Z s -> (0 <= s)%Z -> ((s + 1) * 360 <= 2 ^ 53)%Z ->
  0 <= rot ->
  x == Binary64.nextRotation its (Z.of_nat i) rot sp ->
  let eps := Binary64.ulp53 * (3 * rot + inject_Z s * 2160 + 4416) in
  exists k : Z,
    - eps <= Binary64.screenAngle x (Binary64.winnerAngle its (Z.of_nat i))
             - 270 - 360 * inject_Z k /\
    Binary64.screenAngle x (Binary64.winnerAngle its (Z.of_nat i))
    - 270 - 360 * inject_Z k <= eps.
Proof.
  intros Hi Hs Ps Bs R0 X eps.
  destruct (nextRotation64_alignment its i rot sp s Hi Hs Ps Bs R0)
    as (N0 & N1 & k & A1 & A2).
  assert (S0 : 0 <= inject_Z s)
    by (change 0 with (inject_Z 0); rewrite <- Zle_Qle; lia).
  destruct ulp53_small as [U0 U1].
  set (u := Binary64.ulp53) in *.
  set (next := Binary64.nextRotation its (Z.of_nat i) rot sp) in *.
  set (wA := Binary64.winnerAngle its (Z.of_nat i)) in *.
  destruct (round_error (x - 90) (2 * rot + inject_Z s * 720 + 810))
    as [E1 E2]; [lra|lra|].
  fold (Binary64.sub x 90) in E1, E2. fold u in E1, E2.
  unfold Binary64.screenAngle, Binary64.wheelRotate.
  exists k. unfold eps. split; lra.
Qed.

(** X6. When a lone spin to a known target has settled, the middle of
    the winner's slice is drawn at screen angle 270, straight up, where
    the pointer sits above the wheel, up to the rounding of the
    arithmetic: at most [2^-53 * (3 * rotation + 2160 * s + 4416)]
    degrees off, for a spin of [s] whole turns from a rotation [>= 0].
    It is already so for the target of the CSS transition started by
    the frame callback.  The slice at the found index carries the
    requested id and its label is drawn bold (weight 800). *)
Theorem winner_slice64_under_pointer (p : Props) (winnerId : string)
    (opts : option Binary64.SpinOpts) (w : World) (i : nat) (v : SliceView)
    (s : Z) :
  quiescent w = true ->
  findIndex (has_id winnerId) (items p) = Z.of_nat i ->
  Binary64.spinsOf opts == inject_Z s ->
  (0 <= s)%Z -> ((s + 1) * 360 <= 2 ^ 53)%Z ->
  0 <= rotation w ->
  let w2 := Binary64.run w [Binary64.SpinTo p winnerId opts;
                            Binary64.AnimationFrame] in
  let w3 := Binary64.step w2 Binary64.TransitionEnd in
  nth_error (Binary64.renderSlices (items p) (selectedId w3)) i = Some v ->
  let eps :=
    Binary64.ulp53 * (3 * rotation w + inject_Z s * 2160 + 4416) in
  (exists k : Z,
      - eps <= Binary64.screenAngle (rotation w2) (v_mid v)
               - 270 - 360 * inject_Z k /\
      Binary64.screenAngle (rotation w2) (v_mid v) - 270 - 360 * inject_Z k
      <= eps) /\
  (exists k : Z,
      - eps <= Binary64.screenAngle (rotation w3) (v_mid v)
               - 270 - 360 * inject_Z k /\
      Binary64.screenAngle (rotation w3) (v_mid v) - 270 - 360 * inject_Z k
      <= eps) /\
  v_fontWeight v = 800%Z /\
  exists it, nth_error (items p) i = Some it /\ id it = winnerId /\
             v_label v = label it.
Proof.
  intros Q Hidx Hs Ps Bs R0 w2 w3 Hv eps.
  assert (K : findIndex (has_id winnerId) (items p) <> (-1)%Z)
    by (rewrite Hidx; lia).
  assert (E2 : w2 = turning (Binary64.scheduled p winnerId opts w) w)
    by (apply lone_spin64_frame; assumption).
  assert (E3 : w3 = Binary64.settled (Binary64.scheduled p winnerId opts w) w).
  { unfold w3. rewrite E2. apply lone_spin64_end. }
  destruct (renderSlices64_nth _ _ _ _ Hv) as [it [Hi Ev]].
  destruct (findIndex_known _ _ _ Hidx) as [it' [Hi' Hid]].
  assert (it' = it) by congruence. subst it'.
  assert (Hlt : (i < List.length (items p))%nat)
    by (apply nth_error_Some; congruence).
  assert (M : v_mid v = Binary64.winnerAngle (items p) (Z.of_nat i))
    by (rewrite Ev; reflexivity).
  assert (R2 : rotation w2
               == Binary64.nextRotation (items p) (Z.of_nat i) (rotation w)
                    (Binary64.spinsOf opts)).
  { rewrite E2. simpl. rewrite Hidx. reflexivity. }
  assert (R3 : rotation w3
               == Binary64.nextRotation (items p) (Z.of_nat i) (rotation w)
                    (Binary64.spinsOf opts)).
  { rewrite E3, <- Hidx. apply settled64_rotation. }
  split.
  { rewrite M.
    exact (pointer64_alignment (items p) i (rotation w)
             (Binary64.spinsOf opts) (rotation w2) s Hlt Hs Ps Bs R0 R2). }
  split.
  { rewrite M.
    exact (pointer64_alignment (items p) i (rotation w)
             (Binary64.spinsOf opts) (rotation w3) s Hlt Hs Ps Bs R0 R3). }
  split.
  { rewrite Ev, E3. simpl. unfold isSelected. rewrite Hid.
    now rewrite String.eqb_refl. }
  exists it. rewrite Ev. now repeat split.
Qed.

Lemma winner_slice64_under_pointer_witness :
  quiescent mounted = true /\
  findIndex (has_id "b") (items sevenRoom) = Z.of_nat 1 /\
  Binary64.spinsOf (Binary64.turns 1) == inject_Z 1 /\
  (0 <= 1)%Z /\ ((1 + 1) * 360 <= 2 ^ 53)%Z /\
  0 <= rotation mounted /\
  nth_error (Binary64.renderSlices (items sevenRoom) (Some "b"%string)) 1
  = Some (Binary64.renderSlice seven (Some "b"%string) (participant "b") 1) /\
  v_fontWeight
    (Binary64.renderSlice seven (Some "b"%string) (participant "b") 1)
  = 800%Z.
Proof.
  assert (H1 : quiescent mounted = true) by reflexivity.
  assert (H2 : findIndex (has_id "b") (items sevenRoom) = Z.of_nat 1)
    by reflexivity.
  assert (H3 : Binary64.spinsOf (Binary64.turns 1) == inject_Z 1)
    by reflexivity.
  assert (H4 : (0 <= 1)%Z) by lia.
  assert (H5 : ((1 + 1) * 360 <= 2 ^ 53)%Z) by (vm_compute; discriminate).
  assert (H6 : 0 <= rotation mounted) by (vm_compute; discriminate).
  assert (H7 : nth_error (Binary64.renderSlices (items sevenRoom)
                            (Some "b"%string)) 1
               = Some (Binary64.renderSlice seven (Some "b"%string)
                         (participant "b") 1)) by reflexivity.
  pose proof (winner_slice64_under_pointer sevenRoom "b" (Binary64.turns 1)
                mounted 1 _ 1 H1 H2 H3 H4 H5 H6 H7) as T.
  cbv zeta in T. destruct T as (_ & _ & A & _).
  split; [exact H1|]. split; [exact H2|]. split; [exact H3|].
  split; [exact H4|]. split; [exact H5|]. split; [exact H6|].
  split; [exact H7|exact A].
Defined.

(** X12. A draw on the page, end to end. If the winner the server names
    is a participant of the room the page shows, the [spinTo] of
    [handleDraw] is not dropped: the wheel settles with the slice of the
    first participant carrying that id straight up under the pointer
    (up to the rounding of the arithmetic), its label (the
    participant's name) bold; [onDone] is called once with the id; and
    [handleWheelDone] makes that participant the winner, clears the
    loading flag and the error. *)
Theorem draw64_lands_on_participant (pg : Page) (r : RoomState)
    (targetWinner q : Participant) (w : World) :
  st_room pg = Some r ->
  quiescent w = true ->
  0 <= rotation w ->
  List.find (fun x => String.eqb (p_id x) (p_id targetWinner))
            (participants r) = Some q ->
  let w3 := Binary64.run (Binary64.handleDraw_resolved targetWinner pg w)
              [Binary64.AnimationFrame; Binary64.TransitionEnd] in
  let eps := Binary64.ulp53 * (3 * rotation w + 17376) in
  (exists i v,
      nth_error (participants r) i = Some q /\
      nth_error (Binary64.renderSlices (pageItems pg) (selectedId w3)) i
      = Some v /\
      v_label v = p_name q /\
      v_fontWeight v = 800%Z /\
      exists k : Z,
        - eps <= Binary64.screenAngle (rotation w3) (v_mid v)
                 - 270 - 360 * inject_Z k /\
        Binary64.screenAngle (rotation w3) (v_mid v)
        - 270 - 360 * inject_Z k <= eps) /\
  doneCalls w3 = (doneCalls w ++ [p_id targetWinner])%list /\
  selectedId w3 = Some (p_id targetWinner) /\
  phase w3 = Settled /\
  forall pg',
    let done := handleWheelDone (st_room pg) (p_id targetWinner) pg' in
    st_winner done = Some q /\
    st_loadingDraw done = false /\
    st_error done = None /\
    st_room done = st_room pg'.
Proof.
  intros Hr Q R0 F w3 eps.
  destruct (pageItems_findIndex _ _ _ 0%Z F) as [i [Hn Hf]].
  assert (Hidx : findIndex (has_id (p_id targetWinner)) (items (wheelProps pg))
                 = Z.of_nat i).
  { unfold wheelProps, pageItems; simpl. rewrite Hr. exact Hf. }
  assert (K : findIndex (has_id (p_id targetWinner)) (items (wheelProps pg))
              <> (-1)%Z) by (rewrite Hidx; lia).
  assert (E3 : w3 = Binary64.settled
                      (Binary64.scheduled (wheelProps pg) (p_id targetWinner)
                                          (Binary64.turns 6) w) w).
  { unfold w3, Binary64.handleDraw_resolved. simpl.
    rewrite lone_spin64_frame by assumption. apply lone_spin64_end. }
  assert (Hit : nth_error (pageItems pg) i
                = Some {| id := p_id q; label := p_name q |}).
  { unfold pageItems. rewrite Hr. simpl. rewrite nth_error_map, Hn.
    reflexivity. }
  assert (Hlt : (i < List.length (pageItems pg))%nat)
    by (apply nth_error_Some; congruence).
  assert (Hq : p_id q = p_id targetWinner).
  { apply find_some in F as [_ F]. now apply String.eqb_eq in F. }
  assert (R3 : rotation w3
               == Binary64.nextRotation (pageItems pg) (Z.of_nat i)
                    (rotation w) (Binary64.spinsOf (Binary64.turns 6))).
  { rewrite E3.
    change (pageItems pg) with (items (wheelProps pg)).
    rewrite <- Hidx. apply settled64_rotation. }
  split.
  { exists i, (Binary64.renderSlice (pageItems pg) (selectedId w3)
                 {| id := p_id q; label := p_name q |} i).
    split; [exact Hn|]. split.
    { unfold Binary64.renderSlices. rewrite mapi_nth, Hit. reflexivity. }
    split; [reflexivity|]. split.
    { rewrite E3. simpl. unfold isSelected. simpl. rewrite Hq.
      now rewrite String.eqb_refl. }
    destruct (pointer64_alignment (pageItems pg) i (rotation w)
                (Binary64.spinsOf (Binary64.turns 6)) (rotation w3) 6
                Hlt ltac:(reflexivity) ltac:(lia)
                ltac:(vm_compute; discriminate) R0 R3) as [k [A1 A2]].
    exists k. unfold eps.
    change (v_mid (Binary64.renderSlice (pageItems pg) (selectedId w3)
                     {| id := p_id q; label := p_name q |} i))
      with (Binary64.winnerAngle (pageItems pg) (Z.of_nat i)).
    change (inject_Z 6) with 6 in A1, A2. split; lra. }
  split. { now rewrite E3. }
  split. { now rewrite E3. }
  split. { now rewrite E3. }
  intros pg' done. unfold done, handleWheelDone, loadRoom_start.
  simpl. rewrite Hr. simpl. rewrite F. now repeat split.
Qed.

Lemma draw64_lands_on_participant_witness :
  st_room readyPage = Some fourPlayers /\
  quiescent mounted = true /\
  0 <= rotation mounted /\
  List.find (fun x => String.eqb (p_id x) "C") (participants fourPlayers)
  = Some {| p_id := "C"; p_name := "Cy" |} /\
  st_winner (handleWheelDone (st_room readyPage) "C"
               (fst (handleDraw_start readyPage)))
  = Some {| p_id := "C"; p_name := "Cy" |}.
Proof.
  assert (H1 : st_room readyPage = Some fourPlayers) by reflexivity.
  assert (H2 : quiescent mounted = true) by reflexivity.
  assert (H0 : 0 <= rotation mounted) by (vm_compute; discriminate).
  assert (H3 : List.find (fun x => String.eqb
                                     (p_id x)
                                     (p_id {| p_id := "C"; p_name := "?" |}))
                         (participants fourPlayers)
               = Some {| p_id := "C"; p_name := "Cy" |}) by reflexivity.
  split; [exact H1|]. split; [exact H2|]. split; [exact H0|].
  split; [exact H3|].
  pose proof (draw64_lands_on_participant readyPage fourPlayers
                {| p_id := "C"; p_name := "?" |} _ mounted H1 H2 H0 H3) as T.
  cbv zeta in T. destruct T as (_ & _ & _ & _ & A).
  exact (proj1 (A (fst (handleDraw_start readyPage)))).
Defined.

(** ** Spinning again to the same item *)

(** A value within [s * 360] and [(s + 1) * 360] that is a whole number
    of turns up to [e] is within [e] of one of the two ends. *)
Lemma near_whole_turn (d e : Q) (s m : Z) :
  inject_Z s * 360 <= d -> d <= (inject_Z s + 1) * 360 ->
  - e <= d - 360 * inject_Z m -> d - 360 * inject_Z m <= e ->
  d - inject_Z s * 360 <= e \/ (inject_Z s + 1) * 360 - d <= e.
Proof.
  intros L U A B.
  destruct (Qlt_le_dec e 360) as [Small|Big]; [|left; lra].
  destruct (Z_lt_le_dec m s) as [Lo|Hi].
  - exfalso. assert (H : (m + 1 <= s)%Z) by lia.
    apply Z_Q_le in H. rewrite inject_Z_plus in H.
    change (inject_Z 1) with 1 in H. lra.
  - destruct (Z_le_gt_dec m (s + 1)) as [Le|Gt].
    + destruct (Z.eq_dec m s) as [->|Ne].
      * left. lra.
      * assert (m = s + 1)%Z by lia. subst m. right.
        rewrite inject_Z_plus in A, B. change (inject_Z 1) with 1 in A, B.
        lra.
    + exfalso. assert (H : (s + 2 <= m)%Z) by lia.
      apply Z_Q_le in H. rewrite inject_Z_plus in H.
      change (inject_Z 2) with 2 in H. lra.
Qed.

(** The delta of a spin from [x], a rotation a spin to the same index
    had as its target. *)
Lemma respin64_alignment (its : list WheelItem) (i : nat)
    (rot sp sp2 x : Q) (s s2 : Z) :
  (i < List.length its)%nat ->
  sp == inject_Z s -> (0 <= s)%Z -> ((s + 1) * 360 <= 2 ^ 53)%Z ->
  sp2 == inject_Z s2 -> (0 <= s2)%Z -> ((s2 + 1) * 360 <= 2 ^ 53)%Z ->
  0 <= rot ->
  x == Binary64.nextRotation its (Z.of_nat i) rot sp ->
  let delta := Binary64.deltaForward its (Z.of_nat i) x sp2 in
  let eps :=
    Binary64.ulp53 * (rot + inject_Z s * 1440 + inject_Z s2 * 1080 + 6852) in
  inject_Z s2 * 360 <= delta /\ delta <= (inject_Z s2 + 1) * 360 /\
  (delta - inject_Z s2 * 360 <= eps \/
   (inject_Z s2 + 1) * 360 - delta <= eps).
Proof.
  intros Hi Hs Ps Bs Hs2 Ps2 Bs2 R0 X delta eps.
  destruct (nextRotation64_alignment its i rot sp s Hi Hs Ps Bs R0)
    as (_ & _ & k1 & C1 & C2).
  destruct (deltaForward64_alignment its i x sp2 s2 Hi Hs2 Ps2 Bs2)
    as [k [A1 A2]].
  destruct (current64_orientation x) as [j [B1 B2]].
  fold delta in A1, A2.
  assert (M : Binary64.mul sp2 360 == inject_Z s2 * 360)
    by (apply turns64_exact; trivial; lia).
  pose proof (deltaForward64_lower its (Z.of_nat i) x sp2) as L.
  pose proof (deltaForward64_upper its (Z.of_nat i) x sp2 s2 Hs2 Ps2 Bs2) as U.
  fold delta in L, U.
  assert (L' : inject_Z s2 * 360 <= delta) by lra.
  split; [exact L'|]. split; [exact U|].
  apply (near_whole_turn delta eps s2 (k - k1 - j)%Z L' U);
    unfold Z.sub; rewrite !inject_Z_plus, !inject_Z_opp; unfold eps; lra.
Qed.

(** X2. Spinning again to the item the wheel has just settled on, with
    the same item list, turns whole turns up to rounding: the delta
    lies in [[s2 * 360, (s2 + 1) * 360]] and within the rounding error
    of one of the two ends. *)
Theorem respin64_same_target_whole_turns (p : Props) (winnerId : string)
    (opts again : option Binary64.SpinOpts) (w : World) (i : nat)
    (s s2 : Z) :
  quiescent w = true ->
  findIndex (has_id winnerId) (items p) = Z.of_nat i ->
  Binary64.spinsOf opts == inject_Z s ->
  (0 <= s)%Z -> ((s + 1) * 360 <= 2 ^ 53)%Z ->
  Binary64.spinsOf again == inject_Z s2 ->
  (0 <= s2)%Z -> ((s2 + 1) * 360 <= 2 ^ 53)%Z ->
  0 <= rotation w ->
  let w3 := Binary64.run w (Binary64.spinCycle (p, winnerId, opts)) in
  let delta :=
    Binary64.deltaForward (items p) (Z.of_nat i) (rotation w3)
                          (Binary64.spinsOf again) in
  let eps :=
    Binary64.ulp53
    * (rotation w + inject_Z s * 1440 + inject_Z s2 * 1080 + 6852) in
  (exists cb,
      rafQueue (Binary64.spinTo p winnerId again w3) = [cb] /\
      f_nextRotation cb = Binary64.add (rotation w3) delta) /\
  inject_Z s2 * 360 <= delta /\ delta <= (inject_Z s2 + 1) * 360 /\
  (delta - inject_Z s2 * 360 <= eps \/
   (inject_Z s2 + 1) * 360 - delta <= eps).
Proof.
  intros Q Hidx Hs Ps Bs Hs2 Ps2 Bs2 R0 w3 delta eps.
  assert (K : findIndex (has_id winnerId) (items p) <> (-1)%Z)
    by (rewrite Hidx; lia).
  assert (E3 : w3 = Binary64.settled (Binary64.scheduled p winnerId opts w) w)
    by (apply lone_spin64_run; assumption).
  destruct (findIndex_known _ _ _ Hidx) as [it [Hn Hid]].
  assert (Hlt : (i < List.length (items p))%nat)
    by (apply nth_error_Some; congruence).
  assert (R3 : rotation w3
               == Binary64.nextRotation (items p) (Z.of_nat i) (rotation w)
                    (Binary64.spinsOf opts)).
  { rewrite E3, <- Hidx. apply settled64_rotation. }
  split.
  { exists (Binary64.scheduled p winnerId again w3).
    rewrite spinTo64_known by exact K.
    unfold Binary64.scheduled; simpl. rewrite Hidx. rewrite E3 at 1.
    split; reflexivity. }
  exact (respin64_alignment (items p) i (rotation w) (Binary64.spinsOf opts)
           (Binary64.spinsOf again) (rotation w3) s s2
           Hlt Hs Ps Bs Hs2 Ps2 Bs2 R0 R3).
Qed.

(** Both ends occur.  With seven items, a spin to [b] with six turns
    settles at [2442.857142857143]; a snap to [b] (no turns) is then
    asked to move by [359.9999999999998], nearly a whole turn, while a
    snap to [a] after a spin to [a] is asked to move by [2^-44]. *)
Lemma respin_snap_can_turn_once :
  let wb := Binary64.run mounted
              (Binary64.spinCycle (sevenRoom, "b"%string, Binary64.turns 6)) in
  let wa := Binary64.run mounted
              (Binary64.spinCycle (sevenRoom, "a"%string, Binary64.turns 6)) in
  rotation wb == 1342974916783543 # 549755813888 /\
  Binary64.deltaForward seven 1 (rotation wb) 0
  == 1583296743997439 # 4398046511104 /\
  Binary64.deltaForward seven 0 (rotation wa) 0 == 1 # 17592186044416.
Proof.
  intros wb wa.
  repeat match goal with |- _ /\ _ => split end; vm_compute; reflexivity.
Qed.

Lemma respin64_same_target_whole_turns_witness :
  quiescent mounted = true /\
  findIndex (has_id "b") (items sevenRoom) = Z.of_nat 1 /\
  Binary64.spinsOf (Binary64.turns 6) == inject_Z 6 /\
  (0 <= 6)%Z /\ ((6 + 1) * 360 <= 2 ^ 53)%Z /\
  Binary64.spinsOf (Binary64.turns 0) == inject_Z 0 /\
  (0 <= 0)%Z /\ ((0 + 1) * 360 <= 2 ^ 53)%Z /\
  0 <= rotation mounted /\
  Binary64.deltaForward (items sevenRoom) (Z.of_nat 1)
    (rotation (Binary64.run mounted
                 (Binary64.spinCycle
                    (sevenRoom, "b"%string, Binary64.turns 6))))
    (Binary64.spinsOf (Binary64.turns 0))
  <= (inject_Z 0 + 1) * 360.
Proof.
  assert (H1 : quiescent mounted = true) by reflexivity.
  assert (H2 : findIndex (has_id "b") (items sevenRoom) = Z.of_nat 1)
    by reflexivity.
  assert (H3 : Binary64.spinsOf (Binary64.turns 6) == inject_Z 6)
    by reflexivity.
  assert (H4 : (0 <= 6)%Z) by lia.
  assert (H5 : ((6 + 1) * 360 <= 2 ^ 53)%Z) by (vm_compute; discriminate).
  assert (H6 : Binary64.spinsOf (Binary64.turns 0) == inject_Z 0)
    by reflexivity.
  assert (H7 : (0 <= 0)%Z) by lia.
  assert (H8 : ((0 + 1) * 360 <= 2 ^ 53)%Z) by (vm_compute; discriminate).
  assert (H9 : 0 <= rotation mounted) by (vm_compute; discriminate).
  pose proof (respin64_same_target_whole_turns sevenRoom "b"
                (Binary64.turns 6) (Binary64.turns 0) mounted 1 6 0
                H1 H2 H3 H4 H5 H6 H7 H8 H9) as T.
  cbv zeta in T. destruct T as (_ & _ & A & _).
  split; [exact H1|]. split; [exact H2|]. split; [exact H3|].
  split; [exact H4|]. split; [exact H5|]. split; [exact H6|].
  split; [exact H7|]. split; [exact H8|]. split; [exact H9|exact A].
Defined.

(** ** Spins run one after the other *)





(** ** Wheels on which nothing rounds *)

Lemma whole_Z (z : Z) : whole (inject_Z z).
Proof. now exists z. Qed.

Lemma whole_eq (x y : Q) : x == y -> whole x -> whole y.
Proof. intros E [z H]. exists z. now rewrite <- E. Qed.

Lemma whole_plus (x y : Q) : whole x -> whole y -> whole (x + y).
Proof.
  intros [a A] [b B]. exists (a + b)%Z. rewrite inject_Z_plus, A, B.
  reflexivity.
Qed.

Lemma whole_minus (x y : Q) : whole x -> whole y -> whole (x - y).
Proof.
  intros [a A] [b B]. exists (a - b)%Z. unfold Z.sub.
  rewrite inject_Z_plus, inject_Z_opp, A, B. reflexivity.
Qed.

Lemma whole_mult (x y : Q) : whole x -> whole y -> whole (x * y).
Proof.
  intros [a A] [b B]. exists (a * b)%Z. rewrite inject_Z_mult, A, B.
  reflexivity.
Qed.

Lemma whole_js_rem (x : Q) : whole x -> whole (js_rem x 360).
Proof.
  intros H. unfold js_rem. apply whole_minus; [exact H|].
  apply whole_mult; [apply (whole_Z 360)|apply whole_Z].
Qed.

Lemma Qtrunc_eq (a b : Q) : a == b -> Qtrunc a = Qtrunc b.
Proof.
  intros H. unfold Qtrunc.
  rewrite (Qleb_comp 0 0 (Qeq_refl 0) a b H).
  now rewrite (Qfloor_comp a b H), (Qceiling_comp a b H).
Qed.

Lemma js_rem_eq (a b : Q) : a == b -> js_rem a 360 == js_rem b 360.
Proof.
  intros H. unfold js_rem.
  assert (E : a / 360 == b / 360) by (rewrite H; reflexivity).
  rewrite (Qtrunc_eq _ _ E), H. reflexivity.
Qed.

(** A whole number within [2^53] is a binary64 value: rounding a value
    equal to it gives it back. *)
Lemma round_whole (x y : Q) :
  x == y -> whole y ->
  - (9007199254740992) <= y -> y <= 9007199254740992 ->
  Binary64.round x == y.
Proof.
  intros E [z Hz] L U.
  assert (F : Binary64.float64 x).
  { apply (float64_eq (inject_Z z)); [rewrite E, Hz; reflexivity|].
    apply float64_Z. rewrite Hz in L, U.
    change 9007199254740992 with (inject_Z (2 ^ 53)) in L, U.
    rewrite <- inject_Z_opp in L. apply Q_Z_le in L, U. lia. }
  rewrite (round_float x F). exact E.
Qed.

Lemma half_slice_whole (its : list WheelItem) :
  (1 <= List.length its)%nat ->
  (180 mod Z.of_nat (List.length its) = 0)%Z ->
  whole (sliceAngle its / 2) /\ whole (sliceAngle its) /\
  sliceAngle its == 360 / count its /\ 0 < sliceAngle its /\
  sliceAngle its <= 360.
Proof.
  intros HN D. pose proof (count_positive its HN) as CP.
  assert (L : (0 <? List.length its)%nat = true) by (apply Nat.ltb_lt; lia).
  unfold sliceAngle. rewrite L.
  set (n := Z.of_nat (List.length its)) in *.
  assert (E : (180 = n * (180 / n))%Z) by (apply Z.div_exact; lia).
  assert (Eq : 180 == count its * inject_Z (180 / n)).
  { unfold count. fold n. rewrite <- inject_Z_mult, <- E. reflexivity. }
  assert (H : 360 / count its / 2 == inject_Z (180 / n)).
  { set (k := inject_Z (180 / n)) in *.
    assert (T : 360 / count its / 2 == (count its * k) / count its)
      by (rewrite <- Eq; field; lra).
    rewrite T. field. lra. }
  assert (C1 : 1 <= count its).
  { unfold count. change 1 with (inject_Z 1). rewrite <- Zle_Qle. lia. }
  set (q := 360 / count its) in *.
  assert (QN : q * count its == 360) by (unfold q; field; lra).
  split; [exists (180 / n)%Z; exact H|]. split.
  { exists (2 * (180 / n))%Z. rewrite inject_Z_mult, <- H.
    change (inject_Z 2) with 2. field. }
  split; [reflexivity|]. split; nra.
Qed.

(** The exact middle of the slice. *)
Lemma winnerAngle_mid (its : list WheelItem) (idx : Z) :
  (1 <= List.length its)%nat ->
  winnerAngle its idx == inject_Z idx * 360 / count its + 180 / count its.
Proof.
  intros HN. pose proof (count_positive its HN) as CP.
  unfold winnerAngle, sliceAngle.
  destruct (0 <? List.length its)%nat eqn:E.
  - field. lra.
  - apply Nat.ltb_ge in E. lia.
Qed.

Lemma deltaForward_upper (its : list WheelItem) (idx sp : Z) (rot : Q) :
  deltaForward its idx rot sp < (inject_Z sp + 1) * 360.
Proof.
  unfold deltaForward.
  destruct (js_norm_range (targetAbs its idx sp - current rot)). lra.
Qed.

Lemma deltaForward_orientation (its : list WheelItem) (idx sp : Z) (rot : Q) :
  same_orientation (current rot + deltaForward its idx rot sp)
                   (360 - winnerAngle its idx).
Proof.
  destruct (js_norm_turns (targetAbs its idx sp - current rot)) as [k E].
  exists (k + 2 * sp)%Z. unfold deltaForward. rewrite E.
  unfold targetAbs. rewrite inject_Z_plus, inject_Z_mult.
  change (inject_Z 2) with 2. lra.
Qed.

Lemma whole_bounds (rot : Q) (r s : Z) :
  rot == inject_Z r -> (0 <= s)%Z ->
  (Z.abs r + (s + 2) * 360 <= 2 ^ 53)%Z ->
  0 <= inject_Z s /\
  - (9007199254740992) + (inject_Z s + 2) * 360 <= rot /\
  rot <= 9007199254740992 - (inject_Z s + 2) * 360.
Proof.
  intros Hrot Hs Hbound.
  assert (S0 : 0 <= inject_Z s)
    by (change 0 with (inject_Z 0); rewrite <- Zle_Qle; lia).
  assert (A : (r <= 2 ^ 53 - (s + 2) * 360)%Z) by lia.
  assert (B : (- (2 ^ 53) + (s + 2) * 360 <= r)%Z) by lia.
  apply Z_Q_le in A, B.
  unfold Z.sub in A. rewrite !inject_Z_plus, ?inject_Z_opp, !inject_Z_mult,
    !inject_Z_plus in A, B.
  change (inject_Z (2 ^ 53)) with 9007199254740992 in A, B.
  change (inject_Z 2) with 2 in A, B. change (inject_Z 360) with 360 in A, B.
  rewrite Hrot. split; [exact S0|]. split; lra.
Qed.

Lemma sliceAngle64_exact (its : list WheelItem) :
  (1 <= List.length its)%nat ->
  (180 mod Z.of_nat (List.length its) = 0)%Z ->
  Binary64.sliceAngle its == sliceAngle its.
Proof.
  intros HN Hdiv.
  destruct (half_slice_whole its HN Hdiv) as (_ & W & E & P & U).
  assert (L : (0 <? List.length its)%nat = true) by (apply Nat.ltb_lt; lia).
  unfold Binary64.sliceAngle, Binary64.div. rewrite L.
  apply round_whole; [symmetry; exact E|exact W|lra|lra].
Qed.

Lemma winnerAngle64_exact (its : list WheelItem) (i : nat) :
  (i < List.length its)%nat ->
  (180 mod Z.of_nat (List.length its) = 0)%Z ->
  Binary64.winnerAngle its (Z.of_nat i) == winnerAngle its (Z.of_nat i) /\
  whole (winnerAngle its (Z.of_nat i)) /\
  0 < winnerAngle its (Z.of_nat i) /\ winnerAngle its (Z.of_nat i) < 360.
Proof.
  intros Hi Hdiv.
  assert (HN : (1 <= List.length its)%nat) by lia.
  destruct (half_slice_whole its HN Hdiv) as (Wh & W & E & P & U).
  destruct (winnerAngle64_error its i Hi) as (M0 & M1 & _).
  pose proof (winnerAngle_mid its (Z.of_nat i) HN) as M.
  rewrite <- M in M0, M1.
  pose proof (sliceAngle64_exact its HN Hdiv) as SA.
  assert (I0 : 0 <= inject_Z (Z.of_nat i)).
  { change 0 with (inject_Z 0). rewrite <- Zle_Qle. lia. }
  assert (Hh : sliceAngle its / 2 * 2 == sliceAngle its) by field.
  assert (P1 : 0 <= inject_Z (Z.of_nat i) * sliceAngle its) by nra.
  assert (W1 : whole (inject_Z (Z.of_nat i) * sliceAngle its))
    by (apply whole_mult; [apply whole_Z|exact W]).
  assert (E1 : Binary64.mul (inject_Z (Z.of_nat i)) (Binary64.sliceAngle its)
               == inject_Z (Z.of_nat i) * sliceAngle its).
  { unfold Binary64.mul. apply round_whole; trivial.
    - rewrite SA. reflexivity.
    - lra.
    - unfold winnerAngle in M1. lra. }
  assert (E2 : Binary64.div (Binary64.sliceAngle its) 2 == sliceAngle its / 2).
  { unfold Binary64.div. apply round_whole; trivial.
    - rewrite SA. reflexivity.
    - lra.
    - lra. }
  assert (W2 : whole (winnerAngle its (Z.of_nat i)))
    by (apply whole_plus; assumption).
  split; [|split; [exact W2|split; assumption]].
  unfold Binary64.winnerAngle, Binary64.add.
  apply round_whole; trivial; [|lra|lra].
  rewrite E1, E2. reflexivity.
Qed.

Lemma current64_exact (rot : Q) (r : Z) :
  rot == inject_Z r ->
  Binary64.current rot == current rot /\ whole (current rot).
Proof.
  intros Hrot.
  assert (Wr : whole rot) by (exists r; exact Hrot).
  destruct (js_rem_range rot) as [R1 R2].
  assert (W1 : whole (js_rem rot 360 + 360))
    by (apply whole_plus; [now apply whole_js_rem|apply (whole_Z 360)]).
  assert (E1 : Binary64.add (js_rem rot 360) 360 == js_rem rot 360 + 360).
  { unfold Binary64.add. apply round_whole; trivial; [reflexivity|lra|lra]. }
  split.
  - unfold Binary64.current, current. now apply js_rem_eq.
  - unfold current. now apply whole_js_rem.
Qed.

Lemma deltaForward64_exact (its : list WheelItem) (i : nat) (rot : Q)
    (r s : Z) :
  (i < List.length its)%nat ->
  (180 mod Z.of_nat (List.length its) = 0)%Z ->
  rot == inject_Z r -> (0 <= s)%Z ->
  (Z.abs r + (s + 2) * 360 <= 2 ^ 53)%Z ->
  Binary64.deltaForward its (Z.of_nat i) rot (inject_Z s)
  == deltaForward its (Z.of_nat i) rot s /\
  whole (deltaForward its (Z.of_nat i) rot s).
Proof.
  intros Hi Hdiv Hrot Hs Hbound.
  destruct (whole_bounds rot r s Hrot Hs Hbound) as (S0 & B1 & B2).
  destruct (winnerAngle64_exact its i Hi Hdiv) as (EW & WW & W0 & W1).
  destruct (current64_exact rot r Hrot) as (EC & WC).
  destruct (js_norm_range rot) as [C0 C1]. fold (current rot) in C0, C1.
  assert (M : Binary64.mul (inject_Z s) 360 == inject_Z s * 360).
  { apply turns64_exact; [reflexivity|]. lia. }
  assert (WS : whole (inject_Z s * 360))
    by (apply whole_mult; [apply whole_Z|apply (whole_Z 360)]).
  assert (E0 : Binary64.sub 360 (Binary64.winnerAngle its (Z.of_nat i))
               == 360 - winnerAngle its (Z.of_nat i)).
  { unfold Binary64.sub. apply round_whole; [|
      apply whole_minus; [apply (whole_Z 360)|exact WW]|lra|lra].
    rewrite EW. reflexivity. }
  assert (WT : whole (targetAbs its (Z.of_nat i) s)).
  { unfold targetAbs. apply whole_plus; [exact WS|].
    apply whole_minus; [apply (whole_Z 360)|exact WW]. }
  assert (ET : Binary64.targetAbs its (Z.of_nat i) (inject_Z s)
               == targetAbs its (Z.of_nat i) s).
  { unfold Binary64.targetAbs, Binary64.add.
    apply round_whole; [|exact WT|unfold targetAbs; lra|unfold targetAbs; lra].
    rewrite M, E0. reflexivity. }
  set (x := targetAbs its (Z.of_nat i) s - current rot).
  assert (WX : whole x) by (apply whole_minus; assumption).
  assert (EX : Binary64.sub (Binary64.targetAbs its (Z.of_nat i) (inject_Z s))
                            (Binary64.current rot) == x).
  { unfold Binary64.sub.
    apply round_whole; [|exact WX|unfold x, targetAbs; lra
                        |unfold x, targetAbs; lra].
    rewrite ET, EC. reflexivity. }
  destruct (js_rem_range x) as [X1 X2].
  assert (E1 : js_rem (Binary64.sub
                         (Binary64.targetAbs its (Z.of_nat i) (inject_Z s))
                         (Binary64.current rot)) 360
               == js_rem x 360) by (apply js_rem_eq; exact EX).
  assert (W2 : whole (js_rem x 360 + 360))
    by (apply whole_plus; [now apply whole_js_rem|apply (whole_Z 360)]).
  assert (E2 : Binary64.add
                 (js_rem (Binary64.sub
                            (Binary64.targetAbs its (Z.of_nat i) (inject_Z s))
                            (Binary64.current rot)) 360) 360
               == js_rem x 360 + 360).
  { unfold Binary64.add. apply round_whole; [|exact W2|lra|lra].
    rewrite E1. reflexivity. }
  destruct (js_norm_range x) as [N0 N1].
  assert (E3 : js_rem (Binary64.add
                 (js_rem (Binary64.sub
                            (Binary64.targetAbs its (Z.of_nat i) (inject_Z s))
                            (Binary64.current rot)) 360) 360) 360
               == js_rem (js_rem x 360 + 360) 360)
    by (apply js_rem_eq; exact E2).
  assert (WD : whole (js_rem (js_rem x 360 + 360) 360 + inject_Z s * 360))
    by (apply whole_plus; [now apply whole_js_rem|exact WS]).
  unfold Binary64.deltaForward, deltaForward. fold x.
  split; [|exact WD].
  unfold Binary64.add at 1.
  apply round_whole; [|exact WD|lra|lra].
  rewrite E3, M. reflexivity.
Qed.

Lemma nextRotation64_exact (its : list WheelItem) (i : nat) (rot : Q)
    (r s : Z) :
  (i < List.length its)%nat ->
  (180 mod Z.of_nat (List.length its) = 0)%Z ->
  rot == inject_Z r -> (0 <= s)%Z ->
  (Z.abs r + (s + 2) * 360 <= 2 ^ 53)%Z ->
  Binary64.nextRotation its (Z.of_nat i) rot (inject_Z s)
  == nextRotation its (Z.of_nat i) rot s.
Proof.
  intros Hi Hdiv Hrot Hs Hbound.
  destruct (whole_bounds rot r s Hrot Hs Hbound) as (S0 & B1 & B2).
  destruct (deltaForward64_exact its i rot r s Hi Hdiv Hrot Hs Hbound)
    as (ED & WD).
  pose proof (deltaForward_lower its (Z.of_nat i) s rot) as L.
  pose proof (deltaForward_upper its (Z.of_nat i) s rot) as U.
  unfold Binary64.nextRotation, nextRotation, Binary64.add.
  apply round_whole; [| |lra|lra].
  - rewrite ED. reflexivity.
  - apply whole_plus; [exists r; exact Hrot|exact WD].
Qed.

(** X1. A wheel on which nothing rounds.  When the number of items
    divides 180 (the half slice is a whole number of degrees), the
    rotation is a whole number of degrees and the spin count a whole
    number [s >= 0], all within [2^53], every operation of [spinTo] is
    exact: the binary64 delta and target are the rational ones, so the
    delta is [s] turns plus a residue below a turn and [current + delta]
    has exactly the residue of [360 - winnerMid]. *)
Theorem whole_degree_wheel_exact (its : list WheelItem) (i : nat) (rot : Q)
    (r s : Z) :
  (i < List.length its)%nat ->
  (180 mod Z.of_nat (List.length its) = 0)%Z ->
  rot == inject_Z r -> (0 <= s)%Z ->
  (Z.abs r + (s + 2) * 360 <= 2 ^ 53)%Z ->
  let N := count its in
  let winnerMid := inject_Z (Z.of_nat i) * 360 / N + 180 / N in
  let delta := Binary64.deltaForward its (Z.of_nat i) rot (inject_Z s) in
  Binary64.winnerAngle its (Z.of_nat i) == winnerMid /\
  Binary64.current rot == mod360 rot /\
  delta == deltaForward its (Z.of_nat i) rot s /\
  Binary64.nextRotation its (Z.of_nat i) rot (inject_Z s)
  == nextRotation its (Z.of_nat i) rot s /\
  Binary64.nextRotation its (Z.of_nat i) rot (inject_Z s) == rot + delta /\
  inject_Z s * 360 <= delta /\ delta < (inject_Z s + 1) * 360 /\
  mod360 (Binary64.current rot + delta) == mod360 (360 - winnerMid).
Proof.
  intros Hi Hdiv Hrot Hs Hb N winnerMid delta.
  assert (HN : (1 <= List.length its)%nat) by lia.
  pose proof (winnerAngle64_exact its i Hi Hdiv) as (EW & _).
  pose proof (current64_exact rot r Hrot) as (EC & _).
  pose proof (deltaForward64_exact its i rot r s Hi Hdiv Hrot Hs Hb)
    as (ED & _).
  pose proof (nextRotation64_exact its i rot r s Hi Hdiv Hrot Hs Hb) as EN.
  pose proof (winnerAngle_mid its (Z.of_nat i) HN) as M.
  fold delta in ED.
  split. { rewrite EW. exact M. }
  split. { rewrite EC. apply js_norm_mod360. }
  split; [exact ED|]. split; [exact EN|].
  split. { rewrite EN, ED. reflexivity. }
  split. { rewrite ED. apply deltaForward_lower. }
  split. { rewrite ED. apply deltaForward_upper. }
  apply mod360_congr.
  destruct (deltaForward_orientation its (Z.of_nat i) s rot) as [k E].
  exists k. rewrite EC, ED, E, M. reflexivity.
Qed.

Lemma whole_degree_wheel_exact_witness :
  (2 < List.length abcd)%nat /\
  (180 mod Z.of_nat (List.length abcd) = 0)%Z /\
  2295 == inject_Z 2295 /\ (0 <= 6)%Z /\
  (Z.abs 2295 + (6 + 2) * 360 <= 2 ^ 53)%Z /\
  Binary64.deltaForward abcd (Z.of_nat 2) 2295 (inject_Z 6)
  == deltaForward abcd (Z.of_nat 2) 2295 6.
Proof.
  assert (H1 : (2 < List.length abcd)%nat) by (simpl; lia).
  assert (H2 : (180 mod Z.of_nat (List.length abcd) = 0)%Z) by reflexivity.
  assert (H3 : 2295 == inject_Z 2295) by reflexivity.
  assert (H4 : (0 <= 6)%Z) by lia.
  assert (H5 : (Z.abs 2295 + (6 + 2) * 360 <= 2 ^ 53)%Z)
    by (vm_compute; discriminate).
  pose proof (whole_degree_wheel_exact abcd 2 2295 2295 6 H1 H2 H3 H4 H5) as T.
  cbv zeta in T. destruct T as (_ & _ & A & _).
  split; [exact H1|]. split; [exact H2|]. split; [exact H3|].
  split; [exact H4|]. split; [exact H5|exact A].
Defined.

(** ** The remainder of a binary64 value *)

Lemma js_rem_ge (a : Q) : a <= 0 -> a <= js_rem a 360.
Proof.
  intros Ha. unfold js_rem.
  destruct (Qlt_le_dec (a / 360) 0) as [Hn|Hp].
  - pose proof (Qtrunc_sign_neg _ Hn). lra.
  - assert (Hq : a == 360 * (a / 360)) by field.
    assert (Z0 : a / 360 == 0) by lra.
    assert (T : Qtrunc (a / 360) = 0%Z).
    { unfold Qtrunc. rewrite (Qleb_comp 0 0 (Qeq_refl 0) _ _ Z0).
      rewrite (Qfloor_comp _ _ Z0). reflexivity. }
    rewrite T. change (inject_Z 0) with 0. lra.
Qed.

(** The remainder of a binary64 value by 360 is a binary64 value: for
    an exponent [>= 0] it is a whole number below 360, otherwise a
    multiple of the same power of two, no larger than the dividend. *)
Lemma js_rem_float64 (x : Q) :
  Binary64.float64 x -> Binary64.float64 (js_rem x 360).
Proof.
  intros (m & g & Hm & Hx).
  destruct (js_rem_range x) as [R1 R2].
  assert (Pos : 0 <= x -> 0 <= js_rem x 360 /\ js_rem x 360 <= x).
  { intros H. split; [apply (js_rem_nonneg x H)|apply (js_rem_le x H)]. }
  assert (Neg : x <= 0 -> x <= js_rem x 360 /\ js_rem x 360 <= 0).
  { intros H. split; [apply (js_rem_ge x H)|apply (js_rem_nonpos x H)]. }
  set (t := Qtrunc (x / 360)).
  assert (E : js_rem x 360 == x - 360 * inject_Z t) by reflexivity.
  destruct (Z_le_gt_dec 0 g) as [G|G].
  - assert (Ez : js_rem x 360 == inject_Z (m * 2 ^ g - 360 * t)).
    { rewrite E, Hx, (pow2_Z g G). unfold Z.sub.
      rewrite inject_Z_plus, inject_Z_opp, !inject_Z_mult. reflexivity. }
    apply (float64_eq _ _ (Qeq_sym _ _ Ez)). apply float64_Z.
    rewrite Ez in R1, R2.
    change 360 with (inject_Z 360) in R1, R2.
    rewrite <- inject_Z_opp in R1. apply Q_Z_lt in R1, R2.
    assert (360 < 2 ^ 53)%Z by reflexivity. lia.
  - set (k := (m - 360 * t * 2 ^ (- g))%Z).
    pose proof (pow2_pos g) as P.
    assert (U : Binary64.pow2 (- g) * Binary64.pow2 g == 1).
    { rewrite <- pow2_add. replace (- g + g)%Z with 0%Z by lia. reflexivity. }
    assert (Ek : js_rem x 360 == inject_Z k * Binary64.pow2 g).
    { rewrite E, Hx. unfold k, Z.sub.
      rewrite inject_Z_plus, inject_Z_opp, !inject_Z_mult.
      rewrite <- (pow2_Z (- g)) by lia.
      change (inject_Z 360) with 360.
      set (a := Binary64.pow2 (- g)) in *. set (b := Binary64.pow2 g) in *.
      assert (T : 360 * inject_Z t == 360 * inject_Z t * (a * b))
        by (rewrite U; ring).
      rewrite T at 1. ring. }
    exists k, g. split; [|exact Ek].
    rewrite Ek, Hx in Pos, Neg.
    destruct (Qlt_le_dec x 0) as [Xn|Xp].
    + destruct Neg as [N1 N2]; [rewrite Hx in Xn; lra|].
      assert (A : inject_Z m <= inject_Z k)
        by (apply (Qmult_le_r _ _ _ P); exact N1).
      assert (B : inject_Z k <= 0).
      { apply (Qmult_le_r _ _ _ P). lra. }
      change 0 with (inject_Z 0) in B. apply Q_Z_le in A, B. lia.
    + destruct Pos as [P1 P2]; [rewrite Hx in Xp; lra|].
      assert (A : inject_Z k <= inject_Z m)
        by (apply (Qmult_le_r _ _ _ P); exact P2).
      assert (B : 0 <= inject_Z k).
      { apply (Qmult_le_r _ _ _ P). lra. }
      change 0 with (inject_Z 0) in B. apply Q_Z_le in A, B. lia.
Qed.

(** X18. [%] is exact: the remainder of a binary64 value by 360 is a
    binary64 value, of the sign of the dividend and no larger than it
    in magnitude. *)
Theorem remainder_is_exact (x : Q) :
  Binary64.float64 x ->
  Binary64.float64 (js_rem x 360) /\
  - (360) < js_rem x 360 /\ js_rem x 360 < 360 /\
  (0 <= x -> 0 <= js_rem x 360 /\ js_rem x 360 <= x) /\
  (x <= 0 -> x <= js_rem x 360 /\ js_rem x 360 <= 0).
Proof.
  intros F.
  destruct (js_rem_range x) as [R1 R2].
  split; [now apply js_rem_float64|].
  split; [exact R1|]. split; [exact R2|]. split.
  - intros H. split; [apply (js_rem_nonneg x H)|apply (js_rem_le x H)].
  - intros H. split; [apply (js_rem_ge x H)|apply (js_rem_nonpos x H)].
Qed.

Lemma remainder_is_exact_witness :
  Binary64.float64 (1342974916783543 # 549755813888) /\
  Binary64.float64 (js_rem (1342974916783543 # 549755813888) 360).
Proof.
  assert (H : Binary64.float64 (1342974916783543 # 549755813888)).
  { exists 1342974916783543%Z, (-39)%Z. split; [reflexivity|].
    vm_compute. reflexivity. }
  split; [exact H|exact (proj1 (remainder_is_exact _ H))].
Defined.

(** ** Rotation never goes negative, in binary64 *)


















(** ** Rounding does not depend on how a rational is written *)

Lemma ilog2_unique (q : Q) (e : Z) :
  0 < q -> Binary64.pow2 e <= q -> q < Binary64.pow2 (e + 1) ->
  Binary64.ilog2 q = e.
Proof.
  intros P L U. destruct (ilog2_spec q P) as [L' U'].
  destruct (Z_lt_le_dec e (Binary64.ilog2 q)) as [A|A].
  - assert (H : (e + 1 <= Binary64.ilog2 q)%Z) by lia.
    apply pow2_le in H. lra.
  - destruct (Z_lt_le_dec (Binary64.ilog2 q) e) as [B|B]; [|lia].
    assert (H : (Binary64.ilog2 q + 1 <= e)%Z) by lia.
    apply pow2_le in H. lra.
Qed.

Lemma ilog2_eq (q q' : Q) :
  0 < q -> q == q' -> Binary64.ilog2 q = Binary64.ilog2 q'.
Proof.
  intros P E. assert (P' : 0 < q') by (rewrite <- E; exact P).
  destruct (ilog2_spec q' P') as [L U].
  apply ilog2_unique; trivial; rewrite E; assumption.
Qed.

Lemma rne_eq (y y' : Q) : y == y' -> Binary64.rne y = Binary64.rne y'.
Proof.
  intros E. unfold Binary64.rne. rewrite (Qfloor_comp _ _ E).
  assert (D : y - inject_Z (Qfloor y') == y' - inject_Z (Qfloor y'))
    by (rewrite E; reflexivity).
  now rewrite (Qcompare_comp _ _ D _ _ (Qeq_refl (1 # 2))).
Qed.

Lemma round_eq (x y : Q) : x == y -> Binary64.round x == Binary64.round y.
Proof.
  intros E. destruct (Qeq_dec x 0) as [Z0|NZ].
  - rewrite (round_zero x Z0), (round_zero y); [reflexivity|].
    rewrite <- E. exact Z0.
  - assert (NZ' : ~ y == 0) by (rewrite <- E; exact NZ).
    rewrite (round_nonzero x NZ), (round_nonzero y NZ').
    assert (A : Binary64.ilog2 (Qabs x) = Binary64.ilog2 (Qabs y)).
    { apply ilog2_eq; [now apply Qabs_pos_lt|now rewrite E]. }
    rewrite A.
    assert (B : x / Binary64.pow2 (Binary64.ilog2 (Qabs y) - 52)
                == y / Binary64.pow2 (Binary64.ilog2 (Qabs y) - 52))
      by (rewrite E; reflexivity).
    now rewrite (rne_eq _ _ B).
Qed.

(** X20. On the code's arithmetic the delta depends on a rotation
    [>= 0] only through its orientation: two such rotations a whole
    number of turns apart get the very same delta, whatever the size
    of the rotation. *)
Theorem deltaForward64_orientation_only (its : list WheelItem) (idx : Z)
    (sp rot rot' : Q) :
  0 <= rot -> 0 <= rot' -> same_orientation rot rot' ->
  Binary64.current rot == Binary64.current rot' /\
  Binary64.deltaForward its idx rot sp
  == Binary64.deltaForward its idx rot' sp.
Proof.
  intros P P' O.
  assert (R : js_rem rot 360 == js_rem rot' 360).
  { rewrite (js_rem_mod360 rot P), (js_rem_mod360 rot' P').
    now apply mod360_congr. }
  assert (C : Binary64.current rot == Binary64.current rot').
  { unfold Binary64.current, Binary64.add. apply js_rem_eq.
    apply round_eq. rewrite R. reflexivity. }
  split; [exact C|].
  unfold Binary64.deltaForward.
  unfold Binary64.add at 1 3. apply round_eq.
  apply Qplus_comp; [|reflexivity].
  apply js_rem_eq. unfold Binary64.add. apply round_eq.
  apply Qplus_comp; [|reflexivity].
  apply js_rem_eq. unfold Binary64.sub. apply round_eq.
  rewrite C. reflexivity.
Qed.

Lemma deltaForward64_orientation_only_witness :
  0 <= 75 /\ 0 <= 2235 /\ same_orientation 75 2235 /\
  Binary64.deltaForward seven 1 75 6 == Binary64.deltaForward seven 1 2235 6.
Proof.
  assert (H1 : 0 <= 75) by (vm_compute; discriminate).
  assert (H2 : 0 <= 2235) by (vm_compute; discriminate).
  assert (H3 : same_orientation 75 2235).
  { exists (-6)%Z. vm_compute. reflexivity. }
  split; [exact H1|]. split; [exact H2|]. split; [exact H3|].
  exact (proj2 (deltaForward64_orientation_only seven 1 6 75 2235 H1 H2 H3)).
Defined.
